(** * mongo-migrator: a shallow embedding of the reconciliation and command
    engine (migration/migration.go, errors.go, migrator.go) and the
    properties of its specification.

    Conventions of the embedding.
    - An [int64] is a [Z]; the only arithmetic the code performs on versions
      is [+ 1], written with its wrap-around ([add64]).
    - A slice is a [list]; [s[i]] is [index s i], which is [Panic] out of
      range, as the Go runtime panics there.
    - Loops over two cursors ([mergeMigrations], [correlateMigrations]) take
      a [fuel] budget; [mergeMigrations_fuel] and [correlate_from] show that
      the budget handed over by the callers is never exhausted.
    - The database is explicit state ([World]): the documents of the
      [migrations] collection, the rest of the database, a schedule of
      driver failures and a log of the driver calls and migration bodies
      that were invoked.
    - [strconv.ParseInt], which [parseVersion] calls, is a parameter of
      [parseVersion] and [Run]. *)

From Stdlib Require Import Ascii String ZArith Bool Lia List Permutation Sorted.
Import ListNotations.
Open Scope Z_scope.

(** ** Results of running Go code *)

Inductive Exec (A : Type) : Type :=
| Done (a : A)      (* the code returned [a] *)
| Panic             (* runtime panic: index out of range, call of a nil func *)
| OutOfFuel.        (* the loop budget of the embedding ran out *)
Arguments Done {A} a.
Arguments Panic {A}.
Arguments OutOfFuel {A}.

Definition bind {A B : Type} (e : Exec A) (k : A -> Exec B) : Exec B :=
  match e with
  | Done a => k a
  | Panic => Panic
  | OutOfFuel => OutOfFuel
  end.

Notation "x <- e ;; k" := (bind e (fun x => k))
  (at level 61, e at next level, right associativity).

(** [s[i]] on a slice. *)
Definition index {A : Type} (s : list A) (i : nat) : Exec A :=
  match nth_error s i with
  | Some x => Done x
  | None => Panic
  end.

(** Two's complement wrap-around of [int64] arithmetic. *)
Definition wrap64 (z : Z) : Z := (z + 2 ^ 63) mod 2 ^ 64 - 2 ^ 63.
Definition add64 (a b : Z) : Z := wrap64 (a + b).

(** The values of Go's [error] interface that the code tells apart. *)
Inductive error : Type :=
| StringError (s : string)   (* a constant of the package's [Error] string type *)
| ErrNoDocuments             (* mongo.ErrNoDocuments *)
| DriverError (s : string).  (* any other failure of the driver or of a body *)

(** Insertion sort for a strict order given as a boolean test; stable. *)
Section Sorting.
Context {A : Type} (less : A -> A -> bool).

Fixpoint insert_by (x : A) (l : list A) : list A :=
  match l with
  | [] => [x]
  | y :: l' => if less y x then y :: insert_by x l' else x :: y :: l'
  end.

Fixpoint sort_by (l : list A) : list A :=
  match l with
  | [] => []
  | x :: l' => insert_by x (sort_by l')
  end.
End Sorting.

(** ** The database, as far as the migrator sees it *)

Module mongo.

(** A document of the [migrations] collection: the two fields of a
    [Migration] that carry a bson tag other than "-".  The collection is
    typed, so that decoding a document does not fail. *)
Record Doc : Type := { doc_version : Z; doc_name : string }.

Record Database : Type := {
  migrations_coll : list Doc;                  (* in insertion order *)
  other_colls : list (string * list string)    (* what the bodies work on *)
}.

(** What was invoked, in order: the driver calls on the [migrations]
    collection and the bodies of migrations (by version and name). *)
Inductive Event : Type :=
| EvFind
| EvFindOne
| EvInsertOne (d : Doc)
| EvInsertMany (ds : list Doc)
| EvDeleteOne (version : Z)
| EvDrop
| EvUp (version : Z) (name : string)
| EvDown (version : Z) (name : string).

(** [faults] schedules the outcome of the coming driver calls: each call
    consumes one entry, [Some e] makes it fail with [e] and leave the
    collection alone; an exhausted schedule means no more failures.
    [log] keeps every invocation with the error it returned. *)
Record World : Type := {
  base : Database;
  faults : list (option error);
  log : list (Event * option error)
}.

(** Code that runs against the world and may panic. *)
Definition M (A : Type) : Type := World -> World * Exec A.

Definition ret {A : Type} (a : A) : M A := fun w => (w, Done a).

Definition bindM {A B : Type} (c : M A) (k : A -> M B) : M B :=
  fun w =>
    match c w with
    | (w', Done a) => k a w'
    | (w', Panic) => (w', Panic)
    | (w', OutOfFuel) => (w', OutOfFuel)
    end.

Definition lift {A : Type} (e : Exec A) : M A := fun w => (w, e).

Definition coll (w : World) : list Doc := migrations_coll (base w).

Definition set_coll (docs : list Doc) (w : World) : World :=
  {| base := {| migrations_coll := docs;
                other_colls := other_colls (base w) |};
     faults := faults w; log := log w |}.

Definition record (ev : Event) (r : option error) (w : World) : World :=
  {| base := base w; faults := faults w; log := log w ++ [(ev, r)] |}.

(** The outcome that the schedule holds for the call being made. *)
Definition next_fault (w : World) : option error * World :=
  match faults w with
  | [] => (None, w)
  | f :: fs => (f, {| base := base w; faults := fs; log := log w |})
  end.

Definition doc_less (a b : Doc) : bool := doc_version a <? doc_version b.

(** A query: fails as scheduled, or else answers from the collection. *)
Definition query {A : Type} (ev : Event) (answer : list Doc -> error + A)
  : M (error + A) :=
  fun w =>
    let (f, w') := next_fault w in
    let r := match f with
             | Some e => inl e
             | None => answer (coll w')
             end in
    (record ev (match r with inl e => Some e | inr _ => None end) w',
     Done r).

(** A write: fails as scheduled, or else changes the collection. *)
Definition write (ev : Event) (change : list Doc -> list Doc)
  : M (option error) :=
  fun w =>
    let (f, w') := next_fault w in
    match f with
    | Some e => (record ev (Some e) w', Done (Some e))
    | None => (record ev None (set_coll (change (coll w')) w'), Done None)
    end.

(** [Find(ctx, bson.D{}, sort by version ascending)] and the reading of
    the whole cursor.  An empty or missing collection gives an empty
    cursor and no error. *)
Definition Find : M (error + list Doc) :=
  query EvFind (fun docs => inr (sort_by doc_less docs)).

(** [FindOne(ctx, bson.D{}, sort by version descending)]: the document
    of highest version, [ErrNoDocuments] if there is none. *)
Definition FindOne_last : M (error + Doc) :=
  query EvFindOne
    (fun docs => match rev (sort_by doc_less docs) with
                 | [] => inl ErrNoDocuments
                 | d :: _ => inr d
                 end).

(** [FindOne(ctx, bson.D{{"version", v}})]. *)
Definition FindOne_version (v : Z) : M (error + Doc) :=
  query EvFindOne
    (fun docs => match find (fun d => doc_version d =? v) docs with
                 | None => inl ErrNoDocuments
                 | Some d => inr d
                 end).

Definition InsertOne (d : Doc) : M (option error) :=
  write (EvInsertOne d) (fun docs => docs ++ [d]).

Definition InsertMany (ds : list Doc) : M (option error) :=
  write (EvInsertMany ds) (fun docs => docs ++ ds).

Fixpoint remove_first (v : Z) (docs : list Doc) : list Doc :=
  match docs with
  | [] => []
  | d :: rest => if doc_version d =? v then rest else d :: remove_first v rest
  end.

(** [DeleteOne(ctx, bson.D{{"version", v}})]; deleting nothing is no
    error. *)
Definition DeleteOne (v : Z) : M (option error) :=
  write (EvDeleteOne v) (remove_first v).

Definition Drop : M (option error) :=
  write EvDrop (fun _ => []).

End mongo.

Notation "x <~ c ;; k" := (mongo.bindM c (fun x => k))
  (at level 61, c at next level, right associativity).

(** ** migration/migration.go *)

Module migration.

(** [type ApplyFunc func(db *mongo.Database) error]; [None] is the nil
    func.  A body may change the database and fail all the same. *)
Definition ApplyFunc : Type :=
  option (mongo.Database -> mongo.Database * option error).

Record Migration : Type := {
  Version : Z;
  Name : string;
  Up : ApplyFunc;
  Down : ApplyFunc;
  Stored : bool
}.

Definition CompareMigrations (left right : Migration) : bool :=
  Version left <? Version right.

Definition Less (mig other : Migration) : bool :=
  CompareMigrations mig other.

(** [mig.Version == mig.Version]: the receiver is compared with itself. *)
Definition Eq (mig other : Migration) : bool :=
  Version mig =? Version mig.

(** Modelled from the spec: [DummyUpDown] is used by [NewMigrator] but is
    declared in a file that is not part of the sources at hand; the
    specification describes both operations of the zero migration as
    no-ops. *)
Definition DummyUpDown : ApplyFunc := Some (fun db => (db, None)).

(** [sort.Sort(Migrations(all))].  The library routine yields a
    permutation that is ascending for [Less] and promises no stability;
    it is modelled by insertion sort, and [sort_Sort_unique] shows that
    the choice is immaterial whenever the versions are distinct. *)
Definition sort_Sort (ms : list Migration) : list Migration :=
  sort_by Less ms.

(** [s[i] = x] on a slice that holds index [i]. *)
Fixpoint store (s : list Migration) (i : nat) (x : Migration)
  : list Migration :=
  match s, i with
  | [], _ => []
  | _ :: s', O => x :: s'
  | y :: s', S i' => y :: store s' i' x
  end.

(** [type Migrations []Migration] and its methods for [sort.Sort]. *)
Module Migrations.

(** [func (ms Migrations) Len() int] *)
Definition Len (ms : list Migration) : Z := Z.of_nat (length ms).

(** [ms[i], ms[j] = ms[j], ms[i]]: both operands are read, then both
    elements are written. *)
Definition Swap (ms : list Migration) (i j : nat)
  : Exec (list Migration) :=
  mi <- index ms i ;;
  mj <- index ms j ;;
  Done (store (store ms i mj) j mi).

(** [func (ms Migrations) Less(i int, j int) bool] *)
Definition Less (ms : list Migration) (i j : nat) : Exec bool :=
  mi <- index ms i ;;
  mj <- index ms j ;;
  Done (CompareMigrations mi mj).

End Migrations.

End migration.

(** ** errors.go *)

Module errors.
Definition ErrorNoMigrations := StringError "No migrations".
Definition ErrorCommandRequired := StringError "Command required".
Definition ErrorUnexpectedCommand := StringError "Unexpected command".
Definition ErrorInvalidVersionArgumentFormat :=
  StringError "Invalid version argument format".
Definition ErrorVersionNumberRequired := StringError "Version number required".
Definition ErrorMigrationsCollectionAlreadyExists :=
  StringError "Migrations collection already exists".
Definition ErrorUnequalCountsOfMigrations :=
  StringError "Unequal counts of `up` and `down` migrations".
Definition ErrorMigrationsAreNotInitialized :=
  StringError "Migrations are not initialized, try to call `init` at first".
Definition ErrorTargetVersionNotFound :=
  StringError "Target migration version was not found".
Definition ErrorSomeMigrationsAreAbsent :=
  StringError "Some migrations are absent".
End errors.

(** ** migrator.go: the reconciliation engine *)

Module migrator.
Import migration errors.

(** The [client] field only serves to obtain the database handle, which
    is the [World] argument of the commands below. *)
Record Migrator : Type := { migrations : list Migration }.

Definition zeroMigration : Migration :=
  {| Version := 0; Name := "-"; Up := DummyUpDown; Down := DummyUpDown;
     Stored := false |}.

Definition NewMigrator (migrations : list Migration) : Migrator :=
  let all := migrations ++ [zeroMigration] in
  {| migrator.migrations := sort_Sort all |}.

(** The guard shared by the first and the third loop of
    [mergeMigrations]: [actualLength == 0 || actual[j].Version < max],
    evaluated only after [j < actualLength]. *)
Definition below_max (actual : list Migration) (max : Z) (j : nat)
  : Exec bool :=
  if (length actual =? 0)%nat then Done true
  else aj <- index actual j ;; Done (Version aj <? max).

(** First loop of [mergeMigrations]. *)
Fixpoint merge_both (fuel : nat) (applied actual : list Migration)
    (max : Z) (i j : nat) (merged : list Migration)
  : Exec (nat * nat * list Migration) :=
  if (i <? length applied)%nat && (j <? length actual)%nat then
    go <- below_max actual max j ;;
    if go : bool then
      match fuel with
      | O => OutOfFuel
      | S fuel' =>
          ai <- index applied i ;;
          aj <- index actual j ;;
          if Less ai aj then
            merge_both fuel' applied actual max (S i) j (merged ++ [ai])
          else
            apj <- index applied j ;;      (* [applied[j]], as written *)
            if Less aj apj then
              merge_both fuel' applied actual max i (S j) (merged ++ [aj])
            else
              merge_both fuel' applied actual max (S i) (S j)
                (merged ++ [ai])
      end
    else Done (i, j, merged)
  else Done (i, j, merged).

(** Second loop: [for i < appliedLength]. *)
Fixpoint merge_applied (fuel : nat) (applied : list Migration) (i : nat)
    (merged : list Migration) : Exec (list Migration) :=
  if (i <? length applied)%nat then
    match fuel with
    | O => OutOfFuel
    | S fuel' =>
        ai <- index applied i ;;
        merge_applied fuel' applied (S i) (merged ++ [ai])
    end
  else Done merged.

(** Third loop: [for j < actualLength && (...)]. *)
Fixpoint merge_actual (fuel : nat) (actual : list Migration) (max : Z)
    (j : nat) (merged : list Migration) : Exec (list Migration) :=
  if (j <? length actual)%nat then
    go <- below_max actual max j ;;
    if go : bool then
      match fuel with
      | O => OutOfFuel
      | S fuel' =>
          aj <- index actual j ;;
          merge_actual fuel' actual max (S j) (merged ++ [aj])
      end
    else Done merged
  else Done merged.

(** [var max int64], assigned only when [actualLength > 0]. *)
Definition merge_max (actual : list Migration) (target : Z) : Exec Z :=
  if (0 <? length actual)%nat then
    if target =? -1 then
      lst <- index actual (length actual - 1) ;;
      Done (add64 (Version lst) 1)
    else Done (add64 target 1)
  else Done 0.

Definition mergeMigrations (applied actual : list Migration) (target : Z)
  : Exec (list Migration) :=
  max <- merge_max actual target ;;
  r <- merge_both (length applied + length actual) applied actual max
         0 0 [] ;;
  let '(i, j, merged) := r in
  merged <- merge_applied (length applied) applied i merged ;;
  merge_actual (length actual) actual max j merged.

(** The loop of [correlateMigrations]; an error in the result means that
    the function returned from inside the loop. *)
Fixpoint correlate_loop (fuel : nat) (applied actual : list Migration)
    (i j : nat) (correlated : list Migration)
  : Exec (nat * list Migration * option error) :=
  if (i <? length applied)%nat && (j <? length actual)%nat then
    match fuel with
    | O => OutOfFuel
    | S fuel' =>
        ai <- index applied i ;;
        aj <- index actual j ;;
        if Less ai aj then
          Done (i, correlated ++ [ai], Some ErrorSomeMigrationsAreAbsent)
        else if Less aj ai then
          correlate_loop fuel' applied actual i (S j) correlated
        else
          correlate_loop fuel' applied actual (S i) (S j)
            (correlated ++ [aj])
    end
  else Done (i, correlated, None).

(** What follows the loop: [if i < appliedLength { ... }; return]. *)
Definition correlate_finish (applied : list Migration)
    (r : nat * list Migration * option error)
  : Exec (list Migration * option error) :=
  let '(i, correlated, err) := r in
  match err with
  | Some e => Done (correlated, Some e)       (* returned inside the loop *)
  | None =>
      if (i <? length applied)%nat then
        ai <- index applied i ;;
        Done (correlated ++ [ai], Some ErrorSomeMigrationsAreAbsent)
      else Done (correlated, None)
  end.

Definition correlateMigrations (applied actual : list Migration)
  : Exec (list Migration * option error) :=
  r <- correlate_loop (length applied + length actual) applied actual
         0 0 [] ;;
  correlate_finish applied r.

(** ** migrator.go: the commands *)

Import mongo.

(** What every command returns: [(oldVersion, newVersion, err)]. *)
Definition Result : Type := (Z * Z * option error)%type.

(** A decoded document: the function fields stay nil, and the callers
    set [Stored] right after decoding. *)
Definition decoded (d : Doc) : Migration :=
  {| Version := doc_version d; Name := doc_name d; Up := None;
     Down := None; Stored := true |}.

(** What [InsertOne] and [InsertMany] write for a [Migration]. *)
Definition encoded (mig : Migration) : Doc :=
  {| doc_version := Version mig; doc_name := Name mig |}.

(** [if err == mongo.ErrNoDocuments { err = ErrorMigrationsAreNotInitialized }] *)
Definition not_initialized (e : error) : error :=
  match e with
  | ErrNoDocuments => ErrorMigrationsAreNotInitialized
  | _ => e
  end.

(** Invocation of [migr.Up(db)] or [migr.Down(db)]. *)
Definition call (f : ApplyFunc) (ev : Event) : M (option error) :=
  fun w =>
    match f with
    | None => (w, Panic)
    | Some body =>
        let (db', r) := body (base w) in
        ({| base := db'; faults := faults w; log := log w ++ [(ev, r)] |},
         Done r)
    end.

Definition Init : M Result :=
  let migr := {| Version := 0; Name := "-"; Up := None; Down := None;
                 Stored := false |} in
  result <~ FindOne_version 0 ;;
  match result with
  | inl ErrNoDocuments =>
      err <~ InsertOne (encoded migr) ;; ret (0, 0, err)
  | inl e => ret (0, 0, Some e)
  | inr _ => ret (0, 0, Some ErrorMigrationsCollectionAlreadyExists)
  end.

(** [oldVersion] and [newVersion] after the history was read: the
    version of its last element, or the zero values. *)
Definition last_version (history : list Migration) : Exec Z :=
  if (0 <? length history)%nat then
    h <- index history (length history - 1) ;; Done (Version h)
  else Done 0.

(** [for _, migr := range merged] of [Up]; yields [newVersion] and
    [err]. *)
Fixpoint up_loop (merged : list Migration) (newVersion : Z)
  : M (Z * option error) :=
  match merged with
  | [] => ret (newVersion, None)
  | migr :: rest =>
      if negb (Stored migr) then
        let newVersion := Version migr in
        err <~ call (migration.Up migr) (EvUp (Version migr) (Name migr)) ;;
        match err with
        | Some e => ret (newVersion, Some e)
        | None =>
            err <~ InsertOne (encoded migr) ;;
            match err with
            | Some e => ret (newVersion, Some e)
            | None => up_loop rest newVersion
            end
        end
      else up_loop rest newVersion
  end.

Definition Up (m : Migrator) (target : Z) : M Result :=
  cursor <~ Find ;;
  match cursor with
  | inl e => ret (0, 0, Some (not_initialized e))
  | inr docs =>
      let history := map decoded docs in
      version <~ lift (last_version history) ;;
      merged <~ lift (mergeMigrations history (migrations m) target) ;;
      r <~ up_loop merged version ;;
      ret (version, fst r, snd r)
  end.

(** [for i := len(m.migrations) - 1; i >= 0; i--] of [Down], with
    [n = i + 1]. *)
Fixpoint down_loop (ms : list Migration) (old : Z) (n : nat) : M Result :=
  match n with
  | O => ret (old, old, None)
  | S i =>
      mig <~ lift (index ms i) ;;
      if Version mig =? old then
        if (0 <? i)%nat then
          prev <~ lift (index ms (i - 1)) ;;
          let newVersion := Version prev in
          err <~ call (migration.Down mig) (EvDown (Version mig) (Name mig)) ;;
          match err with
          | Some e => ret (old, newVersion, Some e)
          | None =>
              err <~ DeleteOne (Version mig) ;;
              ret (old, newVersion, err)
          end
        else ret (old, old, None)
      else down_loop ms old i
  end.

Definition Down (m : Migrator) : M Result :=
  result <~ FindOne_last ;;
  match result with
  | inl e => ret (0, 0, Some (not_initialized e))
  | inr old =>
      down_loop (migrations m) (doc_version old) (length (migrations m))
  end.

(** [for i := len(correlated) - 1; i >= 0; i--] of [Reset], with
    [n = i + 1]; yields [newVersion] and [err]. *)
Fixpoint reset_loop (correlated : list Migration) (newVersion : Z)
    (n : nat) : M (Z * option error) :=
  match n with
  | O => ret (newVersion, None)
  | S i =>
      migr <~ lift (index correlated i) ;;
      newVersion <~ lift (if (0 <? i)%nat
                          then p <- index correlated (i - 1) ;;
                               Done (Version p)
                          else Done (Version migr)) ;;
      err <~ call (migration.Down migr) (EvDown (Version migr) (Name migr)) ;;
      match err with
      | Some e => ret (newVersion, Some e)
      | None =>
          (* don't delete zero migration *)
          if Version migr >? 0 then
            err <~ DeleteOne (Version migr) ;;
            match err with
            | Some e => ret (newVersion, Some e)
            | None => reset_loop correlated newVersion i
            end
          else reset_loop correlated newVersion i
      end
  end.

Definition Reset (m : Migrator) : M Result :=
  cursor <~ Find ;;
  match cursor with
  | inl e => ret (0, 0, Some (not_initialized e))
  | inr docs =>
      let history := map decoded docs in
      if (0 <? length history)%nat then
        version <~ lift (last_version history) ;;
        c <~ lift (correlateMigrations history (migrations m)) ;;
        match snd c with
        | Some e => ret (version, version, Some e)
        | None =>
            r <~ reset_loop (fst c) version (length (fst c)) ;;
            ret (version, fst r, snd r)
        end
      else ret (0, 0, None)
  end.

Definition Version : M Result :=
  result <~ FindOne_last ;;
  match result with
  | inl e => ret (0, 0, Some (not_initialized e))
  | inr mig => ret (doc_version mig, doc_version mig, None)
  end.

(** [for i, migr := range m.migrations] of [SetVersion]; yields [index]
    and [migs]. *)
Fixpoint set_version_scan (ms : list Migration) (target : Z) (i : Z)
    (migs : list Migration) : Z * list Migration :=
  match ms with
  | [] => (-1, migs)
  | migr :: rest =>
      let migs := migs ++ [migr] in
      if migration.Version migr =? target then (i, migs)
      else set_version_scan rest target (i + 1) migs
  end.

Definition SetVersion (m : Migrator) (target : Z) : M Result :=
  v <~ Version ;;
  let '(oldVersion, _, err) := v in
  match err with
  | Some e => ret (oldVersion, 0, Some e)
  | None =>
      let '(index_, migs) := set_version_scan (migrations m) target 0 [] in
      if index_ =? -1 then ret (oldVersion, 0, Some ErrorTargetVersionNotFound)
      else
        found <~ lift (index (migrations m) (Z.to_nat index_)) ;;
        if oldVersion =? migration.Version found then
          ret (oldVersion, oldVersion, None)
        else
          err <~ Drop ;;
          match err with
          | Some e => ret (oldVersion, 0, Some e)
          | None =>
              err <~ InsertMany (map encoded migs) ;;
              match err with
              | Some e => ret (oldVersion, 0, Some e)
              | None =>
                  lst <~ lift (index migs (length migs - 1)) ;;
                  ret (oldVersion, migration.Version lst, None)
              end
          end
  end.

(** [parseVersion].  [strconv.ParseInt(args[0], 10, 64)] belongs to Go's
    library and is taken as the parameter [ParseInt], which yields the
    value and the error of the call. *)
Definition parseVersion (ParseInt : string -> Z * option error)
    (required : bool) (args : list string) : Z * option error :=
  match args with
  | [] =>
      if required then (0, Some ErrorVersionNumberRequired)
      else (-1, None)
  | a :: _ =>
      let (version, err) := ParseInt a in
      match err with
      | Some _ => (version, Some ErrorInvalidVersionArgumentFormat)
      | None => (version, None)
      end
  end.

(** [Run] interprets commands.  The database that
    [m.client.Database(db)] selects is the world the result runs in. *)
Definition Run (ParseInt : string -> Z * option error) (m : Migrator)
    (args : list string) : M Result :=
  match args with
  | [] => ret (0, 0, Some ErrorCommandRequired)
  | command :: rest =>
      if (command =? "init")%string then Init
      else if (command =? "up")%string then
        let (target, err) := parseVersion ParseInt false rest in
        match err with
        | Some e => ret (0, 0, Some e)
        | None => Up m target
        end
      else if (command =? "down")%string then Down m
      else if (command =? "reset")%string then Reset m
      else if (command =? "version")%string then Version
      else if (command =? "set_version")%string then
        let (target, err) := parseVersion ParseInt true rest in
        match err with
        | Some e => ret (0, 0, Some e)
        | None => SetVersion m target
        end
      else ret (0, 0, Some ErrorUnexpectedCommand)
  end.

End migrator.

(** ** Sample data of the worked examples *)

Module sample.
Import migration mongo.

Definition noop : ApplyFunc := Some (fun db => (db, None)).

Definition failing : ApplyFunc :=
  Some (fun db => (db, Some (DriverError "boom"))).

(** A migration of the known set, as caller code declares it. *)
Definition known (v : Z) : Migration :=
  {| Version := v; Name := "m"; Up := noop; Down := noop; Stored := false |}.

(** A migration whose apply body fails. *)
Definition broken (v : Z) : Migration :=
  {| Version := v; Name := "m"; Up := failing; Down := noop;
     Stored := false |}.

(** A migration whose revert body fails. *)
Definition stuck (v : Z) : Migration :=
  {| Version := v; Name := "m"; Up := noop; Down := failing;
     Stored := false |}.

Definition doc (v : Z) : Doc := {| doc_version := v; doc_name := "m" |}.

Definition zero_doc : Doc := {| doc_version := 0; doc_name := "-" |}.

(** A database whose [migrations] collection holds [docs], with a driver
    that never fails. *)
Definition world (docs : list Doc) : World :=
  {| base := {| migrations_coll := docs; other_colls := [] |};
     faults := []; log := [] |}.

(** A history as the commands read it. *)
Definition stored (v : Z) : Migration := migrator.decoded (doc v).

(** A reader of signed decimal numbers, to stand for [strconv.ParseInt]
    in the worked examples. *)
Fixpoint digits (s : string) (acc : Z) : option Z :=
  match s with
  | EmptyString => Some acc
  | String c s' =>
      let d := Z.of_nat (nat_of_ascii c) - 48 in
      if (0 <=? d) && (d <=? 9) then digits s' (10 * acc + d) else None
  end.

Definition number (s : string) : option Z :=
  match s with
  | EmptyString => None
  | String "-"%char EmptyString => None
  | String "-"%char s' => option_map Z.opp (digits s' 0)
  | String "+"%char EmptyString => None
  | String "+"%char s' => digits s' 0
  | _ => digits s 0
  end.

Definition ParseInt (s : string) : Z * option error :=
  match number s with
  | None => (0, Some (DriverError "invalid syntax"))
  | Some v =>
      if v <? - 2 ^ 63 then (- 2 ^ 63, Some (DriverError "out of range"))
      else if 2 ^ 63 - 1 <? v
           then (2 ^ 63 - 1, Some (DriverError "out of range"))
           else (v, None)
  end.
End sample.

(** * Vocabulary of the statements *)

Import migration errors mongo.

Definition versions (ms : list Migration) : list Z := map migration.Version ms.

Definition doc_versions (ds : list Doc) : list Z := map doc_version ds.

(** Strictly ascending and non-decreasing sequences of versions. *)
Definition ascending (vs : list Z) : Prop := StronglySorted Z.lt vs.
Definition nondecreasing (vs : list Z) : Prop := StronglySorted Z.le vs.

(** [a] has an exact version match in [actual]. *)
Definition matched (actual : list Migration) (a : Migration) : Prop :=
  exists b, In b actual /\ migration.Version b = migration.Version a.

(** Every element of [applied] has an exact version match in [actual]. *)
Definition covered (applied actual : list Migration) : Prop :=
  forall a, In a applied -> matched actual a.

(** The non-stored items of a merge result: what [Up] executes. *)
Definition pending (merged : list Migration) : list Migration :=
  filter (fun m => negb (Stored m)) merged.

(** No failure is scheduled for the driver. *)
Definition no_faults (w : World) : Prop := Forall (fun f => f = None) (faults w).

(** Orders on records, through their key. *)
Definition le_on {A : Type} (key : A -> Z) (a b : A) : Prop := key a <= key b.
Definition lt_on {A : Type} (key : A -> Z) (a b : A) : Prop := key a < key b.

(** [c] is a migration of [actual] with the version of [a]. *)
Definition pairs (actual : list Migration) (a c : Migration) : Prop :=
  In c actual /\ migration.Version c = migration.Version a.

(** What the walk over [applied] and [actual] amounts to: either every
    element is paired, or the output stops at the first element of
    [applied] that has no match. *)
Definition correlation (applied actual out : list Migration)
    (err : option error) : Prop :=
  (err = None /\ covered applied actual /\ Forall2 (pairs actual) applied out)
  \/
  (err = Some ErrorSomeMigrationsAreAbsent /\
   exists pre a post o,
     applied = pre ++ a :: post /\ covered pre actual /\ ~ matched actual a /\
     Forall2 (pairs actual) pre o /\ out = o ++ [a]).

(** The current version: the maximum among the stored records. *)
Definition current_version (w : World) (v : Z) : Prop :=
  In v (doc_versions (coll w)) /\ Forall (fun x => x <= v) (doc_versions (coll w)).

(** [Reset] once the history has been read. *)
Definition Reset_tail (m : migrator.Migrator) (history : list Migration)
    (version : Z) : M migrator.Result :=
  c <~ lift (migrator.correlateMigrations history (migrator.migrations m)) ;;
  match snd c with
  | Some e => ret (version, version, Some e)
  | None =>
      r <~ migrator.reset_loop (fst c) version (length (fst c)) ;;
      ret (version, fst r, snd r)
  end.

(** Reverting [k] succeeds and leaves the [migrations] collection alone. *)
Definition reverts_cleanly (k : Migration) : Prop :=
  exists body,
    migration.Down k = Some body /\
    forall db, snd (body db) = None /\
               migrations_coll (fst (body db)) = migrations_coll db.

(** The database after a body was invoked on it. *)
Definition run (f : ApplyFunc) (db : Database) : Database :=
  match f with
  | Some body => fst (body db)
  | None => db
  end.

(** What [Reset] does to the database for one correlated migration: the
    revert body, then the deletion of the record when the version is above
    0. *)
Definition revert_step (db : Database) (c : Migration) : Database :=
  let db' := run (migration.Down c) db in
  if migration.Version c >? 0
  then {| migrations_coll :=
            remove_first (migration.Version c) (migrations_coll db');
          other_colls := other_colls db' |}
  else db'.

(** What [Reset] invokes for one correlated migration. *)
Definition reset_events (c : Migration) : list (Event * option error) :=
  (EvDown (migration.Version c) (migration.Name c), None)
  :: (if migration.Version c >? 0
      then [(EvDeleteOne (migration.Version c), None)] else []).

(** What [Reset] does to the collection for one correlated migration. *)
Definition sweep (docs : list Doc) (c : Migration) : list Doc :=
  if migration.Version c >? 0 then remove_first (migration.Version c) docs
  else docs.

(** [c] makes [Reset] delete the record [d]. *)
Definition deletes (d : Doc) (c : Migration) : bool :=
  (migration.Version c >? 0) && (doc_version d =? migration.Version c).

(** The first loop of the merge stops on [actual] at [j]. *)
Definition stops (actual : list Migration) (max : Z) (j : nat) : Prop :=
  (length actual <= j)%nat \/ migrator.below_max actual max j = Done false.

(** The known migrations that [SetVersion] records for [target]. *)
Definition up_to (target : Z) (known : list Migration) : list Migration :=
  filter (fun k => migration.Version k <=? target) known.

(** Where an item of a merge result comes from: the history, or the known
    set below the bound. *)
Definition merge_origin (applied actual : list Migration) (max : Z)
    (x : Migration) : Prop :=
  In x applied \/ (In x actual /\ migration.Version x < max).

(** The history holds the first known versions, one record each: the
    state that [Init] and complete runs of [Up] leave behind. *)
Definition prefix_of (applied actual : list Migration) : Prop :=
  exists rest, versions actual = versions applied ++ rest.

(** Applying [k] succeeds and leaves the [migrations] collection alone. *)
Definition applies_cleanly (k : Migration) : Prop :=
  exists body,
    migration.Up k = Some body /\
    forall db, snd (body db) = None /\
               migrations_coll (fst (body db)) = migrations_coll db.

(** What [Up] invokes for one pending migration. *)
Definition up_events (x : Migration) : list (Event * option error) :=
  [(EvUp (migration.Version x) (migration.Name x), None);
   (EvInsertOne (migrator.encoded x), None)].

(** The known migrations below the bound of the merge. *)
Definition below (max : Z) (known : list Migration) : list Migration :=
  filter (fun x => migration.Version x <? max) known.

(** The record of the zero migration, as [Init] and [SetVersion] write
    it. *)
Definition zero_record : Doc := migrator.encoded migrator.zeroMigration.

(** The commands that [Run] knows. *)
Definition commands : list string :=
  ["init"; "up"; "down"; "reset"; "version"; "set_version"]%string.

(** The history as [Up] and [Reset] read it. *)
Definition history (w : World) : list Migration :=
  map migrator.decoded (sort_by doc_less (coll w)).

(** [c] invokes nothing but events that satisfy [P], whatever the world
    and the failures of the driver, and also when it panics. *)
Definition only {A : Type} (P : Event -> Prop) (c : M A) : Prop :=
  forall w : World,
    exists l, log (fst (c w)) = log w ++ l /\ Forall (fun x => P (fst x)) l.

(** The events of a command that reads the last record and rewrites the
    collection. *)
Definition rewrites (ev : Event) : Prop :=
  ev = EvFindOne \/ ev = EvDrop \/ exists ds, ev = EvInsertMany ds.

(** The events of [Reset]: the read, bodies, and deletions of records
    above version 0. *)
Definition reverts (ev : Event) : Prop :=
  ev = EvFind \/ (exists v n, ev = EvDown v n) \/
  (exists v, ev = EvDeleteOne v /\ 0 < v).

(** What [Up] may invoke after the read: complete steps, the body of a
    migration followed by the insertion of its record, and at most one
    step that failed, at the end. *)
Inductive up_trace : list (Event * option error) -> Prop :=
| up_trace_end : up_trace []
| up_trace_step (v : Z) (n : string) (rest : list (Event * option error)) :
    up_trace rest ->
    up_trace ((EvUp v n, None)
              :: (EvInsertOne {| doc_version := v; doc_name := n |}, None)
              :: rest)
| up_trace_body (v : Z) (n : string) (e : error) :
    up_trace [(EvUp v n, Some e)]
| up_trace_insert (v : Z) (n : string) (e : error) :
    up_trace [(EvUp v n, None);
              (EvInsertOne {| doc_version := v; doc_name := n |}, Some e)].

(** What [Down] may invoke after the read: nothing, a body that failed,
    or a body that succeeded and the deletion of the record of its
    version. *)
Inductive down_trace : list (Event * option error) -> Prop :=
| down_trace_nothing : down_trace []
| down_trace_body (v : Z) (n : string) (e : error) :
    down_trace [(EvDown v n, Some e)]
| down_trace_delete (v : Z) (n : string) (res : option error) :
    down_trace [(EvDown v n, None); (EvDeleteOne v, res)].

(** * Properties *)

(** ** Slices *)

Lemma index_Done {A : Type} (s : list A) (i : nat) (x : A) :
  nth_error s i = Some x -> index s i = Done x.
Proof. unfold index. now intros ->. Qed.

Lemma index_lt {A : Type} (s : list A) (i : nat) :
  (i < length s)%nat -> exists x, index s i = Done x /\ nth_error s i = Some x.
Proof.
  intros Hi. unfold index.
  destruct (nth_error s i) as [x|] eqn:E.
  - now exists x.
  - apply nth_error_None in E. lia.
Qed.

Lemma skipn_nth_error {A : Type} (s : list A) (i : nat) (x : A) :
  nth_error s i = Some x -> skipn i s = x :: skipn (S i) s.
Proof.
  revert s. induction i as [|i IH]; intros [|y s] H; simpl in *; try discriminate.
  - now inversion H.
  - now apply IH.
Qed.

Lemma skipn_all_nil {A : Type} (s : list A) (i : nat) :
  (length s <= i)%nat -> skipn i s = [].
Proof. intros. now apply skipn_all2. Qed.

Lemma StronglySorted_skipn {A : Type} (R : A -> A -> Prop) (s : list A) (i : nat) :
  StronglySorted R s -> StronglySorted R (skipn i s).
Proof.
  revert s. induction i as [|i IH]; intros s H; simpl; [assumption|].
  destruct s as [|x s]; [constructor|].
  apply IH. now inversion H.
Qed.

Lemma last_error_snoc {A : Type} (s : list A) (x : A) :
  nth_error (s ++ [x]) (length (s ++ [x]) - 1) = Some x.
Proof.
  rewrite length_app. simpl.
  replace (length s + 1 - 1)%nat with (length s) by lia.
  rewrite nth_error_app2 by lia. now rewrite Nat.sub_diag.
Qed.

(** ** Sorting *)

Section SortingFacts.
Context {A : Type} (less : A -> A -> bool) (key : A -> Z).
Hypothesis less_key : forall a b, less a b = (key a <? key b).

Lemma insert_by_perm (x : A) (l : list A) :
  Permutation (insert_by less x l) (x :: l).
Proof.
  induction l as [|y l IH]; simpl; [reflexivity|].
  destruct (less y x); [|reflexivity].
  rewrite IH. apply perm_swap.
Qed.

Lemma sort_by_perm (l : list A) : Permutation (sort_by less l) l.
Proof.
  induction l as [|x l IH]; simpl; [reflexivity|].
  rewrite insert_by_perm. now constructor.
Qed.

Lemma insert_by_sorted (x : A) (l : list A) :
  StronglySorted (le_on key) l -> StronglySorted (le_on key) (insert_by less x l).
Proof.
  induction 1 as [|y l Hl IH Hy]; simpl.
  - repeat constructor.
  - rewrite less_key. destruct (Z.ltb_spec (key y) (key x)) as [Hlt|Hge].
    + constructor; [assumption|].
      eapply Permutation_Forall; [symmetry; apply insert_by_perm|].
      constructor; [unfold le_on; lia | assumption].
    + constructor; [now constructor|].
      constructor; [assumption|].
      eapply Forall_impl; [|exact Hy]. unfold le_on. intros; simpl in *; lia.
Qed.

Lemma sort_by_sorted (l : list A) : StronglySorted (le_on key) (sort_by less l).
Proof.
  induction l as [|x l IH]; simpl; [constructor|].
  now apply insert_by_sorted.
Qed.

Lemma sorted_keys (R : Z -> Z -> Prop) (l : list A) :
  StronglySorted (fun a b => R (key a) (key b)) l <->
  StronglySorted R (map key l).
Proof.
  induction l as [|x l IH]; simpl.
  - split; constructor.
  - split; intros H; inversion H; subst; constructor;
      try (now apply IH); rewrite Forall_map in *; assumption.
Qed.

Lemma nodup_sorted_strict (l : list A) :
  NoDup (map key l) -> StronglySorted (le_on key) l -> StronglySorted (lt_on key) l.
Proof.
  induction l as [|x l IH]; intros Hnd Hs; [constructor|].
  inversion Hnd as [|? ? Hx Hnd']; inversion Hs as [|? ? Hs' Hall]; subst.
  constructor; [now apply IH|].
  rewrite Forall_forall in *. intros y Hy.
  specialize (Hall y Hy). unfold le_on, lt_on in *.
  assert (key y <> key x); [|lia].
  intros E. apply Hx. rewrite <- E. now apply in_map.
Qed.

(** The sorted result is strictly ascending as soon as the keys are
    distinct. *)
Lemma sort_by_strict (l : list A) :
  NoDup (map key l) -> ascending (map key (sort_by less l)).
Proof.
  intros Hnd. apply sorted_keys. apply nodup_sorted_strict.
  - eapply Permutation_NoDup; [|exact Hnd].
    apply Permutation_map. symmetry. apply sort_by_perm.
  - apply sort_by_sorted.
Qed.

Lemma sort_by_nondecreasing (l : list A) :
  nondecreasing (map key (sort_by less l)).
Proof. apply sorted_keys. apply sort_by_sorted. Qed.

(** Sorting leaves a non-decreasing list as it is. *)
Lemma sort_by_sorted_id (l : list A) :
  StronglySorted (le_on key) l -> sort_by less l = l.
Proof.
  induction 1 as [|x l Hl IH Hx]; simpl; [reflexivity|].
  rewrite IH. destruct l as [|y l]; simpl; [reflexivity|].
  rewrite less_key. inversion Hx; subst. unfold le_on in *.
  destruct (Z.ltb_spec (key y) (key x)); [lia|reflexivity].
Qed.

(** Two strictly ascending arrangements of the same elements coincide. *)
Lemma strict_sorted_perm_eq (l1 l2 : list A) :
  StronglySorted (lt_on key) l1 -> StronglySorted (lt_on key) l2 ->
  Permutation l1 l2 -> l1 = l2.
Proof.
  revert l2. induction l1 as [|a l1 IH]; intros l2 H1 H2 HP.
  - now apply Permutation_nil in HP.
  - destruct l2 as [|b l2].
    + symmetry in HP. now apply Permutation_nil in HP.
    + inversion H1 as [|? ? H1' Ha]; inversion H2 as [|? ? H2' Hb]; subst.
      rewrite Forall_forall in Ha, Hb. unfold lt_on in *.
      assert (a = b) as ->.
      { assert (Hin1 : In a (b :: l2))
          by (eapply Permutation_in; [exact HP|now left]).
        assert (Hin2 : In b (a :: l1))
          by (eapply Permutation_in; [symmetry; exact HP|now left]).
        destruct Hin1 as [->|Hin1]; [reflexivity|].
        destruct Hin2 as [->|Hin2]; [reflexivity|].
        specialize (Ha _ Hin2). specialize (Hb _ Hin1). lia. }
      f_equal. apply IH; try assumption.
      now apply Permutation_cons_inv in HP.
Qed.

(** Any routine that returns a strictly ascending permutation returns
    what insertion sort returns. *)
Lemma sort_by_unique (l l' : list A) :
  Permutation l' l -> StronglySorted (lt_on key) l' -> l' = sort_by less l.
Proof.
  intros HP Hs. apply strict_sorted_perm_eq; [assumption| |].
  - apply nodup_sorted_strict; [|apply sort_by_sorted].
    eapply Permutation_NoDup.
    + apply Permutation_map. etransitivity; [exact HP|].
      symmetry. apply sort_by_perm.
    + apply sorted_keys in Hs. clear -Hs.
      induction Hs as [|v vs Hs IH Hv]; constructor; [|assumption].
      intros Hin. rewrite Forall_forall in Hv. specialize (Hv _ Hin). lia.
  - etransitivity; [exact HP|]. symmetry. apply sort_by_perm.
Qed.

End SortingFacts.

Lemma Less_key (a b : Migration) :
  Less a b = (migration.Version a <? migration.Version b).
Proof. reflexivity. Qed.

Lemma doc_less_key (a b : Doc) : doc_less a b = (doc_version a <? doc_version b).
Proof. reflexivity. Qed.

Lemma sort_Sort_unique (ms sorted : list Migration) :
  Permutation sorted ms -> ascending (versions sorted) -> sorted = sort_Sort ms.
Proof.
  intros HP Hs. apply (sort_by_unique Less migration.Version Less_key); [assumption|].
  now apply (sorted_keys migration.Version Z.lt).
Qed.

(** ** The registry: [NewMigrator] *)

Lemma NewMigrator_perm (ms : list Migration) :
  Permutation (migrator.migrations (migrator.NewMigrator ms))
              (ms ++ [migrator.zeroMigration]).
Proof. apply (sort_by_perm Less). Qed.

Lemma NewMigrator_nondecreasing (ms : list Migration) :
  nondecreasing (versions (migrator.migrations (migrator.NewMigrator ms))).
Proof. apply (sort_by_nondecreasing Less migration.Version Less_key). Qed.

Lemma NewMigrator_ascending (ms : list Migration) :
  NoDup (versions (ms ++ [migrator.zeroMigration])) ->
  ascending (versions (migrator.migrations (migrator.NewMigrator ms))).
Proof. apply (sort_by_strict Less migration.Version Less_key). Qed.

Lemma NoDup_with_zero (ms : list Migration) :
  NoDup (versions ms) ->
  Forall (fun m => 0 < migration.Version m) ms ->
  NoDup (versions (ms ++ [migrator.zeroMigration])).
Proof.
  intros Hnd Hpos. unfold versions. rewrite map_app. simpl.
  eapply Permutation_NoDup; [apply Permutation_cons_append|].
  constructor; [|exact Hnd].
  intros Hin. apply in_map_iff in Hin as (m & Hm & Hin).
  rewrite Forall_forall in Hpos. specialize (Hpos _ Hin). lia.
Qed.

(** The zero migration comes first when it is the lowest. *)
Lemma NewMigrator_head (ms : list Migration) :
  ascending (versions (migrator.migrations (migrator.NewMigrator ms))) ->
  Forall (fun m => 0 < migration.Version m) ms ->
  hd_error (migrator.migrations (migrator.NewMigrator ms))
    = Some migrator.zeroMigration.
Proof.
  intros Hasc Hpos.
  pose proof (NewMigrator_perm ms) as HP.
  destruct (migrator.migrations (migrator.NewMigrator ms)) as [|h t] eqn:E.
  - apply Permutation_nil in HP. now destruct ms.
  - simpl. f_equal.
    assert (Hz : In migrator.zeroMigration (h :: t)).
    { eapply Permutation_in; [symmetry; exact HP|].
      apply in_or_app. right. now left. }
    destruct Hz as [Hz|Hz]; [exact Hz|].
    exfalso.
    unfold versions in Hasc. simpl in Hasc.
    inversion Hasc as [|? ? _ Hall]; subst.
    rewrite Forall_forall in Hall.
    specialize (Hall _ (in_map migration.Version _ _ Hz)). simpl in Hall.
    assert (Hh : In h (ms ++ [migrator.zeroMigration]))
      by (eapply Permutation_in; [exact HP|now left]).
    apply in_app_or in Hh as [Hh|[<-|[]]].
    + rewrite Forall_forall in Hpos. specialize (Hpos _ Hh). lia.
    + simpl in Hall. lia.
Qed.

(** C7, as amended: for every caller-supplied list of migrations whose
    versions are unique and strictly positive, the list that [NewMigrator]
    keeps is strictly ascending by version and starts with the zero
    migration (version 0, name "-"). *)
Theorem NewMigrator_normalized (ms : list Migration) :
  NoDup (versions ms) ->
  Forall (fun m => 0 < migration.Version m) ms ->
  ascending (versions (migrator.migrations (migrator.NewMigrator ms))) /\
  hd_error (migrator.migrations (migrator.NewMigrator ms))
    = Some migrator.zeroMigration.
Proof.
  intros Hnd Hpos.
  assert (Hasc : ascending (versions (migrator.migrations (migrator.NewMigrator ms))))
    by (apply NewMigrator_ascending; now apply NoDup_with_zero).
  split; [exact Hasc|].
  now apply NewMigrator_head.
Qed.

Lemma NewMigrator_normalized_witness :
  ascending (versions (migrator.migrations
                         (migrator.NewMigrator [sample.known 2; sample.known 1]))) /\
  hd_error (migrator.migrations
              (migrator.NewMigrator [sample.known 2; sample.known 1]))
    = Some migrator.zeroMigration.
Proof.
  apply (NewMigrator_normalized [sample.known 2; sample.known 1]).
  - repeat constructor; simpl; intuition discriminate.
  - repeat constructor.
Defined.

(** C7, as stated, fails for a caller that declares a negative version:
    the versions are unique, yet the list starts with that migration. *)
Lemma NewMigrator_negative_version :
  ~ (forall ms : list Migration,
        NoDup (versions ms) ->
        ascending (versions (migrator.migrations (migrator.NewMigrator ms))) /\
        hd_error (migrator.migrations (migrator.NewMigrator ms))
          = Some migrator.zeroMigration).
Proof.
  intros H. destruct (H [sample.known (-1)]) as [_ Hhd].
  - repeat constructor. intros [].
  - vm_compute in Hhd. discriminate Hhd.
Qed.

(** ** Correlate *)

Lemma matched_cons (b : Migration) (actual : list Migration) (a : Migration) :
  matched actual a -> matched (b :: actual) a.
Proof. intros (c & Hc & E). exists c. split; [now right|exact E]. Qed.

Lemma covered_cons (b : Migration) (applied actual : list Migration) :
  covered applied actual -> covered applied (b :: actual).
Proof. intros H a Ha. apply matched_cons. now apply H. Qed.

Lemma pairs_cons (b : Migration) (actual l o : list Migration) :
  Forall2 (pairs actual) l o -> Forall2 (pairs (b :: actual)) l o.
Proof.
  induction 1 as [|x y l o [Hin E] _ IH]; constructor; [|exact IH].
  split; [now right|exact E].
Qed.

Lemma matched_cons_inv (b : Migration) (actual : list Migration) (a : Migration) :
  migration.Version b <> migration.Version a ->
  matched (b :: actual) a -> matched actual a.
Proof.
  intros Hne (c & [->|Hc] & E); [contradiction|]. now exists c.
Qed.

Lemma correlate_loop_eq (fuel : nat) (applied actual : list Migration)
    (i j : nat) (correlated : list Migration) :
  migrator.correlate_loop fuel applied actual i j correlated =
  if (i <? length applied)%nat && (j <? length actual)%nat then
    match fuel with
    | O => OutOfFuel
    | S fuel' =>
        ai <- index applied i ;;
        aj <- index actual j ;;
        if Less ai aj then
          Done (i, correlated ++ [ai], Some ErrorSomeMigrationsAreAbsent)
        else if Less aj ai then
          migrator.correlate_loop fuel' applied actual i (S j) correlated
        else
          migrator.correlate_loop fuel' applied actual (S i) (S j)
            (correlated ++ [aj])
    end
  else Done (i, correlated, None).
Proof. destruct fuel; reflexivity. Qed.

Section Correlate.
Variables applied actual : list Migration.

Lemma correlate_over (i j : nat) (acc : list Migration) :
  (length applied <= i \/ length actual <= j)%nat ->
  exists out err,
    migrator.correlate_finish applied (i, acc, None) = Done (acc ++ out, err) /\
    correlation (skipn i applied) (skipn j actual) out err.
Proof.
  intros Hover. simpl.
  destruct (Nat.ltb_spec i (length applied)) as [Hi|Hi].
  - (* [actual] is exhausted, [applied] is not *)
    assert (Hj : (length actual <= j)%nat) by lia.
    destruct (index_lt applied i Hi) as (ai & Ei & Ni).
    rewrite Ei. simpl.
    exists [ai], (Some ErrorSomeMigrationsAreAbsent). split; [reflexivity|].
    right. split; [reflexivity|].
    exists [], ai, (skipn (S i) applied), [].
    rewrite (skipn_nth_error _ _ _ Ni), (skipn_all_nil actual j Hj).
    repeat split; try constructor; [intros ? []|intros (b & [] & _)].
  - exists [], None. rewrite app_nil_r. split; [reflexivity|].
    left. rewrite (skipn_all_nil applied i Hi).
    repeat split; [intros ? []|constructor].
Qed.

Lemma correlate_from (fuel i j : nat) (acc : list Migration) :
  (length applied - i + (length actual - j) <= fuel)%nat ->
  ascending (versions (skipn i applied)) ->
  nondecreasing (versions (skipn j actual)) ->
  exists out err,
    (r <- migrator.correlate_loop fuel applied actual i j acc ;;
     migrator.correlate_finish applied r) = Done (acc ++ out, err) /\
    correlation (skipn i applied) (skipn j actual) out err.
Proof.
  revert i j acc.
  induction fuel as [|fuel IH]; intros i j acc Hfuel HA HB;
    rewrite correlate_loop_eq;
    destruct (Nat.ltb_spec i (length applied)) as [Hi|Hi];
    destruct (Nat.ltb_spec j (length actual)) as [Hj|Hj];
    cbn [andb bind];
    try (apply correlate_over; lia); try lia.
  (* one more turn of the loop *)
  destruct (index_lt applied i Hi) as (ai & Ei & Ni).
  destruct (index_lt actual j Hj) as (aj & Ej & Nj).
  rewrite Ei, Ej. simpl.
  rewrite (skipn_nth_error _ _ _ Ni) in HA |- *.
  rewrite (skipn_nth_error _ _ _ Nj) in HB |- *.
  unfold versions in HA, HB. simpl in HA, HB.
  inversion HA as [|? ? HA' HAall]; inversion HB as [|? ? HB' HBall]; subst.
  rewrite Forall_map, Forall_forall in HAall, HBall.
  rewrite !Less_key.
  destruct (Z.ltb_spec (migration.Version ai) (migration.Version aj)) as [Hlt|Hge].
  - (* [applied[i]] has no code *)
    simpl. exists [ai], (Some ErrorSomeMigrationsAreAbsent).
    split; [reflexivity|]. right. split; [reflexivity|].
    exists [], ai, (skipn (S i) applied), [].
    repeat split; try constructor; [intros ? []|].
    intros (b & [<-|Hb] & E); [lia|]. specialize (HBall _ Hb). lia.
  - destruct (Z.ltb_spec (migration.Version aj) (migration.Version ai)) as [Hlt'|Hge'].
    + (* [actual[j]] was never applied: skip it *)
      destruct (IH i (S j) acc) as (out & err & Hrun & Hspec); [lia| |exact HB'|].
      { rewrite (skipn_nth_error _ _ _ Ni). exact HA. }
      exists out, err. split; [exact Hrun|].
      rewrite (skipn_nth_error _ _ _ Ni) in Hspec.
      destruct Hspec as [(-> & Hcov & Hpairs)|(-> & pre & a & post & o & E & Hcov & Hun & Hpairs & ->)].
      * left. repeat split; [now apply covered_cons|now apply pairs_cons].
      * right. split; [reflexivity|]. exists pre, a, post, o.
        repeat split; try assumption; [now apply covered_cons| |now apply pairs_cons].
        intros Hm. apply Hun. apply matched_cons_inv in Hm; [exact Hm|].
        assert (Ha : In a (ai :: skipn (S i) applied))
          by (rewrite E; apply in_or_app; right; now left).
        destruct Ha as [<-|Ha]; [lia|]. specialize (HAall _ Ha). lia.
    + (* same version: emit the executable copy *)
      assert (Ev : migration.Version aj = migration.Version ai) by lia.
      destruct (IH (S i) (S j) (acc ++ [aj])) as (out & err & Hrun & Hspec);
        [lia|exact HA'|exact HB'|].
      exists (aj :: out), err. split.
      { rewrite Hrun. now rewrite <- app_assoc. }
      destruct Hspec as [(-> & Hcov & Hpairs)|(-> & pre & a & post & o & E & Hcov & Hun & Hpairs & ->)].
      * left. repeat split.
        -- intros a [<-|Ha]; [exists aj; split; [now left|exact Ev]|].
           apply matched_cons. now apply Hcov.
        -- constructor; [split; [now left|exact Ev]|now apply pairs_cons].
      * right. split; [reflexivity|].
        exists (ai :: pre), a, post, (aj :: o). rewrite E.
        repeat split.
        -- intros x [<-|Hx]; [exists aj; split; [now left|exact Ev]|].
           apply matched_cons. now apply Hcov.
        -- intros Hm. apply Hun. apply matched_cons_inv in Hm; [exact Hm|].
           assert (Ha : In a (skipn (S i) applied))
             by (rewrite E; apply in_or_app; right; now left).
           specialize (HAall _ Ha). lia.
        -- constructor; [split; [now left|exact Ev]|now apply pairs_cons].
Qed.

End Correlate.

Lemma correlateMigrations_correlation (applied actual : list Migration) :
  ascending (versions applied) -> nondecreasing (versions actual) ->
  exists correlated err,
    migrator.correlateMigrations applied actual = Done (correlated, err) /\
    correlation applied actual correlated err.
Proof.
  intros HA HB.
  destruct (correlate_from applied actual (length applied + length actual) 0 0 [])
    as (out & err & Hrun & Hspec); [lia|exact HA|exact HB|].
  exists out, err. split; [exact Hrun|exact Hspec].
Qed.

Lemma Forall2_pairs_length (actual l o : list Migration) :
  Forall2 (pairs actual) l o -> length o = length l.
Proof. induction 1; simpl; congruence. Qed.

(** C3, as amended: for a strictly version-ascending applied history and a
    version-ascending known set, [correlateMigrations] returns no error if
    and only if every applied version has an exact match in the known set;
    on success the output has the length of the applied history and pairs
    each applied record with a known migration of equal version; on
    failure the error is [ErrorSomeMigrationsAreAbsent] and the output ends
    with the first applied migration that has no match. *)
Theorem correlateMigrations_spec (applied actual : list Migration) :
  ascending (versions applied) -> nondecreasing (versions actual) ->
  exists correlated err,
    migrator.correlateMigrations applied actual = Done (correlated, err) /\
    (err = None <-> covered applied actual) /\
    (err = None ->
       length correlated = length applied /\
       Forall2 (pairs actual) applied correlated) /\
    (err <> None ->
       err = Some ErrorSomeMigrationsAreAbsent /\
       exists pre a post o,
         applied = pre ++ a :: post /\ covered pre actual /\
         ~ matched actual a /\ correlated = o ++ [a]).
Proof.
  intros HA HB.
  destruct (correlateMigrations_correlation applied actual HA HB)
    as (out & err & Hrun & Hspec).
  exists out, err. split; [exact Hrun|].
  destruct Hspec as [(-> & Hcov & Hpairs)|(-> & pre & a & post & o & E & Hcov & Hun & Hpairs & ->)].
  - split; [|split].
    + split; [intros _; exact Hcov|reflexivity].
    + intros _. split; [|exact Hpairs].
      now apply Forall2_pairs_length in Hpairs.
    + intros Hne. now contradiction Hne.
  - split; [|split].
    + split; [discriminate|].
      intros Hall. exfalso. apply Hun. apply Hall. rewrite E.
      apply in_or_app. right. now left.
    + discriminate.
    + intros _. split; [reflexivity|].
      exists pre, a, post, o. repeat split; assumption.
Qed.

Lemma correlateMigrations_spec_witness :
  exists correlated err,
    migrator.correlateMigrations
      [sample.stored 0; sample.stored 1; sample.stored 2]
      [sample.known 0; sample.known 1; sample.known 3]
      = Done (correlated, err) /\
    (err = None <->
     covered [sample.stored 0; sample.stored 1; sample.stored 2]
             [sample.known 0; sample.known 1; sample.known 3]) /\
    (err = None ->
       length correlated = 3%nat /\
       Forall2 (pairs [sample.known 0; sample.known 1; sample.known 3])
         [sample.stored 0; sample.stored 1; sample.stored 2] correlated) /\
    (err <> None ->
       err = Some ErrorSomeMigrationsAreAbsent /\
       exists pre a post o,
         [sample.stored 0; sample.stored 1; sample.stored 2] = pre ++ a :: post /\
         covered pre [sample.known 0; sample.known 1; sample.known 3] /\
         ~ matched [sample.known 0; sample.known 1; sample.known 3] a /\
         correlated = o ++ [a]).
Proof.
  apply (correlateMigrations_spec
           [sample.stored 0; sample.stored 1; sample.stored 2]
           [sample.known 0; sample.known 1; sample.known 3]).
  - repeat constructor.
  - repeat constructor; discriminate.
Defined.

(** C3, as stated, fails on a history that holds a version twice: every
    applied version has an exact match, and the walk reports an absence. *)
Lemma correlateMigrations_repeated_version :
  ~ (forall applied actual correlated err,
        migrator.correlateMigrations applied actual = Done (correlated, err) ->
        (err = None <-> covered applied actual)).
Proof.
  intros H.
  specialize (H [sample.stored 0; sample.stored 2; sample.stored 2]
                [sample.known 0; sample.known 1; sample.known 2]
                _ _ eq_refl).
  destruct H as [_ H].
  discriminate H.
  intros a [<-|[<-|[<-|[]]]].
  - exists (sample.known 0). simpl. intuition.
  - exists (sample.known 2). simpl. intuition.
  - exists (sample.known 2). simpl. intuition.
Qed.

(** ** The driver *)

Lemma no_faults_hd (w : World) : no_faults w -> hd None (faults w) = None.
Proof.
  unfold no_faults. destruct (faults w) as [|f fs]; [reflexivity|].
  intros H. now inversion H.
Qed.

Lemma next_fault_ok (w : World) :
  hd None (faults w) = None ->
  next_fault w =
  (None, {| base := base w; faults := tl (faults w); log := log w |}).
Proof.
  unfold next_fault. destruct w as [b [|f fs] l]; simpl.
  - reflexivity.
  - now intros ->.
Qed.

Lemma query_ok {A : Type} (ev : Event) (answer : list Doc -> error + A)
    (w : World) :
  hd None (faults w) = None ->
  query ev answer w =
  ({| base := base w; faults := tl (faults w);
      log := log w ++ [(ev, match answer (coll w) with
                            | inl e => Some e
                            | inr _ => None
                            end)] |},
   Done (answer (coll w))).
Proof. intros H. unfold query. now rewrite (next_fault_ok w H). Qed.

Lemma write_ok (ev : Event) (change : list Doc -> list Doc) (w : World) :
  hd None (faults w) = None ->
  write ev change w =
  ({| base := {| migrations_coll := change (coll w);
                 other_colls := other_colls (base w) |};
      faults := tl (faults w);
      log := log w ++ [(ev, None)] |},
   Done None).
Proof. intros H. unfold write. now rewrite (next_fault_ok w H). Qed.

Lemma no_faults_tl (b : Database) (l : list (Event * option error)) (w : World) :
  no_faults w -> no_faults {| base := b; faults := tl (faults w); log := l |}.
Proof.
  unfold no_faults. simpl. destruct (faults w); simpl; [trivial|].
  intros H. now inversion H.
Qed.

(** The document that both [Find] (as the last of the cursor) and
    [FindOne] hand over as the current one. *)
Lemma sorted_snoc_max (s : list Doc) (l : Doc) :
  StronglySorted (fun a b => doc_version a <= doc_version b) (s ++ [l]) ->
  Forall (fun d => doc_version d <= doc_version l) (s ++ [l]).
Proof.
  induction s as [|x s IH]; simpl; intros H.
  - repeat constructor. lia.
  - inversion H as [|? ? Hs Hx]; subst. constructor; [|now apply IH].
    rewrite Forall_forall in Hx. apply Hx. apply in_or_app. right. now left.
Qed.

Lemma sorted_last (docs : list Doc) :
  docs <> [] ->
  exists s l,
    sort_by doc_less docs = s ++ [l] /\ In l docs /\
    Forall (fun d => doc_version d <= doc_version l) docs.
Proof.
  intros Hne.
  pose proof (sort_by_perm doc_less docs) as HP.
  destruct (exists_last (l := sort_by doc_less docs)) as (s & l & E).
  { intros E. rewrite E in HP. apply Permutation_nil in HP. contradiction. }
  exists s, l. rewrite E in HP. split; [exact E|]. split.
  - eapply Permutation_in; [exact HP|]. apply in_or_app. right. now left.
  - eapply Permutation_Forall; [exact HP|]. apply sorted_snoc_max.
    rewrite <- E. apply (sort_by_sorted doc_less doc_version doc_less_key).
Qed.

Lemma last_version_snoc (s : list Doc) (l : Doc) :
  migrator.last_version (map migrator.decoded (s ++ [l])) = Done (doc_version l).
Proof.
  unfold migrator.last_version. rewrite map_app. simpl map.
  destruct (Nat.ltb_spec 0 (length (map migrator.decoded s ++ [migrator.decoded l]))) as [H|H].
  - unfold index. rewrite last_error_snoc. reflexivity.
  - rewrite length_app in H. simpl in H. lia.
Qed.

Lemma sorted_last_current (w : World) (s : list Doc) (l : Doc) :
  In l (coll w) -> Forall (fun d => doc_version d <= doc_version l) (coll w) ->
  current_version w (doc_version l).
Proof.
  intros Hin Hall. split.
  - now apply in_map.
  - unfold doc_versions. now rewrite Forall_map.
Qed.

(** ** [Reset] *)

Lemma Reset_read (m : migrator.Migrator) (w : World) :
  hd None (faults w) = None -> coll w <> [] ->
  exists v,
    current_version w v /\
    migrator.Reset m w =
    Reset_tail m (map migrator.decoded (sort_by doc_less (coll w))) v
      {| base := base w; faults := tl (faults w);
         log := log w ++ [(EvFind, None)] |}.
Proof.
  intros Hf Hne.
  destruct (sorted_last (coll w) Hne) as (s & l & E & Hin & Hmax).
  exists (doc_version l). split; [now apply (sorted_last_current w s)|].
  unfold migrator.Reset, bindM at 1, Find. rewrite (query_ok _ _ _ Hf).
  rewrite E.
  destruct (Nat.ltb_spec 0 (length (map migrator.decoded (s ++ [l])))) as [H|H].
  - unfold bindM at 1, lift at 1. rewrite last_version_snoc. reflexivity.
  - rewrite length_map, length_app in H. simpl in H. lia.
Qed.

Lemma decoded_versions (docs : list Doc) :
  versions (map migrator.decoded docs) = doc_versions docs.
Proof. unfold versions, doc_versions. rewrite map_map. reflexivity. Qed.

Lemma history_ascending (docs : list Doc) :
  NoDup (doc_versions docs) ->
  ascending (versions (map migrator.decoded (sort_by doc_less docs))).
Proof.
  intros Hnd. rewrite decoded_versions.
  now apply (sort_by_strict doc_less doc_version doc_less_key).
Qed.

Lemma ascending_app_lt (pre post : list Z) (a x : Z) :
  ascending (pre ++ a :: post) -> In x post -> a < x.
Proof.
  induction pre as [|p pre IH]; simpl; intros H Hx.
  - inversion H as [|? ? _ Hall]; subst. rewrite Forall_forall in Hall. now apply Hall.
  - inversion H; subst. now apply IH.
Qed.

(** [Reset] on a history with an absence, for any non-decreasing known
    list. *)
Lemma Reset_absent_sorted (m : migrator.Migrator) (w : World) :
  hd None (faults w) = None ->
  NoDup (doc_versions (coll w)) ->
  nondecreasing (versions (migrator.migrations m)) ->
  (exists d, In d (coll w) /\
             ~ matched (migrator.migrations m) (migrator.decoded d)) ->
  exists w' v plan a,
    migrator.Reset m w = (w', Done (v, v, Some ErrorSomeMigrationsAreAbsent)) /\
    current_version w v /\
    coll w' = coll w /\
    log w' = log w ++ [(EvFind, None)] /\
    migrator.correlateMigrations
      (map migrator.decoded (sort_by doc_less (coll w))) (migrator.migrations m)
      = Done (plan ++ [a], Some ErrorSomeMigrationsAreAbsent) /\
    In (migration.Version a) (doc_versions (coll w)) /\
    ~ matched (migrator.migrations m) a /\
    (forall d, In d (coll w) ->
               ~ matched (migrator.migrations m) (migrator.decoded d) ->
               migration.Version a <= doc_version d).
Proof.
  intros Hf Hnd Hknown (d & Hd & Hun).
  assert (Hne : coll w <> []) by (intros E; rewrite E in Hd; destruct Hd).
  destruct (Reset_read m w Hf Hne) as (v & Hv & Hrun).
  pose proof (history_ascending (coll w) Hnd) as Hasc.
  destruct (correlateMigrations_correlation _ _ Hasc Hknown)
    as (out & err & Hcor & Hspec).
  pose proof (sort_by_perm doc_less (coll w)) as HP.
  destruct Hspec as [(-> & Hcov & _)|(-> & pre & a & post & o & E & Hcov & Ha & _ & ->)].
  - exfalso. apply Hun. apply Hcov. apply in_map.
    eapply Permutation_in; [symmetry; exact HP|exact Hd].
  - eexists _, v, o, a. split.
    { rewrite Hrun. unfold Reset_tail, bindM, lift. rewrite Hcor. reflexivity. }
    split; [exact Hv|]. split; [reflexivity|]. split; [reflexivity|].
    split; [exact Hcor|].
    assert (Hin : In a (map migrator.decoded (sort_by doc_less (coll w))))
      by (rewrite E; apply in_or_app; right; now left).
    split; [|split; [exact Ha|]].
    + apply in_map_iff in Hin as (x & <- & Hx). apply (in_map doc_version).
      eapply Permutation_in; [exact HP|exact Hx].
    + intros x Hx Hxun.
      assert (Hx' : In (migrator.decoded x) (pre ++ a :: post)).
      { rewrite <- E. apply in_map.
        eapply Permutation_in; [symmetry; exact HP|exact Hx]. }
      apply in_app_or in Hx' as [Hx'|[Hx'|Hx']].
      * exfalso. apply Hxun. now apply Hcov.
      * rewrite Hx'. simpl. lia.
      * rewrite E in Hasc. unfold versions in Hasc. rewrite map_app in Hasc.
        simpl in Hasc.
        pose proof (ascending_app_lt _ _ _ (doc_version x) Hasc) as Hlt.
        assert (a_lt : migration.Version a < doc_version x); [|lia].
        apply Hlt. change (doc_version x) with (migration.Version (migrator.decoded x)).
        now apply in_map.
Qed.

(** C6, as amended: when [Reset] reads a history of distinct versions in
    which some applied
    migration has no known code, it returns [ErrorSomeMigrationsAreAbsent]
    with the old and the new version both equal to the version before;
    the partial plan of [correlateMigrations], whose last element is the
    applied migration of the first missing version, stays inside [Reset];
    no revert is executed and no record is deleted. *)
Theorem Reset_absent (ms : list Migration) (w : World) :
  let m := migrator.NewMigrator ms in
  hd None (faults w) = None ->
  NoDup (doc_versions (coll w)) ->
  (exists d, In d (coll w) /\
             ~ matched (migrator.migrations m) (migrator.decoded d)) ->
  exists w' v plan a,
    migrator.Reset m w = (w', Done (v, v, Some ErrorSomeMigrationsAreAbsent)) /\
    current_version w v /\
    coll w' = coll w /\
    log w' = log w ++ [(EvFind, None)] /\
    migrator.correlateMigrations
      (map migrator.decoded (sort_by doc_less (coll w))) (migrator.migrations m)
      = Done (plan ++ [a], Some ErrorSomeMigrationsAreAbsent) /\
    In (migration.Version a) (doc_versions (coll w)) /\
    ~ matched (migrator.migrations m) a /\
    (forall d, In d (coll w) ->
               ~ matched (migrator.migrations m) (migrator.decoded d) ->
               migration.Version a <= doc_version d).
Proof.
  intros m Hf Hnd Hun.
  apply Reset_absent_sorted; try assumption.
  apply NewMigrator_nondecreasing.
Qed.

Lemma Reset_absent_witness :
  exists w' v plan a,
    migrator.Reset (migrator.NewMigrator [sample.known 1; sample.known 3])
      (sample.world [sample.zero_doc; sample.doc 1; sample.doc 2; sample.doc 3])
      = (w', Done (v, v, Some ErrorSomeMigrationsAreAbsent)) /\
    v = 3 /\ map migration.Version plan = [0; 1] /\ migration.Version a = 2 /\
    log w' = [(EvFind, None)].
Proof.
  destruct (Reset_absent
              [sample.known 1; sample.known 3]
              (sample.world [sample.zero_doc; sample.doc 1; sample.doc 2; sample.doc 3]))
    as (w' & v & plan & a & Hrun & _ & _ & Hlog & Hcor & _).
  - reflexivity.
  - repeat constructor; simpl; intuition discriminate.
  - exists (sample.doc 2). split; [simpl; tauto|].
    intros (b & [<-|[<-|[<-|[]]]] & E); discriminate E.
  - exists w', v, plan, a.
    vm_compute in Hrun, Hcor. inversion Hrun; subst. inversion Hcor as [Hplan].
    apply (f_equal (@rev Migration)) in Hplan. rewrite rev_app_distr in Hplan.
    simpl in Hplan.
    destruct (rev plan) as [|p1 [|p2 [|p3 r]]] eqn:Erev; try discriminate Hplan.
    inversion Hplan; subst.
    apply (f_equal (@rev Migration)) in Erev. rewrite rev_involutive in Erev.
    subst plan. repeat split; reflexivity.
Defined.

(** C6, as stated, fails: with the known set {0, 1, 3} and the history
    {0, 1, 2, 3} the plan ends with the first missing version, 2, and the
    new version that [Reset] returns is 3, the version before. *)
Lemma Reset_absent_newVersion :
  let m := migrator.NewMigrator [sample.known 1; sample.known 3] in
  let w := sample.world [sample.zero_doc; sample.doc 1; sample.doc 2; sample.doc 3] in
  migrator.correlateMigrations
    (map migrator.decoded (sort_by doc_less (coll w))) (migrator.migrations m)
    = Done ([migrator.zeroMigration; sample.known 1; sample.stored 2],
            Some ErrorSomeMigrationsAreAbsent) /\
  snd (migrator.Reset m w) = Done (3, 3, Some ErrorSomeMigrationsAreAbsent) /\
  ~ (exists old, snd (migrator.Reset m w)
                 = Done (old, 2, Some ErrorSomeMigrationsAreAbsent)).
Proof.
  split; [reflexivity|]. split; [reflexivity|].
  intros (old & H). vm_compute in H. discriminate H.
Qed.

Lemma call_Down_ok (k : Migration) (ev : Event) (w : World) :
  reverts_cleanly k ->
  exists w',
    migrator.call (migration.Down k) ev w = (w', Done None) /\
    coll w' = coll w /\ faults w' = faults w /\ log w' = log w ++ [(ev, None)].
Proof.
  intros (body & E & Hbody). unfold migrator.call. rewrite E.
  destruct (Hbody (base w)) as [Hr Hc].
  destruct (body (base w)) as [db' r]. simpl in *. subst r.
  eexists. split; [reflexivity|]. unfold coll. simpl. auto.
Qed.

Lemma firstn_S_snoc {A : Type} (s : list A) (i : nat) (x : A) :
  nth_error s i = Some x -> firstn (S i) s = firstn i s ++ [x].
Proof.
  revert s. induction i as [|i IH]; intros [|y s] H; simpl in *; try discriminate.
  - now inversion H.
  - f_equal. now apply IH.
Qed.

Lemma reset_loop_ok (cs : list Migration) :
  Forall reverts_cleanly cs ->
  forall (n : nat) (nv : Z) (w : World),
    (n <= length cs)%nat -> no_faults w ->
    exists w',
      migrator.reset_loop cs nv n w
      = (w', Done (match n with
                   | O => nv
                   | S _ => hd nv (versions cs)
                   end, None)) /\
      coll w' = fold_left sweep (rev (firstn n cs)) (coll w) /\
      log w' = log w ++ flat_map reset_events (rev (firstn n cs)) /\
      no_faults w'.
Proof.
  intros Hclean. induction n as [|i IH]; intros nv w Hn Hnf.
  - exists w. simpl. rewrite app_nil_r. auto.
  - destruct (index_lt cs i) as (ci & Ei & Ni); [lia|].
    assert (Hci : reverts_cleanly ci).
    { rewrite Forall_forall in Hclean. apply Hclean. eapply nth_error_In, Ni. }
    cbn [migrator.reset_loop]. unfold bindM at 1, lift at 1. rewrite Ei.
    set (nv' := if (0 <? i)%nat then _ else _).
    assert (Env : exists v, nv' = Done v /\
                 match i with
                 | O => v
                 | S _ => hd v (versions cs)
                 end = hd nv (versions cs)).
    { subst nv'. destruct cs as [|c0 cs']; [destruct i; discriminate Ni|].
      destruct i as [|i'].
      - simpl. exists (migration.Version ci). split; [reflexivity|].
        now inversion Ni.
      - destruct (index_lt (c0 :: cs') i') as (p & Ep & _); [lia|].
        simpl Nat.ltb. cbv iota. simpl Nat.sub. rewrite Nat.sub_0_r, Ep.
        exists (migration.Version p). split; reflexivity. }
    destruct Env as (v & -> & Ev).
    unfold bindM at 1, lift at 1.
    destruct (call_Down_ok ci (EvDown (migration.Version ci) (migration.Name ci)) w Hci)
      as (w1 & Hcall & Hc1 & Hf1 & Hl1).
    unfold bindM at 1. rewrite Hcall.
    assert (Hnf1 : no_faults w1) by (unfold no_faults; now rewrite Hf1).
    rewrite (firstn_S_snoc _ _ _ Ni), rev_app_distr. simpl rev. simpl app.
    cbn [fold_left flat_map]. unfold sweep at 2, reset_events at 1.
    destruct (migration.Version ci >? 0) eqn:Epos.
    + unfold bindM at 1, DeleteOne.
      rewrite (write_ok _ _ _ (no_faults_hd _ Hnf1)).
      set (w2 := {| base := _ |}).
      destruct (IH v w2) as (w' & Hrun & Hc & Hl & Hnf'); [lia|now apply no_faults_tl|].
      exists w'. rewrite Hrun, Ev. split; [reflexivity|]. split; [|split].
      * rewrite Hc. subst w2. unfold coll at 1. simpl. now rewrite Hc1.
      * rewrite Hl. subst w2. simpl. rewrite Hl1, <- !app_assoc. reflexivity.
      * exact Hnf'.
    + destruct (IH v w1) as (w' & Hrun & Hc & Hl & Hnf'); [lia|exact Hnf1|].
      exists w'. rewrite Hrun, Ev. split; [reflexivity|]. split; [|split].
      * rewrite Hc, Hc1. reflexivity.
      * rewrite Hl, Hl1, <- !app_assoc. reflexivity.
      * exact Hnf'.
Qed.

(** The revert body of [k], which succeeds, run on the database. *)
Lemma call_Down_base (k : Migration) (ev : Event) (w : World) :
  reverts_cleanly k ->
  migrator.call (migration.Down k) ev w
  = ({| base := run (migration.Down k) (base w); faults := faults w;
        log := log w ++ [(ev, None)] |}, Done None).
Proof.
  intros (body & E & Hbody). unfold migrator.call, run. rewrite E.
  destruct (Hbody (base w)) as [Hr _].
  destruct (body (base w)) as [db' r]. simpl in *. now subst r.
Qed.

(** The database that the loop of [Reset] leaves: every step, in the order
    of the loop, made its revert body and its deletion. *)
Lemma reset_loop_base (cs : list Migration) :
  Forall reverts_cleanly cs ->
  forall (n : nat) (nv : Z) (w : World),
    (n <= length cs)%nat -> no_faults w ->
    base (fst (migrator.reset_loop cs nv n w))
    = fold_left revert_step (rev (firstn n cs)) (base w).
Proof.
  intros Hclean. induction n as [|i IH]; intros nv w Hn Hnf; [reflexivity|].
  destruct (index_lt cs i) as (ci & Ei & Ni); [lia|].
  assert (Hci : reverts_cleanly ci).
  { rewrite Forall_forall in Hclean. apply Hclean. eapply nth_error_In, Ni. }
  cbn [migrator.reset_loop]. unfold bindM at 1, lift at 1. rewrite Ei.
  set (nv' := if (0 <? i)%nat then _ else _).
  assert (Env : exists v, nv' = Done v).
  { subst nv'. destruct (0 <? i)%nat eqn:Epos; [|now eexists].
    destruct (index_lt cs (i - 1)) as (p & Ep & _); [lia|].
    rewrite Ep. now eexists. }
  destruct Env as (v & ->).
  unfold bindM at 1, lift at 1. unfold bindM at 1.
  rewrite (call_Down_base ci _ w Hci).
  set (w1 := {| base := run (migration.Down ci) (base w) |}).
  assert (Hnf1 : no_faults w1) by exact Hnf.
  rewrite (firstn_S_snoc _ _ _ Ni), rev_app_distr. simpl rev. simpl app.
  cbn [fold_left]. unfold revert_step at 2. cbv zeta.
  destruct (migration.Version ci >? 0) eqn:Epos.
  - unfold bindM at 1, DeleteOne.
    rewrite (write_ok _ _ _ (no_faults_hd _ Hnf1)).
    rewrite IH; [reflexivity|lia|now apply no_faults_tl].
  - rewrite IH; [reflexivity|lia|exact Hnf1].
Qed.

(** *** What is left in the collection *)

Lemma filter_all {A : Type} (f : A -> bool) (l : list A) :
  (forall x, In x l -> f x = true) -> filter f l = l.
Proof.
  induction l as [|x l IH]; simpl; intros H; [reflexivity|].
  rewrite (H x (or_introl eq_refl)). f_equal. apply IH. intros; apply H; now right.
Qed.

Lemma filter_and {A : Type} (f g : A -> bool) (l : list A) :
  filter f (filter g l) = filter (fun x => g x && f x) l.
Proof.
  induction l as [|x l IH]; simpl; [reflexivity|].
  destruct (g x); simpl; [destruct (f x)|]; now rewrite IH.
Qed.

Lemma NoDup_filter_versions (f : Doc -> bool) (docs : list Doc) :
  NoDup (doc_versions docs) -> NoDup (doc_versions (filter f docs)).
Proof.
  induction docs as [|d docs IH]; simpl; intros H; [constructor|].
  inversion H as [|? ? Hd Hnd]; subst.
  destruct (f d); simpl; [constructor|]; try now apply IH.
  intros Hin. apply Hd.
  apply in_map_iff in Hin as (x & E & Hx). apply filter_In in Hx as [Hx _].
  rewrite <- E. now apply in_map.
Qed.

Lemma remove_first_filter (v : Z) (docs : list Doc) :
  NoDup (doc_versions docs) ->
  remove_first v docs = filter (fun d => negb (doc_version d =? v)) docs.
Proof.
  induction docs as [|d docs IH]; simpl; intros H; [reflexivity|].
  inversion H as [|? ? Hd Hnd]; subst.
  destruct (Z.eqb_spec (doc_version d) v) as [E|E]; simpl.
  - symmetry. apply filter_all. intros x Hx.
    destruct (Z.eqb_spec (doc_version x) v) as [E'|]; [|reflexivity].
    exfalso. apply Hd. rewrite E, <- E'. now apply in_map.
  - f_equal. now apply IH.
Qed.

Lemma sweep_filter (cs : list Migration) (docs : list Doc) :
  NoDup (doc_versions docs) ->
  forall keep : Doc -> bool,
    fold_left sweep cs (filter keep docs) =
    filter (fun d => keep d && negb (existsb (deletes d) cs)) docs.
Proof.
  intros Hnd. induction cs as [|c cs IH]; intros keep; simpl.
  - apply filter_ext. intros d. now rewrite andb_true_r.
  - replace (sweep (filter keep docs) c)
      with (filter (fun d => keep d && negb (deletes d c)) docs).
    + rewrite IH. apply filter_ext. intros d.
      rewrite negb_orb. now rewrite andb_assoc.
    + unfold sweep, deletes. destruct (migration.Version c >? 0); simpl.
      * rewrite remove_first_filter by now apply NoDup_filter_versions.
        now rewrite filter_and.
      * apply filter_ext. intros d. now rewrite andb_true_r.
Qed.

Lemma filter_none {A : Type} (f : A -> bool) (l : list A) :
  (forall x, In x l -> f x = false) -> filter f l = [].
Proof.
  induction l as [|x l IH]; simpl; intros H; [reflexivity|].
  rewrite (H x (or_introl eq_refl)). apply IH. intros; apply H; now right.
Qed.

Lemma filter_unique (d0 : Doc) (docs : list Doc) :
  NoDup (doc_versions docs) -> In d0 docs ->
  filter (fun d => doc_version d =? doc_version d0) docs = [d0].
Proof.
  induction docs as [|d docs IH]; simpl; intros H Hin; [destruct Hin|].
  inversion H as [|? ? Hd Hnd]; subst.
  destruct Hin as [->|Hin].
  - rewrite Z.eqb_refl. f_equal. apply filter_none. intros x Hx.
    apply Z.eqb_neq. intros E. apply Hd. rewrite <- E. now apply in_map.
  - destruct (Z.eqb_spec (doc_version d) (doc_version d0)) as [E|_].
    + exfalso. apply Hd. rewrite E. now apply in_map.
    + now apply IH.
Qed.

Lemma pairs_versions (actual l o : list Migration) :
  Forall2 (pairs actual) l o -> versions o = versions l.
Proof.
  induction 1 as [|x y l o [_ E] _ IH]; simpl; [reflexivity|].
  now rewrite E, IH.
Qed.

Lemma pairs_in (actual l o : list Migration) :
  Forall2 (pairs actual) l o -> Forall (fun c => In c actual) o.
Proof. induction 1 as [|x y l o [Hin _] _ IH]; constructor; assumption. Qed.

(** [Reset] on a covered history, for any non-decreasing known list. *)
Lemma Reset_all_sorted (m : migrator.Migrator) (w : World) (d0 : Doc) :
  no_faults w ->
  nondecreasing (versions (migrator.migrations m)) ->
  Forall reverts_cleanly (migrator.migrations m) ->
  NoDup (doc_versions (coll w)) ->
  In d0 (coll w) -> doc_version d0 = 0 ->
  Forall (fun d => 0 <= doc_version d) (coll w) ->
  covered (map migrator.decoded (coll w)) (migrator.migrations m) ->
  exists w' old correlated,
    migrator.Reset m w = (w', Done (old, 0, None)) /\
    current_version w old /\
    Forall2 (pairs (migrator.migrations m))
      (map migrator.decoded (sort_by doc_less (coll w))) correlated /\
    log w' = log w ++ (EvFind, None) :: flat_map reset_events (rev correlated) /\
    coll w' = [d0] /\
    base w' = fold_left revert_step (rev correlated) (base w).
Proof.
  intros Hnf Hknown Hclean Hnd Hd0 Hzero Hfloor Hcov.
  assert (Hne : coll w <> []) by (intros E; rewrite E in Hd0; destruct Hd0).
  destruct (Reset_read m w (no_faults_hd w Hnf) Hne) as (old & Hold & Hrun).
  pose proof (history_ascending (coll w) Hnd) as Hasc.
  pose proof (sort_by_perm doc_less (coll w)) as HP.
  destruct (correlateMigrations_correlation _ _ Hasc Hknown)
    as (cs & err & Hcor & Hspec).
  destruct Hspec as [(-> & _ & Hpairs)|(-> & pre & a & post & o & E & _ & Ha & _)].
  2: { exfalso. apply Ha.
       assert (Hin : In a (map migrator.decoded (sort_by doc_less (coll w))))
         by (rewrite E; apply in_or_app; right; now left).
       apply in_map_iff in Hin as (x & <- & Hx). apply Hcov. apply in_map.
       eapply Permutation_in; [exact HP|exact Hx]. }
  set (w1 := {| base := base w; faults := tl (faults w);
                log := log w ++ [(EvFind, None)] |}) in Hrun.
  assert (Hcs : Forall reverts_cleanly cs).
  { apply pairs_in in Hpairs. rewrite Forall_forall in *.
    intros c Hc. apply Hclean. now apply Hpairs. }
  destruct (reset_loop_ok cs Hcs (length cs) old w1)
    as (w' & Hloop & Hc & Hl & _); [lia|now apply no_faults_tl|].
  assert (Hbase : base w' = fold_left revert_step (rev cs) (base w)).
  { pose proof (reset_loop_base cs Hcs (length cs) old w1 (le_n _)) as Hb.
    rewrite Hloop, firstn_all in Hb. apply Hb. now apply no_faults_tl. }
  rewrite firstn_all in Hc, Hl.
  pose proof (pairs_versions _ _ _ Hpairs) as Hvs.
  rewrite decoded_versions in Hvs.
  (* the lowest correlated version is 0 *)
  assert (Hhd : match length cs with O => old | S _ => hd old (versions cs) end = 0).
  { rewrite Hvs.
    destruct (sort_by doc_less (coll w)) as [|d s] eqn:Es.
    - apply Permutation_nil in HP. contradiction.
    - apply Forall2_length in Hpairs. rewrite <- Hpairs. simpl.
      assert (Hz : In d0 (d :: s))
        by (eapply Permutation_in; [symmetry; exact HP|exact Hd0]).
      assert (Hd : 0 <= doc_version d).
      { rewrite Forall_forall in Hfloor. apply Hfloor.
        eapply Permutation_in; [exact HP|now left]. }
      destruct Hz as [->|Hz]; [exact Hzero|].
      rewrite decoded_versions in Hasc. simpl in Hasc.
      inversion Hasc as [|? ? _ Hall]; subst.
      rewrite Forall_forall in Hall.
      specialize (Hall _ (in_map doc_version _ _ Hz)). lia. }
  exists w', old, cs. split.
  { rewrite Hrun. unfold Reset_tail, bindM at 1, lift. rewrite Hcor.
    cbn [snd fst]. unfold bindM. rewrite Hloop, Hhd. reflexivity. }
  split; [exact Hold|]. split; [exact Hpairs|]. split.
  { rewrite Hl. subst w1. simpl. now rewrite <- app_assoc. }
  split; [|exact Hbase].
  rewrite Hc. subst w1. unfold coll at 1. simpl.
  fold (coll w).
  rewrite <- (filter_all (fun _ => true) (coll w)) at 1 by reflexivity.
  rewrite sweep_filter by exact Hnd.
  rewrite <- (filter_unique d0 (coll w) Hnd Hd0).
  apply filter_ext_in. intros d Hd. rewrite Hzero. simpl.
  rewrite Forall_forall in Hfloor. specialize (Hfloor d Hd).
  destruct (Z.eqb_spec (doc_version d) 0) as [E0|E0].
  - (* nothing deletes a record of version 0 *)
    apply negb_true_iff. apply not_true_is_false. intros Hex.
    apply existsb_exists in Hex as (c & _ & Hdel). unfold deletes in Hdel.
    apply andb_prop in Hdel as [Hpos Heq].
    apply Z.eqb_eq in Heq. apply Z.gtb_lt in Hpos. lia.
  - (* a record of positive version is deleted by its own migration *)
    apply negb_false_iff. apply existsb_exists.
    assert (Hin : In (doc_version d) (versions cs)).
    { rewrite Hvs. apply in_map. eapply Permutation_in; [symmetry; exact HP|exact Hd]. }
    apply in_map_iff in Hin as (c & Ec & Hin).
    exists c. split; [now apply -> in_rev|].
    unfold deletes. rewrite Ec, Z.eqb_refl, andb_true_r. apply Z.gtb_lt. lia.
Qed.

Lemma zeroMigration_reverts_cleanly : reverts_cleanly migrator.zeroMigration.
Proof. eexists. split; [reflexivity|]. intros db. split; reflexivity. Qed.

(** C10, as amended: for a known set that covers the applied history, in
    which no stored version is negative, [Reset] reverts every correlated
    migration from the highest version down to the zero migration, deletes
    each record of positive version right after its revert and never the
    zero record, and returns the version before as old and 0 as new,
    leaving the zero record alone in the collection; the database is what
    the revert bodies and the deletions, in that order, make of it.  The
    history is one that [Init] and [Up] leave behind: distinct versions
    with the zero record as floor; the driver does not fail and the revert
    bodies succeed without touching the [migrations] collection. *)
Theorem Reset_all (ms : list Migration) (w : World) (d0 : Doc) :
  let m := migrator.NewMigrator ms in
  no_faults w ->
  Forall reverts_cleanly ms ->
  NoDup (doc_versions (coll w)) ->
  In d0 (coll w) -> doc_version d0 = 0 ->
  Forall (fun d => 0 <= doc_version d) (coll w) ->
  covered (map migrator.decoded (coll w)) (migrator.migrations m) ->
  exists w' old correlated,
    migrator.Reset m w = (w', Done (old, 0, None)) /\
    current_version w old /\
    Forall2 (pairs (migrator.migrations m))
      (map migrator.decoded (sort_by doc_less (coll w))) correlated /\
    log w' = log w ++ (EvFind, None) :: flat_map reset_events (rev correlated) /\
    coll w' = [d0] /\
    base w' = fold_left revert_step (rev correlated) (base w).
Proof.
  intros m Hnf Hclean Hnd Hd0 Hzero Hfloor Hcov.
  apply Reset_all_sorted; try assumption.
  - apply NewMigrator_nondecreasing.
  - eapply Permutation_Forall; [symmetry; apply NewMigrator_perm|].
    apply Forall_app. split; [exact Hclean|].
    constructor; [exact zeroMigration_reverts_cleanly|constructor].
Qed.

Lemma Reset_all_witness :
  exists w',
    migrator.Reset (migrator.NewMigrator [sample.known 2; sample.known 1])
      (sample.world [sample.zero_doc; sample.doc 1; sample.doc 2])
    = (w', Done (2, 0, None)) /\
    coll w' = [sample.zero_doc].
Proof.
  destruct (Reset_all
              [sample.known 2; sample.known 1]
              (sample.world [sample.zero_doc; sample.doc 1; sample.doc 2])
              sample.zero_doc)
    as (w' & old & cs & Hrun & _ & _ & _ & Hc & _).
  - constructor.
  - repeat constructor; (eexists; split; [reflexivity|]; intros db; split; reflexivity).
  - repeat constructor; simpl; intuition discriminate.
  - now left.
  - reflexivity.
  - repeat constructor; discriminate.
  - intros a [<-|[<-|[<-|[]]]].
    + exists migrator.zeroMigration. split; [now left|reflexivity].
    + exists (sample.known 1). split; [right; now left|reflexivity].
    + exists (sample.known 2). split; [right; right; now left|reflexivity].
  - exists w'. vm_compute in Hrun. inversion Hrun; subst. split; [reflexivity|exact Hc].
Defined.

(** C10, as stated, fails when a known version is negative.  The caller
    declares the version -3; [Init], [SetVersion] to -3 and [Up] with no
    target leave the history {-3, 0}, which the known set covers.  [Reset]
    then runs both revert bodies, deletes no record, since none is above 0,
    and returns -3 as the new version: both records stay. *)
Lemma Reset_negative_version :
  let m := migrator.NewMigrator [sample.known (-3)] in
  let w1 := fst (migrator.Init (sample.world [])) in
  let w2 := fst (migrator.SetVersion m (-3) w1) in
  let r3 := migrator.Up m (-1) w2 in
  let r4 := migrator.Reset m (fst r3) in
  snd r3 = Done (-3, 0, None) /\
  coll (fst r3) = [sample.doc (-3); sample.zero_doc] /\
  covered (map migrator.decoded (coll (fst r3))) (migrator.migrations m) /\
  snd r4 = Done (0, -3, None) /\
  coll (fst r4) = [sample.doc (-3); sample.zero_doc] /\
  log (fst r4) = log (fst r3) ++
                 [(EvFind, None); (EvDown 0 "-", None); (EvDown (-3) "m", None)].
Proof.
  cbv zeta. split; [reflexivity|]. split; [reflexivity|]. split.
  - intros a [<-|[<-|[]]].
    + exists (sample.known (-3)). split; [now left|reflexivity].
    + exists migrator.zeroMigration. split; [right; now left|reflexivity].
  - repeat split.
Qed.

(** ** Merge *)

Lemma merge_both_eq (fuel : nat) (applied actual : list Migration) (max : Z)
    (i j : nat) (merged : list Migration) :
  migrator.merge_both fuel applied actual max i j merged =
  if (i <? length applied)%nat && (j <? length actual)%nat then
    go <- migrator.below_max actual max j ;;
    if go : bool then
      match fuel with
      | O => OutOfFuel
      | S fuel' =>
          ai <- index applied i ;;
          aj <- index actual j ;;
          if Less ai aj then
            migrator.merge_both fuel' applied actual max (S i) j (merged ++ [ai])
          else
            apj <- index applied j ;;
            if Less aj apj then
              migrator.merge_both fuel' applied actual max i (S j) (merged ++ [aj])
            else
              migrator.merge_both fuel' applied actual max (S i) (S j)
                (merged ++ [ai])
      end
    else Done (i, j, merged)
  else Done (i, j, merged).
Proof. destruct fuel; reflexivity. Qed.

Lemma merge_applied_eq (fuel : nat) (applied : list Migration) (i : nat)
    (merged : list Migration) :
  migrator.merge_applied fuel applied i merged =
  if (i <? length applied)%nat then
    match fuel with
    | O => OutOfFuel
    | S fuel' =>
        ai <- index applied i ;;
        migrator.merge_applied fuel' applied (S i) (merged ++ [ai])
    end
  else Done merged.
Proof. destruct fuel; reflexivity. Qed.

Lemma merge_actual_eq (fuel : nat) (actual : list Migration) (max : Z)
    (j : nat) (merged : list Migration) :
  migrator.merge_actual fuel actual max j merged =
  if (j <? length actual)%nat then
    go <- migrator.below_max actual max j ;;
    if go : bool then
      match fuel with
      | O => OutOfFuel
      | S fuel' =>
          aj <- index actual j ;;
          migrator.merge_actual fuel' actual max (S j) (merged ++ [aj])
      end
    else Done merged
  else Done merged.
Proof. destruct fuel; reflexivity. Qed.

Lemma below_max_in_range (actual : list Migration) (max : Z) (j : nat)
    (aj : Migration) :
  nth_error actual j = Some aj ->
  migrator.below_max actual max j = Done (migration.Version aj <? max).
Proof.
  intros Nj. unfold migrator.below_max.
  destruct actual as [|b actual]; [destruct j; discriminate Nj|].
  simpl Nat.eqb. cbv iota. now rewrite (index_Done _ _ _ Nj).
Qed.

Lemma merge_max_total (actual : list Migration) (target : Z) :
  exists max, migrator.merge_max actual target = Done max.
Proof.
  unfold migrator.merge_max.
  destruct (Nat.ltb_spec 0 (length actual)) as [H|H]; [|now eexists].
  destruct (target =? -1); [|now eexists].
  destruct (index_lt actual (length actual - 1)) as (lst & -> & _); [lia|].
  now eexists.
Qed.

(** The second loop appends what is left of [applied]. *)
Lemma merge_applied_ok (applied : list Migration) (fuel i : nat)
    (merged : list Migration) :
  (length applied - i <= fuel)%nat ->
  migrator.merge_applied fuel applied i merged = Done (merged ++ skipn i applied).
Proof.
  revert i merged. induction fuel as [|fuel IH]; intros i merged Hfuel;
    rewrite merge_applied_eq;
    destruct (Nat.ltb_spec i (length applied)) as [Hi|Hi]; try lia;
    try (rewrite skipn_all_nil by lia; now rewrite app_nil_r).
  destruct (index_lt applied i Hi) as (ai & -> & Ni). simpl.
  rewrite IH by lia. rewrite (skipn_nth_error _ _ _ Ni), <- app_assoc. reflexivity.
Qed.

Lemma nondecreasing_nth (l : list Migration) (j i : nat) (x y : Migration) :
  nondecreasing (versions l) -> (j <= i)%nat ->
  nth_error l j = Some x -> nth_error l i = Some y ->
  migration.Version x <= migration.Version y.
Proof.
  intros Hs Hji Nj Ni.
  apply (sorted_keys migration.Version Z.le) in Hs.
  apply (StronglySorted_skipn _ _ j) in Hs.
  rewrite (skipn_nth_error _ _ _ Nj) in Hs.
  remember (skipn (S j) l) as rest eqn:Erest.
  inversion Hs as [|? ? _ Hall]; subst.
  destruct (Nat.eq_dec j i) as [->|Hne].
  - rewrite Nj in Ni. inversion Ni. lia.
  - rewrite Forall_forall in Hall. apply Hall.
    apply (nth_error_In _ (i - S j)). rewrite nth_error_skipn.
    now replace (S j + (i - S j))%nat with i by lia.
Qed.

Section MergeCovered.
Variables applied actual : list Migration.
Variable max : Z.
Hypothesis applied_sorted : nondecreasing (versions applied).
Hypothesis actual_sorted : ascending (versions actual).

Lemma covered_next (i j : nat) (ai aj : Migration) (rest : list Migration) :
  nth_error applied i = Some ai ->
  skipn j actual = aj :: rest ->
  covered (skipn j actual) (skipn i applied) ->
  forall bs, (forall b, In b bs -> In b (skipn j actual) /\
                                   migration.Version ai < migration.Version b) ->
  covered bs (skipn (S i) applied).
Proof.
  intros Ni Ej Hcov bs Hbs b Hb. destruct (Hbs b Hb) as [Hin Hlt].
  destruct (Hcov b Hin) as (c & Hc & E).
  rewrite (skipn_nth_error _ _ _ Ni) in Hc.
  destruct Hc as [<-|Hc]; [lia|]. now exists c.
Qed.

Lemma merge_both_covered (fuel : nat) :
  forall (i j : nat) (merged : list Migration),
    (j <= i)%nat ->
    (length applied - i + (length actual - j) <= fuel)%nat ->
    covered (skipn j actual) (skipn i applied) ->
    exists i' j',
      migrator.merge_both fuel applied actual max i j merged
      = Done (i', j', merged ++ firstn (i' - i) (skipn i applied)) /\
      (i <= i')%nat /\ stops actual max j'.
Proof.
  induction fuel as [|fuel IH]; intros i j merged Hji Hfuel Hcov;
    rewrite merge_both_eq;
    destruct (Nat.ltb_spec i (length applied)) as [Hi|Hi];
    destruct (Nat.ltb_spec j (length actual)) as [Hj|Hj];
    cbn [andb];
    try (exists i, j; rewrite Nat.sub_diag, app_nil_r;
         split; [reflexivity|]; split; [lia|]; left; lia);
    try (exfalso;
         destruct (index_lt actual j Hj) as (aj & _ & Nj);
         rewrite (skipn_nth_error _ _ _ Nj), (skipn_all_nil applied i Hi) in Hcov;
         destruct (Hcov aj (or_introl eq_refl)) as (c & [] & _)).
  - lia.
  - destruct (index_lt applied i Hi) as (ai & Ei & Ni).
    destruct (index_lt actual j Hj) as (aj & Ej & Nj).
    rewrite (below_max_in_range _ _ _ _ Nj). simpl bind.
    destruct (migration.Version aj <? max) eqn:Ego.
    2: { exists i, j. rewrite Nat.sub_diag, app_nil_r.
         split; [reflexivity|]. split; [lia|]. right.
         now rewrite (below_max_in_range _ _ _ _ Nj), Ego. }
    rewrite Ei, Ej. simpl bind.
    pose proof (skipn_nth_error _ _ _ Nj) as Esj.
    pose proof (skipn_nth_error _ _ _ Ni) as Esi.
    (* what is left of [actual] is strictly above [actual[j]] *)
    assert (Habove : forall b, In b (skipn (S j) actual) ->
                               migration.Version aj < migration.Version b).
    { pose proof actual_sorted as Hs.
      apply (sorted_keys migration.Version Z.lt) in Hs.
      apply (StronglySorted_skipn _ _ j) in Hs.
      rewrite Esj in Hs.
      remember (skipn (S j) actual) as rest eqn:Erest.
      inversion Hs as [|? ? _ Hall]; subst.
      now rewrite Forall_forall in Hall. }
    (* [actual[j]] is matched at or after [applied[i]] *)
    assert (Hge : migration.Version ai <= migration.Version aj).
    { destruct (Hcov aj) as (c & Hc & E); [rewrite Esj; now left|].
      rewrite <- E. apply In_nth_error in Hc as (k & Nk).
      rewrite nth_error_skipn in Nk.
      apply (nondecreasing_nth applied i (i + k) ai c applied_sorted);
        [lia|exact Ni|exact Nk]. }
    rewrite !Less_key.
    destruct (Z.ltb_spec (migration.Version ai) (migration.Version aj)) as [Hlt|Hnlt].
    + (* an applied migration without code comes first *)
      destruct (IH (S i) j (merged ++ [ai])) as (i' & j' & Hrun & Hi' & Hstop);
        [lia|lia| |].
      { apply (covered_next i j ai aj _ Ni Esj Hcov).
        intros b Hb. split; [exact Hb|].
        rewrite Esj in Hb. destruct Hb as [<-|Hb]; [exact Hlt|].
        specialize (Habove b Hb). lia. }
      exists i', j'. rewrite Hrun. split; [|split; [lia|exact Hstop]].
      rewrite Esi. replace (i' - i)%nat with (S (i' - S i)) by lia.
      rewrite firstn_cons, <- app_assoc. reflexivity.
    + (* same version on both sides *)
      assert (Ev : migration.Version ai = migration.Version aj) by lia.
      destruct (index_lt applied j) as (apj & Epj & Npj); [lia|].
      rewrite Epj. simpl bind. rewrite Less_key.
      pose proof (nondecreasing_nth applied j i apj ai applied_sorted Hji Npj Ni) as Hle.
      destruct (Z.ltb_spec (migration.Version aj) (migration.Version apj)) as [Hbad|_];
        [lia|].
      destruct (IH (S i) (S j) (merged ++ [ai])) as (i' & j' & Hrun & Hi' & Hstop);
        [lia|lia| |].
      { apply (covered_next i j ai aj _ Ni Esj Hcov).
        intros b Hb. split; [rewrite Esj; now right|].
        specialize (Habove b Hb). lia. }
      exists i', j'. rewrite Hrun. split; [|split; [lia|exact Hstop]].
      rewrite Esi. replace (i' - i)%nat with (S (i' - S i)) by lia.
      rewrite firstn_cons, <- app_assoc. reflexivity.
Qed.

(** The third loop adds nothing where the first one stopped. *)
Lemma merge_actual_stops (fuel j : nat) (merged : list Migration) :
  stops actual max j -> migrator.merge_actual fuel actual max j merged = Done merged.
Proof.
  intros [Hj|Hgo]; rewrite merge_actual_eq;
    destruct (Nat.ltb_spec j (length actual)); try lia; try reflexivity.
  now rewrite Hgo.
Qed.

Lemma merge_covered (target : Z) :
  migrator.merge_max actual target = Done max ->
  covered actual applied ->
  migrator.mergeMigrations applied actual target = Done applied.
Proof.
  intros Hmax Hcov. unfold migrator.mergeMigrations. rewrite Hmax. simpl bind.
  destruct (merge_both_covered (length applied + length actual) 0 0 [])
    as (i' & j' & Hrun & _ & Hstop); [lia|lia|exact Hcov|].
  rewrite Hrun. simpl bind. rewrite merge_applied_ok by lia. simpl bind.
  rewrite merge_actual_stops by exact Hstop.
  simpl. rewrite Nat.sub_0_r. now rewrite firstn_skipn.
Qed.

End MergeCovered.

Lemma up_loop_stored (merged : list Migration) (v : Z) (w : World) :
  pending merged = [] -> migrator.up_loop merged v w = (w, Done (v, None)).
Proof.
  induction merged as [|migr rest IH]; simpl; intros H; [reflexivity|].
  destruct (Stored migr); simpl in *; [now apply IH|discriminate H].
Qed.

Lemma pending_stored (applied : list Migration) :
  Forall (fun a => Stored a = true) applied -> pending applied = [].
Proof.
  intros H. apply filter_none. rewrite Forall_forall in H.
  intros x Hx. now rewrite (H x Hx).
Qed.

(** C9: merging, with no target, an applied history that holds a stored
    copy of every known migration with that known set yields a sequence
    with no non-stored item (the history itself), so that the loop of a
    subsequent [Up] executes nothing. *)
Theorem merge_idempotent (applied actual : list Migration) :
  nondecreasing (versions applied) ->
  ascending (versions actual) ->
  Forall (fun a => Stored a = true) applied ->
  covered actual applied ->
  exists merged,
    migrator.mergeMigrations applied actual (-1) = Done merged /\
    merged = applied /\
    pending merged = [] /\
    forall (v : Z) (w : World), migrator.up_loop merged v w = (w, Done (v, None)).
Proof.
  intros Happ Hact Hstored Hcov.
  destruct (merge_max_total actual (-1)) as (max & Hmax).
  exists applied. split; [|split; [reflexivity|split]].
  - now apply (merge_covered applied actual max Happ Hact (-1)).
  - now apply pending_stored.
  - intros v w. apply up_loop_stored. now apply pending_stored.
Qed.

Lemma merge_idempotent_witness :
  migrator.mergeMigrations
    [sample.stored 0; sample.stored 1; sample.stored 2]
    [sample.known 0; sample.known 1; sample.known 2] (-1)
  = Done [sample.stored 0; sample.stored 1; sample.stored 2].
Proof.
  destruct (merge_idempotent
              [sample.stored 0; sample.stored 1; sample.stored 2]
              [sample.known 0; sample.known 1; sample.known 2])
    as (merged & Hrun & -> & _).
  - repeat constructor; discriminate.
  - repeat constructor.
  - repeat constructor.
  - intros a [<-|[<-|[<-|[]]]].
    + exists (sample.stored 0). split; [now left|reflexivity].
    + exists (sample.stored 1). split; [right; now left|reflexivity].
    + exists (sample.stored 2). split; [right; right; now left|reflexivity].
  - exact Hrun.
Defined.

(** ** [Version] and [SetVersion] *)

Lemma Version_ok (w : World) :
  hd None (faults w) = None -> coll w <> [] ->
  exists v,
    current_version w v /\
    migrator.Version w =
    ({| base := base w; faults := tl (faults w);
        log := log w ++ [(EvFindOne, None)] |}, Done (v, v, None)).
Proof.
  intros Hf Hne.
  destruct (sorted_last (coll w) Hne) as (s & l & E & Hin & Hmax).
  exists (doc_version l). split; [now apply (sorted_last_current w s)|].
  unfold migrator.Version, bindM, FindOne_last. rewrite (query_ok _ _ _ Hf).
  rewrite E, rev_app_distr. reflexivity.
Qed.

Lemma set_version_scan_found (ms : list Migration) (target : Z) :
  ascending (versions ms) -> In target (versions ms) ->
  forall (i : Z) (migs : list Migration),
    exists pre found post,
      ms = pre ++ found :: post /\
      migration.Version found = target /\
      migrator.set_version_scan ms target i migs
      = (i + Z.of_nat (length pre), migs ++ pre ++ [found]) /\
      up_to target ms = pre ++ [found].
Proof.
  induction ms as [|k rest IH]; intros Hasc Hin i migs; [destruct Hin|].
  unfold versions in Hasc. simpl in Hasc.
  inversion Hasc as [|? ? Hrest Hall]; subst.
  rewrite Forall_forall in Hall.
  simpl. destruct (Z.eqb_spec (migration.Version k) target) as [E|E].
  - exists [], k, rest. simpl. rewrite Z.add_0_r.
    repeat split; try assumption.
    destruct (Z.leb_spec (migration.Version k) target); [|lia].
    f_equal. apply filter_none. intros x Hx. apply Z.leb_gt.
    specialize (Hall _ (in_map migration.Version _ _ Hx)). lia.
  - destruct Hin as [Hin|Hin]; [contradiction|].
    destruct (IH Hrest Hin (i + 1) (migs ++ [k]))
      as (pre & found & post & -> & Ev & Hrun & Hupto).
    exists (k :: pre), found, post. rewrite Hrun. simpl length.
    repeat split; try assumption.
    + f_equal; [lia|now rewrite <- app_assoc].
    + specialize (Hall _ Hin).
      destruct (Z.leb_spec (migration.Version k) target); [|lia].
      simpl. f_equal. exact Hupto.
Qed.

Lemma set_version_scan_missing (ms : list Migration) (target : Z) :
  ~ In target (versions ms) ->
  forall (i : Z) (migs : list Migration),
    fst (migrator.set_version_scan ms target i migs) = -1.
Proof.
  induction ms as [|k rest IH]; intros Hnot i migs; [reflexivity|].
  simpl. destruct (Z.eqb_spec (migration.Version k) target) as [E|E].
  - exfalso. apply Hnot. now left.
  - apply IH. intros Hin. apply Hnot. now right.
Qed.

(** [SetVersion] for any strictly ascending known list. *)
Lemma SetVersion_sorted (m : migrator.Migrator) (target : Z) (w : World) :
  no_faults w -> coll w <> [] ->
  ascending (versions (migrator.migrations m)) ->
  exists old w',
    current_version w old /\
    (In target (versions (migrator.migrations m)) -> target <> old ->
     migrator.SetVersion m target w = (w', Done (old, target, None)) /\
     coll w' = map migrator.encoded (up_to target (migrator.migrations m)) /\
     log w' = log w ++
              [(EvFindOne, None); (EvDrop, None);
               (EvInsertMany
                  (map migrator.encoded (up_to target (migrator.migrations m))),
                None)]) /\
    (In target (versions (migrator.migrations m)) -> target = old ->
     migrator.SetVersion m target w = (w', Done (old, old, None)) /\
     coll w' = coll w /\ log w' = log w ++ [(EvFindOne, None)]) /\
    (~ In target (versions (migrator.migrations m)) ->
     migrator.SetVersion m target w
     = (w', Done (old, 0, Some ErrorTargetVersionNotFound)) /\
     coll w' = coll w /\ log w' = log w ++ [(EvFindOne, None)]).
Proof.
  intros Hnf Hne Hasc.
  destruct (Version_ok w (no_faults_hd w Hnf) Hne) as (old & Hold & Hver).
  set (w1 := {| base := base w; faults := tl (faults w);
                log := log w ++ [(EvFindOne, None)] |}) in Hver.
  assert (Hnf1 : no_faults w1) by now apply no_faults_tl.
  destruct (in_dec Z.eq_dec target (versions (migrator.migrations m))) as [Hin|Hnot].
  - destruct (set_version_scan_found _ target Hasc Hin 0 [])
      as (pre & found & post & Ems & Ev & Hscan & Hupto).
    assert (Hidx : index (migrator.migrations m) (Z.to_nat (0 + Z.of_nat (length pre)))
                   = Done found).
    { apply index_Done. rewrite Ems. simpl. rewrite Nat2Z.id.
      rewrite nth_error_app2 by lia. now rewrite Nat.sub_diag. }
    assert (Hhead : migrator.SetVersion m target w =
                    (if old =? target
                     then ret (old, old, None)
                     else
                       err <~ Drop ;;
                       match err with
                       | Some e => ret (old, 0, Some e)
                       | None =>
                           err <~ InsertMany (map migrator.encoded (pre ++ [found])) ;;
                           match err with
                           | Some e => ret (old, 0, Some e)
                           | None =>
                               lst <~ lift (index (pre ++ [found])
                                              (length (pre ++ [found]) - 1)) ;;
                               ret (old, migration.Version lst, None)
                           end
                       end) w1).
    { unfold migrator.SetVersion, bindM at 1. rewrite Hver, Hscan.
      simpl app.
      destruct (Z.eqb_spec (0 + Z.of_nat (length pre)) (-1)) as [Hbad|_]; [lia|].
      unfold bindM at 1, lift at 1. rewrite Hidx, Ev. reflexivity. }
    destruct (Z.eqb_spec old target) as [Eq|Neq].
    + exists old, w1. split; [exact Hold|]. split; [|split].
      * intros _ Hne'. now contradiction Hne'.
      * intros _ _. rewrite Hhead. repeat split; reflexivity.
      * intros Hnot. now contradiction Hnot.
    + eexists old, _. split; [exact Hold|]. split; [|split].
      * intros _ _. rewrite Hhead. unfold bindM at 1, Drop.
        rewrite (write_ok _ _ _ (no_faults_hd _ Hnf1)).
        unfold bindM at 1, InsertMany. rewrite write_ok.
        2: { apply no_faults_hd. now apply no_faults_tl. }
        unfold bindM, lift, index. rewrite last_error_snoc, Ev, Hupto.
        split; [reflexivity|]. split; [reflexivity|].
        simpl. subst w1. simpl. rewrite <- !app_assoc. reflexivity.
      * intros _ Heq. now contradiction Neq.
      * intros Hnot. now contradiction Hnot.
  - exists old, w1. split; [exact Hold|]. split; [|split].
    + intros Hin. now contradiction Hnot.
    + intros Hin. now contradiction Hnot.
    + intros _. unfold migrator.SetVersion, bindM. rewrite Hver.
      pose proof (set_version_scan_missing _ target Hnot 0 []) as Hscan.
      destruct (migrator.set_version_scan (migrator.migrations m) target 0 [])
        as [idx migs]. simpl in Hscan. subst idx. simpl.
      repeat split; reflexivity.
Qed.

(** C8: in an initialized state, [SetVersion] with a target of the known
    set returns the version before as old and the target as new; unless
    the target is the current version, in which case nothing is written,
    it drops the collection and inserts one record for every known
    migration of version up to and including the target, and it invokes
    no apply or revert body; with a target outside the known set it
    returns [ErrorTargetVersionNotFound].  The versions of the known set,
    the zero migration included, are distinct, and the driver does not
    fail. *)
Theorem SetVersion_spec (ms : list Migration) (target : Z) (w : World) :
  let m := migrator.NewMigrator ms in
  NoDup (versions (ms ++ [migrator.zeroMigration])) ->
  no_faults w -> coll w <> [] ->
  exists old w',
    current_version w old /\
    (In target (versions (migrator.migrations m)) -> target <> old ->
     migrator.SetVersion m target w = (w', Done (old, target, None)) /\
     coll w' = map migrator.encoded (up_to target (migrator.migrations m)) /\
     log w' = log w ++
              [(EvFindOne, None); (EvDrop, None);
               (EvInsertMany
                  (map migrator.encoded (up_to target (migrator.migrations m))),
                None)]) /\
    (In target (versions (migrator.migrations m)) -> target = old ->
     migrator.SetVersion m target w = (w', Done (old, old, None)) /\
     coll w' = coll w /\ log w' = log w ++ [(EvFindOne, None)]) /\
    (~ In target (versions (migrator.migrations m)) ->
     migrator.SetVersion m target w
     = (w', Done (old, 0, Some ErrorTargetVersionNotFound)) /\
     coll w' = coll w /\ log w' = log w ++ [(EvFindOne, None)]).
Proof.
  intros m Hnd Hnf Hne.
  apply SetVersion_sorted; try assumption.
  now apply NewMigrator_ascending.
Qed.

Lemma SetVersion_spec_witness :
  exists w',
    migrator.SetVersion
      (migrator.NewMigrator [sample.known 1; sample.known 3; sample.known 2]) 2
      (sample.world [sample.zero_doc; sample.doc 1])
    = (w', Done (1, 2, None)) /\
    coll w' = [sample.zero_doc; sample.doc 1; sample.doc 2].
Proof.
  destruct (SetVersion_spec
              [sample.known 1; sample.known 3; sample.known 2] 2
              (sample.world [sample.zero_doc; sample.doc 1]))
    as (old & w' & [Hold _] & Hset & _).
  - repeat constructor; simpl; intuition discriminate.
  - constructor.
  - discriminate.
  - destruct Hset as (Hrun & Hc & _).
    + vm_compute. tauto.
    + destruct Hold as [<-|[<-|[]]]; discriminate.
    + exists w'. vm_compute in Hrun. inversion Hrun; subst. split; [reflexivity|exact Hc].
Defined.

(** ** The merge on a history with gaps *)

Lemma below_max_total (actual : list Migration) (max : Z) (j : nat) :
  (j < length actual)%nat -> exists go, migrator.below_max actual max j = Done go.
Proof.
  intros Hj. destruct (index_lt actual j Hj) as (aj & _ & Nj).
  rewrite (below_max_in_range _ _ _ _ Nj). now eexists.
Qed.

Lemma merge_both_fuel (applied actual : list Migration) (max : Z) (fuel : nat) :
  forall (i j : nat) (merged : list Migration),
    (length applied - i + (length actual - j) <= fuel)%nat ->
    migrator.merge_both fuel applied actual max i j merged <> OutOfFuel.
Proof.
  induction fuel as [|fuel IH]; intros i j merged Hfuel;
    rewrite merge_both_eq;
    destruct (Nat.ltb_spec i (length applied)) as [Hi|Hi];
    destruct (Nat.ltb_spec j (length actual)) as [Hj|Hj];
    cbn [andb]; try discriminate; try lia.
  destruct (below_max_total actual max j Hj) as (go & ->). simpl bind.
  destruct go; [|discriminate].
  destruct (index_lt applied i Hi) as (ai & -> & _).
  destruct (index_lt actual j Hj) as (aj & -> & _). simpl bind.
  destruct (Less ai aj); [apply IH; lia|].
  unfold index at 1. destruct (nth_error applied j) as [apj|]; simpl bind;
    [|discriminate].
  destruct (Less aj apj); apply IH; lia.
Qed.

Lemma merge_actual_fuel (actual : list Migration) (max : Z) (fuel : nat) :
  forall (j : nat) (merged : list Migration),
    (length actual - j <= fuel)%nat ->
    migrator.merge_actual fuel actual max j merged <> OutOfFuel.
Proof.
  induction fuel as [|fuel IH]; intros j merged Hfuel;
    rewrite merge_actual_eq;
    destruct (Nat.ltb_spec j (length actual)) as [Hj|Hj];
    try discriminate; try lia.
  destruct (below_max_total actual max j Hj) as (go & ->). simpl bind.
  destruct go; [|discriminate].
  destruct (index_lt actual j Hj) as (aj & -> & _). simpl bind.
  apply IH. lia.
Qed.

(** The loop budget of [mergeMigrations] is never exhausted: the function
    returns or panics. *)
Lemma mergeMigrations_fuel (applied actual : list Migration) (target : Z) :
  migrator.mergeMigrations applied actual target <> OutOfFuel.
Proof.
  unfold migrator.mergeMigrations.
  destruct (merge_max_total actual target) as (max & ->). simpl bind.
  pose proof (merge_both_fuel applied actual max
                (length applied + length actual) 0 0 []) as Hboth.
  destruct (migrator.merge_both _ applied actual max 0 0 [])
    as [[[i j] merged]| |]; simpl bind; try discriminate.
  - rewrite merge_applied_ok by lia. simpl bind.
    apply merge_actual_fuel. lia.
  - exfalso. apply Hboth; [lia|reflexivity].
Qed.

(** C2: [mergeMigrations] reads [applied[j]] where [applied[i]] is meant.
    With the ascending history {0, 2} and the ascending known set
    {0, 1, 2} the second cursor overtakes the length of the history and
    the index is out of range. *)
Theorem mergeMigrations_out_of_range :
  migrator.mergeMigrations
    [sample.stored 0; sample.stored 2]
    [sample.known 0; sample.known 1; sample.known 2] (-1)
  = Panic.
Proof. reflexivity. Qed.

(** C1: with the history {0, 2}, the known set {0, 1, 2} and the target 2,
    [Up] panics inside the merge, on [applied[j]], before it executes
    anything, although migration 1 is known, not applied and within the
    target; and with the history {0, 2, 3}, the known set {0, 1, 2, 3} and
    the target 2 it applies migration 2 a second time and records it
    twice. *)
Theorem Up_misses_and_repeats :
  (let m := migrator.NewMigrator [sample.known 1; sample.known 2] in
   let r := migrator.Up m 2 (sample.world [sample.zero_doc; sample.doc 2]) in
   snd r = Panic /\ log (fst r) = [(EvFind, None)] /\
   coll (fst r) = [sample.zero_doc; sample.doc 2]) /\
  (let m := migrator.NewMigrator [sample.known 1; sample.known 2; sample.known 3] in
   let r := migrator.Up m 2
              (sample.world [sample.zero_doc; sample.doc 2; sample.doc 3]) in
   snd r = Done (3, 2, None) /\
   log (fst r) = [(EvFind, None);
                  (EvUp 1 "m", None); (EvInsertOne (sample.doc 1), None);
                  (EvUp 2 "m", None); (EvInsertOne (sample.doc 2), None)] /\
   coll (fst r) = [sample.zero_doc; sample.doc 2; sample.doc 3;
                   sample.doc 1; sample.doc 2]).
Proof. repeat split. Qed.

(** ** Commands before [Init] *)

(** C4: on an empty [migrations] collection [Find] hands over an empty
    cursor and no error, so [Up] applies and records every known
    migration, the zero migration included, and [Reset] returns without
    an error; [Down] and [Version], which use [FindOne], do return
    [ErrorMigrationsAreNotInitialized]. *)
Theorem commands_before_init :
  let m := migrator.NewMigrator [sample.known 1] in
  let w := sample.world [] in
  snd (migrator.Up m (-1) w) = Done (0, 1, None) /\
  coll (fst (migrator.Up m (-1) w)) = [sample.zero_doc; sample.doc 1] /\
  log (fst (migrator.Up m (-1) w))
  = [(EvFind, None);
     (EvUp 0 "-", None); (EvInsertOne sample.zero_doc, None);
     (EvUp 1 "m", None); (EvInsertOne (sample.doc 1), None)] /\
  snd (migrator.Reset m w) = Done (0, 0, None) /\
  snd (migrator.Down m w)
  = Done (0, 0, Some ErrorMigrationsAreNotInitialized) /\
  snd (migrator.Version w)
  = Done (0, 0, Some ErrorMigrationsAreNotInitialized).
Proof. repeat split. Qed.

(** ** Commands that fail partway *)

Lemma up_loop_fails (merged : list Migration) :
  forall (nv : Z) (w w' : World) (new : Z) (e : error),
    migrator.up_loop merged nv w = (w', Done (new, Some e)) ->
    exists name l,
      log w' = l ++ [(EvUp new name, Some e)] \/
      log w' = l ++ [(EvInsertOne {| doc_version := new; doc_name := name |},
                      Some e)].
Proof.
  induction merged as [|migr rest IH]; intros nv w w' new e Hrun;
    simpl in Hrun; [discriminate Hrun|].
  destruct (Stored migr); simpl in Hrun; [now apply (IH _ _ _ _ _ Hrun)|].
  unfold bindM at 1, migrator.call in Hrun.
  destruct (migration.Up migr) as [body|]; [|discriminate Hrun].
  destruct (body (base w)) as [db' [e'|]].
  - (* the apply body fails *)
    inversion Hrun; subst. exists (migration.Name migr), (log w). now left.
  - unfold bindM at 1, InsertOne, write, next_fault in Hrun. simpl in Hrun.
    destruct (faults w) as [|[e'|] fs]; simpl in Hrun.
    + now apply (IH _ _ _ _ _ Hrun).
    + (* the insert fails *)
      inversion Hrun; subst. simpl.
      exists (migration.Name migr), (log w ++ [(EvUp (migration.Version migr) (migration.Name migr), None)]).
      now right.
    + now apply (IH _ _ _ _ _ Hrun).
Qed.

Lemma down_loop_fails (ms : list Migration) (old : Z) :
  forall (n : nat) (w w' : World) (o new : Z) (e : error),
    migrator.down_loop ms old n w = (w', Done (o, new, Some e)) ->
    exists i mig prev l,
      nth_error ms (S i) = Some mig /\ nth_error ms i = Some prev /\
      migration.Version mig = old /\ o = old /\
      new = migration.Version prev /\
      (log w' = l ++ [(EvDown old (migration.Name mig), Some e)] \/
       log w' = l ++ [(EvDeleteOne old, Some e)]).
Proof.
  induction n as [|i IH]; intros w w' o new e Hrun; simpl in Hrun;
    [discriminate Hrun|].
  unfold bindM at 1, lift at 1, index in Hrun.
  destruct (nth_error ms i) as [mig|] eqn:Ni; [|discriminate Hrun].
  destruct (Z.eqb_spec (migration.Version mig) old) as [Ev|_];
    [|now apply (IH _ _ _ _ _ Hrun)].
  destruct i as [|i]; [discriminate Hrun|].
  change (0 <? S i)%nat with true in Hrun. cbv iota in Hrun.
  replace (S i - 1)%nat with i in Hrun by lia.
  unfold bindM at 1, lift at 1 in Hrun.
  destruct (nth_error ms i) as [prev|] eqn:Np; [|discriminate Hrun].
  unfold bindM at 1, migrator.call in Hrun.
  destruct (migration.Down mig) as [body|]; [|discriminate Hrun].
  destruct (body (base w)) as [db' [e'|]].
  - (* the revert body fails *)
    inversion Hrun; subst. exists i, mig, prev, (log w).
    repeat split; try assumption. now left.
  - unfold bindM, DeleteOne, write, next_fault in Hrun. simpl in Hrun.
    destruct (faults w) as [|[e'|] fs]; simpl in Hrun; try discriminate Hrun.
    (* the delete fails *)
    inversion Hrun; subst. simpl.
    exists i, mig, prev,
      (log w ++ [(EvDown (migration.Version mig) (migration.Name mig), None)]).
    repeat split; try assumption. now right.
Qed.

Lemma next_fault_same (w : World) :
  coll (snd (next_fault w)) = coll w /\ log (snd (next_fault w)) = log w.
Proof. unfold next_fault. now destruct (faults w). Qed.

Lemma reset_loop_fails (cs : list Migration) :
  forall (n : nat) (nv : Z) (w w' : World) (new : Z) (e : error),
    migrator.reset_loop cs nv n w = (w', Done (new, Some e)) ->
    exists i migr l,
      nth_error cs i = Some migr /\
      ((i = 0%nat /\ new = migration.Version migr) \/
       (exists k prev, i = S k /\ nth_error cs k = Some prev /\
                       new = migration.Version prev)) /\
      (log w' = l ++ [(EvDown (migration.Version migr) (migration.Name migr),
                       Some e)] \/
       (0 < migration.Version migr /\
        log w' = l ++ [(EvDeleteOne (migration.Version migr), Some e)])).
Proof.
  induction n as [|i IH]; intros nv w w' new e Hrun; simpl in Hrun;
    [discriminate Hrun|].
  unfold bindM at 1, lift at 1 in Hrun.
  destruct (index cs i) as [migr| |] eqn:Ei; try discriminate Hrun.
  assert (Ni : nth_error cs i = Some migr).
  { unfold index in Ei. destruct (nth_error cs i); [now inversion Ei|].
    discriminate Ei. }
  unfold bindM at 1, lift at 1 in Hrun.
  destruct (if (0 <? i)%nat then _ else _) as [v| |] eqn:Ev;
    try discriminate Hrun.
  assert (Hnew : (i = 0%nat /\ v = migration.Version migr) \/
                 (exists k prev, i = S k /\ nth_error cs k = Some prev /\
                                 v = migration.Version prev)).
  { destruct i as [|k].
    - left. simpl in Ev. inversion Ev. now split.
    - right. change (0 <? S k)%nat with true in Ev. cbv iota in Ev.
      replace (S k - 1)%nat with k in Ev by lia. unfold index in Ev.
      destruct (nth_error cs k) as [prev|] eqn:Np; [|discriminate Ev].
      simpl in Ev. inversion Ev. now exists k, prev. }
  unfold bindM at 1, migrator.call in Hrun.
  destruct (migration.Down migr) as [body|]; [|discriminate Hrun].
  destruct (body (base w)) as [db' [e'|]].
  - (* the revert body fails *)
    inversion Hrun; subst. exists i, migr, (log w).
    split; [exact Ni|]. split; [exact Hnew|]. now left.
  - destruct (Z.gtb_spec (migration.Version migr) 0) as [Hpos|_];
      [|now apply (IH _ _ _ _ _ Hrun)].
    unfold bindM at 1, DeleteOne, write, next_fault in Hrun. simpl in Hrun.
    destruct (faults w) as [|[e'|] fs]; simpl in Hrun.
    + now apply (IH _ _ _ _ _ Hrun).
    + (* the delete fails *)
      inversion Hrun; subst. simpl.
      exists i, migr,
        (log w ++ [(EvDown (migration.Version migr) (migration.Name migr), None)]).
      split; [exact Ni|]. split; [exact Hnew|]. right. now split.
    + now apply (IH _ _ _ _ _ Hrun).
Qed.

(** C5, as amended: a command that returns an error returns as new version
    the version that the failing step was moving to, which is fixed before
    the step runs.  For [Up] it is the version of the migration whose apply
    body or whose insert failed; for [Down] the version of the known
    migration just below the current one, whose revert body or whose delete
    failed; for [Reset] the version of the correlated migration just below
    the one whose revert body or whose delete failed, and the version of
    that migration itself when it is the lowest; when the correlation
    fails, [Reset] returns the old version; [SetVersion] and [Init] return
    0, whichever write failed.  A command that fails while reading returns
    0 and 0. *)
Theorem failing_step_version (m : migrator.Migrator) (w w' : World)
    (old new : Z) (e : error) :
  (forall target,
      migrator.Up m target w = (w', Done (old, new, Some e)) ->
      (exists e0, log w' = log w ++ [(EvFind, Some e0)] /\
                  e = migrator.not_initialized e0 /\ old = 0 /\ new = 0) \/
      (exists name l,
          log w' = l ++ [(EvUp new name, Some e)] \/
          log w' = l ++ [(EvInsertOne {| doc_version := new; doc_name := name |},
                          Some e)])) /\
  (migrator.Down m w = (w', Done (old, new, Some e)) ->
   (exists e0, log w' = log w ++ [(EvFindOne, Some e0)] /\
               e = migrator.not_initialized e0 /\ old = 0 /\ new = 0) \/
   (exists i mig prev l,
       nth_error (migrator.migrations m) (S i) = Some mig /\
       nth_error (migrator.migrations m) i = Some prev /\
       migration.Version mig = old /\
       new = migration.Version prev /\
       (log w' = l ++ [(EvDown old (migration.Name mig), Some e)] \/
        log w' = l ++ [(EvDeleteOne old, Some e)]))) /\
  (migrator.Reset m w = (w', Done (old, new, Some e)) ->
   (exists e0, log w' = log w ++ [(EvFind, Some e0)] /\
               e = migrator.not_initialized e0 /\ old = 0 /\ new = 0) \/
   (exists correlated,
       migrator.correlateMigrations (history w) (migrator.migrations m)
       = Done (correlated, Some e) /\
       new = old /\ log w' = log w ++ [(EvFind, None)]) \/
   (exists correlated i migr l,
       migrator.correlateMigrations (history w) (migrator.migrations m)
       = Done (correlated, None) /\
       nth_error correlated i = Some migr /\
       ((i = 0%nat /\ new = migration.Version migr) \/
        (exists k prev, i = S k /\ nth_error correlated k = Some prev /\
                        new = migration.Version prev)) /\
       (log w' = l ++ [(EvDown (migration.Version migr) (migration.Name migr),
                        Some e)] \/
        (0 < migration.Version migr /\
         log w' = l ++ [(EvDeleteOne (migration.Version migr), Some e)])))) /\
  (forall target,
      migrator.SetVersion m target w = (w', Done (old, new, Some e)) ->
      new = 0 /\
      ((exists e0, log w' = log w ++ [(EvFindOne, Some e0)] /\
                   e = migrator.not_initialized e0 /\ old = 0) \/
       (e = ErrorTargetVersionNotFound /\
        log w' = log w ++ [(EvFindOne, None)]) \/
       (exists l, log w' = l ++ [(EvDrop, Some e)]) \/
       (exists l ds, log w' = l ++ [(EvInsertMany ds, Some e)]))) /\
  (migrator.Init w = (w', Done (old, new, Some e)) ->
   old = 0 /\ new = 0 /\
   ((exists e0, log w' = log w ++ [(EvFindOne, Some e0)] /\ e = e0 /\
                e0 <> ErrNoDocuments) \/
    (e = ErrorMigrationsCollectionAlreadyExists /\
     log w' = log w ++ [(EvFindOne, None)]) \/
    (exists l, log w' = l ++ [(EvInsertOne zero_record, Some e)]))) /\
  (migrator.Version w = (w', Done (old, new, Some e)) ->
   old = 0 /\ new = 0 /\
   exists e0, log w' = log w ++ [(EvFindOne, Some e0)] /\
              e = migrator.not_initialized e0).
Proof.
  pose proof (next_fault_same w) as [Hcoll Hlog].
  split; [|split; [|split; [|split; [|split]]]].
  - (* Up *)
    intros target Hrun.
    unfold migrator.Up, bindM at 1, Find, query in Hrun.
    destruct (next_fault w) as [[e0|] w1] eqn:Ef.
    + left. inversion Hrun; subst. exists e0. simpl.
      unfold next_fault in Ef. destruct (faults w); inversion Ef; subst; auto.
    + right. simpl in Hrun.
      unfold bindM at 1, lift at 1 in Hrun.
      destruct (migrator.last_version _) as [version| |]; try discriminate Hrun.
      unfold bindM at 1, lift at 1 in Hrun.
      destruct (migrator.mergeMigrations _ _ _) as [merged| |]; try discriminate Hrun.
      unfold bindM in Hrun.
      destruct (migrator.up_loop merged version _) as [w2 [[nv err]| |]] eqn:Eloop;
        try discriminate Hrun.
      simpl in Hrun. inversion Hrun; subst.
      exact (up_loop_fails _ _ _ _ _ _ Eloop).
  - (* Down *)
    intros Hrun.
    unfold migrator.Down, bindM at 1, FindOne_last, query in Hrun.
    destruct (next_fault w) as [[e0|] w1] eqn:Ef.
    + left. inversion Hrun; subst. exists e0. simpl.
      unfold next_fault in Ef. destruct (faults w); inversion Ef; subst; auto.
    + destruct (rev (sort_by doc_less (coll w1))) as [|d ds] eqn:Erev.
      * left. inversion Hrun; subst. exists ErrNoDocuments. simpl.
        unfold next_fault in Ef. destruct (faults w); inversion Ef; subst; auto.
      * right.
        destruct (down_loop_fails _ _ _ _ _ _ _ _ Hrun)
          as (i & mig & prev & l & Nm & Np & Ev & Eo & En & Hlog').
        exists i, mig, prev, l. subst old. repeat split; assumption.
  - (* Reset *)
    intros Hrun.
    unfold migrator.Reset, bindM at 1, Find, query in Hrun.
    destruct (next_fault w) as [[e0|] w1]; simpl in Hcoll, Hlog.
    + left. inversion Hrun; subst. exists e0. simpl. now rewrite Hlog.
    + right. simpl in Hrun. rewrite Hcoll in Hrun. fold (history w) in Hrun.
      destruct (0 <? length (history w))%nat; [|discriminate Hrun].
      unfold bindM at 1, lift at 1 in Hrun.
      destruct (migrator.last_version _) as [version| |]; try discriminate Hrun.
      unfold bindM at 1, lift at 1 in Hrun.
      destruct (migrator.correlateMigrations _ _) as [[cs [e1|]]| |] eqn:Ecor;
        try discriminate Hrun; cbn [snd fst] in Hrun.
      * left. inversion Hrun; subst. exists cs. simpl.
        rewrite Hlog. now repeat split.
      * right. unfold bindM in Hrun.
        destruct (migrator.reset_loop cs version (length cs) _)
          as [w2 [[nv err]| |]] eqn:Eloop; try discriminate Hrun.
        simpl in Hrun. inversion Hrun; subst.
        destruct (reset_loop_fails _ _ _ _ _ _ _ Eloop)
          as (i & migr & l & Ni & Hnew & Hl).
        now exists cs, i, migr, l.
  - (* SetVersion *)
    intros target Hrun.
    unfold migrator.SetVersion, bindM at 1, migrator.Version, bindM at 1,
      FindOne_last, query in Hrun.
    destruct (next_fault w) as [[e0|] w1]; simpl in Hcoll, Hlog.
    + inversion Hrun; subst. split; [reflexivity|]. left. exists e0. simpl.
      now rewrite Hlog.
    + destruct (rev (sort_by doc_less (coll w1))) as [|d ds].
      * inversion Hrun; subst. split; [reflexivity|]. left.
        exists ErrNoDocuments. simpl. now rewrite Hlog.
      * simpl in Hrun.
        destruct (migrator.set_version_scan _ _ _ _) as [ix migs].
        destruct (ix =? -1).
        { inversion Hrun; subst. split; [reflexivity|]. right. left.
          simpl. now rewrite Hlog. }
        unfold bindM at 1, lift at 1 in Hrun.
        destruct (index _ _) as [found| |]; try discriminate Hrun.
        destruct (doc_version d =? migration.Version found);
          [discriminate Hrun|].
        unfold bindM at 1, Drop, write, next_fault, record in Hrun.
        cbn [faults base log] in Hrun.
        destruct (faults w1) as [|[e1|] fs1]; simpl in Hrun;
          try (inversion Hrun; subst; split; [reflexivity|];
               right; right; left; simpl; now eexists).
        -- unfold bindM at 1, InsertMany, write, next_fault in Hrun.
           simpl in Hrun. unfold bindM, lift in Hrun.
           destruct (index migs _) as [lst| |]; discriminate Hrun.
        -- unfold bindM at 1, InsertMany, write, next_fault in Hrun.
           simpl in Hrun.
           destruct fs1 as [|[e2|] fs2]; simpl in Hrun.
           ++ unfold bindM, lift in Hrun.
              destruct (index migs _) as [lst| |]; discriminate Hrun.
           ++ inversion Hrun; subst. split; [reflexivity|].
              right; right; right. simpl. now eexists _, _.
           ++ unfold bindM, lift in Hrun.
              destruct (index migs _) as [lst| |]; discriminate Hrun.
  - (* Init *)
    intros Hrun.
    unfold migrator.Init, bindM at 1, FindOne_version, query in Hrun.
    destruct (next_fault w) as [[e0|] w1]; simpl in Hcoll, Hlog.
    + destruct e0 as [s| |s];
        try (inversion Hrun; subst; split; [reflexivity|];
             split; [reflexivity|]; left; eexists; simpl; rewrite Hlog;
             split; [reflexivity|]; split; [reflexivity|discriminate]).
      unfold bindM, InsertOne, write, next_fault in Hrun. simpl in Hrun.
      destruct (faults w1) as [|[e1|] fs1]; simpl in Hrun;
        try discriminate Hrun.
      inversion Hrun; subst. split; [reflexivity|]. split; [reflexivity|].
      right; right. simpl. now eexists.
    + destruct (find _ (coll w1)) as [d|].
      * inversion Hrun; subst. split; [reflexivity|]. split; [reflexivity|].
        right; left. simpl. now rewrite Hlog.
      * unfold bindM, InsertOne, write, next_fault in Hrun. simpl in Hrun.
        destruct (faults w1) as [|[e1|] fs1]; simpl in Hrun;
          try discriminate Hrun.
        inversion Hrun; subst. split; [reflexivity|]. split; [reflexivity|].
        right; right. simpl. now eexists.
  - (* Version *)
    intros Hrun.
    unfold migrator.Version, bindM, FindOne_last, query in Hrun.
    destruct (next_fault w) as [[e0|] w1]; simpl in Hcoll, Hlog.
    + inversion Hrun; subst. split; [reflexivity|]. split; [reflexivity|].
      exists e0. simpl. now rewrite Hlog.
    + destruct (rev (sort_by doc_less (coll w1))) as [|d ds].
      * inversion Hrun; subst. split; [reflexivity|]. split; [reflexivity|].
        exists ErrNoDocuments. simpl. now rewrite Hlog.
      * discriminate Hrun.
Qed.

Lemma failing_step_version_witness :
  (exists name l,
      log (fst (migrator.Up (migrator.NewMigrator [sample.broken 1]) (-1)
                  (sample.world [sample.zero_doc])))
      = l ++ [(EvUp 1 name, Some (DriverError "boom"))] \/
      log (fst (migrator.Up (migrator.NewMigrator [sample.broken 1]) (-1)
                  (sample.world [sample.zero_doc])))
      = l ++ [(EvInsertOne {| doc_version := 1; doc_name := name |},
               Some (DriverError "boom"))]) /\
  (exists correlated i migr l,
      migrator.correlateMigrations
        (history (sample.world [sample.zero_doc; sample.doc 1; sample.doc 2]))
        (migrator.migrations
           (migrator.NewMigrator [sample.stuck 1; sample.known 2]))
      = Done (correlated, None) /\
      nth_error correlated i = Some migr /\
      ((i = 0%nat /\ 0 = migration.Version migr) \/
       (exists k prev, i = S k /\ nth_error correlated k = Some prev /\
                       0 = migration.Version prev)) /\
      (log (fst (migrator.Reset
                   (migrator.NewMigrator [sample.stuck 1; sample.known 2])
                   (sample.world [sample.zero_doc; sample.doc 1; sample.doc 2])))
       = l ++ [(EvDown (migration.Version migr) (migration.Name migr),
                Some (DriverError "boom"))] \/
       (0 < migration.Version migr /\
        log (fst (migrator.Reset
                    (migrator.NewMigrator [sample.stuck 1; sample.known 2])
                    (sample.world [sample.zero_doc; sample.doc 1; sample.doc 2])))
        = l ++ [(EvDeleteOne (migration.Version migr),
                 Some (DriverError "boom"))]))) /\
  (exists l,
      log (fst (migrator.SetVersion (migrator.NewMigrator [sample.known 1]) 1
                  {| base := base (sample.world [sample.zero_doc]);
                     faults := [None; Some (DriverError "boom")];
                     log := [] |}))
      = l ++ [(EvDrop, Some (DriverError "boom"))]).
Proof.
  split; [|split].
  - destruct (failing_step_version
                (migrator.NewMigrator [sample.broken 1])
                (sample.world [sample.zero_doc])
                (fst (migrator.Up (migrator.NewMigrator [sample.broken 1]) (-1)
                        (sample.world [sample.zero_doc])))
                0 1 (DriverError "boom")) as [HUp _].
    destruct (HUp (-1) eq_refl) as [(e0 & Hlog & _)|Hstep].
    + vm_compute in Hlog. discriminate Hlog.
    + exact Hstep.
  - destruct (failing_step_version
                (migrator.NewMigrator [sample.stuck 1; sample.known 2])
                (sample.world [sample.zero_doc; sample.doc 1; sample.doc 2])
                (fst (migrator.Reset
                        (migrator.NewMigrator [sample.stuck 1; sample.known 2])
                        (sample.world
                           [sample.zero_doc; sample.doc 1; sample.doc 2])))
                2 0 (DriverError "boom")) as (_ & _ & HReset & _).
    destruct (HReset eq_refl)
      as [(e0 & Hlog & _)|[(cs & Hcor & _)|Hstep]].
    + vm_compute in Hlog. discriminate Hlog.
    + vm_compute in Hcor. discriminate Hcor.
    + exact Hstep.
  - destruct (failing_step_version
                (migrator.NewMigrator [sample.known 1])
                {| base := base (sample.world [sample.zero_doc]);
                   faults := [None; Some (DriverError "boom")];
                   log := [] |}
                (fst (migrator.SetVersion
                        (migrator.NewMigrator [sample.known 1]) 1
                        {| base := base (sample.world [sample.zero_doc]);
                           faults := [None; Some (DriverError "boom")];
                           log := [] |}))
                0 0 (DriverError "boom")) as (_ & _ & _ & HSet & _).
    destruct (HSet 1 eq_refl)
      as (_ & [(e0 & Hlog & _)|[(Hbad & _)|[Hdrop|(l & ds & Hlog)]]]).
    + vm_compute in Hlog. discriminate Hlog.
    + discriminate Hbad.
    + exact Hdrop.
    + vm_compute in Hlog. exfalso.
      apply (f_equal (@rev _)) in Hlog. rewrite rev_app_distr in Hlog.
      simpl in Hlog. discriminate Hlog.
Defined.

(** C5, as stated, fails: when the apply body of migration 1 fails on a
    database at version 0, [Up] returns 1 as the new version, and the
    version that is persisted, the one that [Version] reads afterwards,
    is still 0. *)
Lemma Up_failure_newVersion :
  let m := migrator.NewMigrator [sample.broken 1] in
  let r := migrator.Up m (-1) (sample.world [sample.zero_doc]) in
  snd r = Done (0, 1, Some (DriverError "boom")) /\
  coll (fst r) = [sample.zero_doc] /\
  snd (migrator.Version (fst r)) = Done (0, 0, None) /\
  ~ (forall new v e,
        snd r = Done (0, new, Some e) ->
        snd (migrator.Version (fst r)) = Done (v, v, None) -> new = v).
Proof.
  repeat split.
  intros H. specialize (H 1 0 (DriverError "boom") eq_refl eq_refl).
  discriminate H.
Qed.

(** ** What [Up] does get right *)

Lemma last_version_total (history : list Migration) :
  exists v, migrator.last_version history = Done v.
Proof.
  unfold migrator.last_version.
  destruct (Nat.ltb_spec 0 (length history)) as [H|H]; [|now eexists].
  destruct (index_lt history (length history - 1)) as (h & -> & _); [lia|].
  now eexists.
Qed.

Lemma decoded_stored (docs : list Doc) :
  Forall (fun a => Stored a = true) (map migrator.decoded docs).
Proof. rewrite Forall_map. now apply Forall_forall. Qed.

(** With nothing pending, [Up] with no target reads the history and
    returns the current version twice. *)
Lemma Up_nothing_pending (m : migrator.Migrator) (w : World) :
  hd None (faults w) = None ->
  ascending (versions (migrator.migrations m)) ->
  covered (migrator.migrations m) (map migrator.decoded (coll w)) ->
  exists v,
    migrator.Up m (-1) w =
    ({| base := base w; faults := tl (faults w);
        log := log w ++ [(EvFind, None)] |}, Done (v, v, None)).
Proof.
  intros Hf Hasc Hcov.
  pose proof (sort_by_perm doc_less (coll w)) as HP.
  destruct (last_version_total (map migrator.decoded (sort_by doc_less (coll w))))
    as (v & Hv).
  destruct (merge_max_total (migrator.migrations m) (-1)) as (max & Hmax).
  exists v. unfold migrator.Up, bindM at 1, Find. rewrite (query_ok _ _ _ Hf).
  unfold bindM at 1, lift at 1. rewrite Hv.
  unfold bindM at 1, lift at 1.
  rewrite (merge_covered _ _ max) with (target := -1); try assumption.
  - unfold bindM. rewrite up_loop_stored; [reflexivity|].
    apply pending_stored, decoded_stored.
  - rewrite decoded_versions.
    apply (sort_by_nondecreasing doc_less doc_version doc_less_key).
  - intros b Hb. destruct (Hcov b Hb) as (c & Hc & E). exists c. split; [|exact E].
    apply in_map_iff in Hc as (d & <- & Hd). apply in_map.
    eapply Permutation_in; [symmetry; exact HP|exact Hd].
Qed.

Section MergeOrigin.
Variables applied actual : list Migration.
Variable max : Z.

Lemma merge_both_origin (fuel : nat) :
  forall (i j : nat) (merged : list Migration) r,
    migrator.merge_both fuel applied actual max i j merged = Done r ->
    Forall (merge_origin applied actual max) merged ->
    Forall (merge_origin applied actual max) (snd r).
Proof.
  induction fuel as [|fuel IH]; intros i j merged r Hrun Hm;
    rewrite merge_both_eq in Hrun;
    destruct (Nat.ltb_spec i (length applied)) as [Hi|Hi];
    destruct (Nat.ltb_spec j (length actual)) as [Hj|Hj];
    cbn [andb] in Hrun;
    try (inversion Hrun; subst; exact Hm);
    destruct (index_lt actual j Hj) as (aj & Ej & Nj);
    rewrite (below_max_in_range _ _ _ _ Nj) in Hrun; simpl bind in Hrun;
    (destruct (migration.Version aj <? max) eqn:Ego;
     [|inversion Hrun; subst; exact Hm]).
  - discriminate Hrun.
  - destruct (index_lt applied i Hi) as (ai & Ei & Ni).
    rewrite Ei, Ej in Hrun. simpl bind in Hrun.
    assert (Hai : merge_origin applied actual max ai)
      by (left; eapply nth_error_In, Ni).
    assert (Haj : merge_origin applied actual max aj).
    { right. split; [eapply nth_error_In, Nj|now apply Z.ltb_lt]. }
    destruct (Less ai aj).
    + apply (IH _ _ _ _ Hrun). apply Forall_app. split; [exact Hm|now constructor].
    + unfold index at 1 in Hrun.
      destruct (nth_error applied j) as [apj|]; [|discriminate Hrun].
      simpl bind in Hrun.
      destruct (Less aj apj); apply (IH _ _ _ _ Hrun); apply Forall_app;
        (split; [exact Hm|now constructor]).
Qed.

Lemma merge_actual_origin (fuel : nat) :
  forall (j : nat) (merged merged' : list Migration),
    migrator.merge_actual fuel actual max j merged = Done merged' ->
    Forall (merge_origin applied actual max) merged ->
    Forall (merge_origin applied actual max) merged'.
Proof.
  induction fuel as [|fuel IH]; intros j merged merged' Hrun Hm;
    rewrite merge_actual_eq in Hrun;
    destruct (Nat.ltb_spec j (length actual)) as [Hj|Hj];
    try (inversion Hrun; subst; exact Hm);
    destruct (index_lt actual j Hj) as (aj & Ej & Nj);
    rewrite (below_max_in_range _ _ _ _ Nj) in Hrun; simpl bind in Hrun;
    (destruct (migration.Version aj <? max) eqn:Ego;
     [|inversion Hrun; subst; exact Hm]).
  - discriminate Hrun.
  - rewrite Ej in Hrun. simpl bind in Hrun.
    apply (IH _ _ _ Hrun). apply Forall_app. split; [exact Hm|].
    constructor; [|constructor].
    right. split; [eapply nth_error_In, Nj|now apply Z.ltb_lt].
Qed.

End MergeOrigin.

(** Every item of a merge result is an item of the history or a known
    migration below the bound. *)
Lemma mergeMigrations_origin (applied actual : list Migration)
    (target max : Z) (merged : list Migration) :
  migrator.merge_max actual target = Done max ->
  migrator.mergeMigrations applied actual target = Done merged ->
  Forall (merge_origin applied actual max) merged.
Proof.
  intros Hmax Hrun. unfold migrator.mergeMigrations in Hrun.
  rewrite Hmax in Hrun. simpl bind in Hrun.
  destruct (migrator.merge_both _ applied actual max 0 0 [])
    as [[[i j] both]| |] eqn:Eboth; try discriminate Hrun.
  simpl bind in Hrun. rewrite merge_applied_ok in Hrun by lia.
  simpl bind in Hrun.
  apply (merge_actual_origin applied actual max _ _ _ _ Hrun).
  apply Forall_app. split.
  - apply (merge_both_origin applied actual max _ _ _ _ _ Eboth). constructor.
  - apply Forall_forall. intros x Hx. left.
    apply (In_nth_error) in Hx as (k & Nk). rewrite nth_error_skipn in Nk.
    eapply nth_error_In, Nk.
Qed.

Lemma wrap64_succ (t : Z) : - 2 ^ 63 <= t < 2 ^ 63 - 1 -> add64 t 1 = t + 1.
Proof.
  intros H. unfold add64, wrap64.
  rewrite Z.mod_small; lia.
Qed.

(** The bound of the merge: with a target, every non-stored item of the
    result is a known migration of version at most the target. *)
Lemma mergeMigrations_bound (applied actual : list Migration) (target : Z)
    (merged : list Migration) :
  migrator.mergeMigrations applied actual target = Done merged ->
  Forall (fun a => Stored a = true) applied ->
  target <> -1 -> - 2 ^ 63 <= target < 2 ^ 63 - 1 ->
  Forall (fun x => In x actual /\ migration.Version x <= target) (pending merged).
Proof.
  intros Hrun Hstored Hno Hrange.
  destruct (merge_max_total actual target) as (max & Hmax).
  pose proof (mergeMigrations_origin _ _ _ _ _ Hmax Hrun) as Horigin.
  rewrite Forall_forall in *. intros x Hx.
  apply filter_In in Hx as [Hx Hpend].
  destruct (Horigin x Hx) as [Happ|[Hact Hlt]].
  - rewrite (Hstored x Happ) in Hpend. discriminate Hpend.
  - split; [exact Hact|].
    unfold migrator.merge_max in Hmax.
    destruct (0 <? length actual)%nat eqn:Elen.
    + destruct (Z.eqb_spec target (-1)) as [E|_]; [contradiction|].
      inversion Hmax; subst. rewrite wrap64_succ in Hlt by exact Hrange. lia.
    + apply Nat.ltb_ge in Elen. destruct actual; [destruct Hact|simpl in Elen; lia].
Qed.

(** The loop of [Up] invokes the apply bodies of non-stored items only. *)
Lemma up_loop_applies (merged : list Migration) :
  forall (nv : Z) (w w' : World) r,
    migrator.up_loop merged nv w = (w', r) ->
    exists l,
      log w' = log w ++ l /\
      forall v name res,
        In (EvUp v name, res) l ->
        exists x, In x (pending merged) /\ migration.Version x = v.
Proof.
  induction merged as [|migr rest IH]; intros nv w w' r Hrun; simpl in Hrun.
  - inversion Hrun; subst. exists []. rewrite app_nil_r. split; [reflexivity|].
    intros ? ? ? [].
  - unfold pending. simpl filter.
    destruct (Stored migr); simpl in Hrun |- *; [now apply (IH _ _ _ _ Hrun)|].
    unfold bindM at 1, migrator.call in Hrun.
    destruct (migration.Up migr) as [body|].
    2: { inversion Hrun; subst. exists []. rewrite app_nil_r.
         split; [reflexivity|]. intros ? ? ? []. }
    destruct (body (base w)) as [db' [e'|]].
    + inversion Hrun; subst. simpl. eexists. split; [reflexivity|].
      intros v name res [Hin|[]]. inversion Hin; subst.
      exists migr. split; [now left|reflexivity].
    + unfold bindM at 1, InsertOne, write, next_fault in Hrun. simpl in Hrun.
      destruct (faults w) as [|[e'|] fs]; simpl in Hrun.
      * destruct (IH _ _ _ _ Hrun) as (l & Hl & Hin). simpl in Hl.
        eexists. rewrite Hl, <- !app_assoc. split; [reflexivity|].
        simpl. intros v name res [Hv|[Hv|Hv]].
        -- inversion Hv; subst. exists migr. split; [now left|reflexivity].
        -- discriminate Hv.
        -- destruct (Hin _ _ _ Hv) as (x & Hx & E). exists x. split; [now right|exact E].
      * inversion Hrun; subst. simpl. eexists. rewrite <- !app_assoc.
        split; [reflexivity|]. simpl. intros v name res [Hv|[Hv|[]]].
        -- inversion Hv; subst. exists migr. split; [now left|reflexivity].
        -- discriminate Hv.
      * destruct (IH _ _ _ _ Hrun) as (l & Hl & Hin). simpl in Hl.
        eexists. rewrite Hl, <- !app_assoc. split; [reflexivity|].
        simpl. intros v name res [Hv|[Hv|Hv]].
        -- inversion Hv; subst. exists migr. split; [now left|reflexivity].
        -- discriminate Hv.
        -- destruct (Hin _ _ _ Hv) as (x & Hx & E). exists x. split; [now right|exact E].
Qed.

(** The part of C1 that the code keeps: [Up] with a target [T] invokes no
    apply body of a version above [T], whatever the history and whether it
    returns or panics. *)
Lemma Up_bound (m : migrator.Migrator) (target : Z) (w w' : World) r :
  migrator.Up m target w = (w', r) ->
  target <> -1 -> - 2 ^ 63 <= target < 2 ^ 63 - 1 ->
  exists l,
    log w' = log w ++ l /\
    forall v name res, In (EvUp v name, res) l -> v <= target.
Proof.
  intros Hrun Hno Hrange.
  unfold migrator.Up, bindM at 1, Find, query in Hrun.
  destruct (next_fault w) as [f w1] eqn:Ef.
  assert (Hlog1 : log w1 = log w).
  { unfold next_fault in Ef. destruct (faults w); inversion Ef; reflexivity. }
  destruct f as [e0|].
  - inversion Hrun; subst. simpl. rewrite Hlog1. eexists. split; [reflexivity|].
    intros v name res [Hv|[]]. discriminate Hv.
  - simpl in Hrun. set (w2 := record EvFind None w1) in Hrun.
    assert (Hlog2 : log w2 = log w ++ [(EvFind, None)])
      by (subst w2; simpl; now rewrite Hlog1).
    assert (Hnone : forall v name res,
               In (EvUp v name, res) [(EvFind, @None error)] -> v <= target).
    { intros v name res [Hv|[]]. discriminate Hv. }
    unfold bindM at 1, lift at 1 in Hrun.
    destruct (migrator.last_version _) as [version| |];
      try (inversion Hrun; subst; exists [(EvFind, None)]; now split).
    unfold bindM at 1, lift at 1 in Hrun.
    destruct (migrator.mergeMigrations _ _ _) as [merged| |] eqn:Emerge;
      try (inversion Hrun; subst; exists [(EvFind, None)]; now split).
    pose proof (mergeMigrations_bound _ _ _ _ Emerge (decoded_stored _) Hno Hrange)
      as Hbound.
    unfold bindM in Hrun.
    destruct (migrator.up_loop merged version w2) as [w3 r3] eqn:Eloop.
    destruct (up_loop_applies _ _ _ _ _ Eloop) as (l & Hl & Hin).
    assert (w' = w3) as -> by (destruct r3; now inversion Hrun).
    exists ((EvFind, None) :: l). rewrite Hl, Hlog2, <- app_assoc.
    split; [reflexivity|].
    intros v name res [Hv|Hv]; [discriminate Hv|].
    destruct (Hin _ _ _ Hv) as (x & Hx & <-).
    rewrite Forall_forall in Hbound. now apply Hbound.
Qed.

(** ** [Up] on a history that is a prefix of the known set *)

Lemma prefix_nth (applied actual : list Migration) (i : nat) (ai : Migration) :
  prefix_of applied actual -> nth_error applied i = Some ai ->
  exists aj, nth_error actual i = Some aj /\
             migration.Version aj = migration.Version ai.
Proof.
  intros [rest Hrest] Ni.
  assert (Hv : nth_error (versions actual) i = Some (migration.Version ai)).
  { rewrite Hrest, nth_error_app1.
    - now apply map_nth_error.
    - unfold versions. rewrite length_map. apply nth_error_Some. congruence. }
  unfold versions in Hv. rewrite nth_error_map in Hv.
  destruct (nth_error actual i) as [aj|]; [|discriminate Hv].
  exists aj. split; [reflexivity|]. now inversion Hv.
Qed.

Lemma prefix_length (applied actual : list Migration) :
  prefix_of applied actual -> (length applied <= length actual)%nat.
Proof.
  intros [rest Hrest]. apply (f_equal (@length Z)) in Hrest.
  unfold versions in Hrest. rewrite length_app, !length_map in Hrest. lia.
Qed.

Lemma ascending_above (actual : list Migration) (j : nat) (aj : Migration) :
  ascending (versions actual) -> nth_error actual j = Some aj ->
  forall x, In x (skipn (S j) actual) ->
            migration.Version aj < migration.Version x.
Proof.
  intros Hs Nj.
  apply (sorted_keys migration.Version Z.lt) in Hs.
  apply (StronglySorted_skipn _ _ j) in Hs.
  rewrite (skipn_nth_error _ _ _ Nj) in Hs.
  remember (skipn (S j) actual) as rest eqn:Erest.
  inversion Hs as [|? ? _ Hall]; subst.
  now rewrite Forall_forall in Hall.
Qed.

Lemma below_none (actual : list Migration) (max : Z) (j k : nat) (aj : Migration) :
  ascending (versions actual) -> nth_error actual j = Some aj ->
  max <= migration.Version aj -> (j <= k)%nat ->
  below max (skipn k actual) = [].
Proof.
  intros Hs Nj Hmax Hjk. apply filter_none. intros x Hx. apply Z.ltb_ge.
  destruct (Nat.eq_dec j k) as [<-|Hne].
  - rewrite (skipn_nth_error _ _ _ Nj) in Hx. destruct Hx as [<-|Hx]; [exact Hmax|].
    pose proof (ascending_above _ _ _ Hs Nj x Hx). lia.
  - assert (Hx' : In x (skipn (S j) actual)).
    { apply In_nth_error in Hx as (n & Nn). rewrite nth_error_skipn in Nn.
      apply (nth_error_In _ (k + n - S j)). rewrite nth_error_skipn.
      now replace (S j + (k + n - S j))%nat with (k + n)%nat by lia. }
    pose proof (ascending_above _ _ _ Hs Nj x Hx'). lia.
Qed.

(** The third loop appends the known migrations below the bound. *)
Lemma merge_actual_below (actual : list Migration) (max : Z) :
  ascending (versions actual) ->
  forall (fuel j : nat) (merged : list Migration),
    (length actual - j <= fuel)%nat ->
    migrator.merge_actual fuel actual max j merged
    = Done (merged ++ below max (skipn j actual)).
Proof.
  intros Hs. induction fuel as [|fuel IH]; intros j merged Hfuel;
    rewrite merge_actual_eq;
    destruct (Nat.ltb_spec j (length actual)) as [Hj|Hj];
    try (rewrite skipn_all_nil by lia; simpl; now rewrite app_nil_r);
    destruct (index_lt actual j Hj) as (aj & Ej & Nj);
    rewrite (below_max_in_range _ _ _ _ Nj); simpl bind;
    (destruct (Z.ltb_spec (migration.Version aj) max) as [Hlt|Hge];
     [|rewrite (below_none actual max j j aj Hs Nj Hge) by lia;
       now rewrite app_nil_r]).
  - lia.
  - rewrite Ej. simpl bind. rewrite IH by lia.
    rewrite (skipn_nth_error _ _ _ Nj). unfold below at 2. simpl filter.
    destruct (Z.ltb_spec (migration.Version aj) max); [|lia].
    now rewrite <- app_assoc.
Qed.

Section MergePrefix.
Variables applied actual : list Migration.
Variable max : Z.
Hypothesis history_prefix : prefix_of applied actual.

Lemma merge_both_prefix (fuel : nat) :
  forall (i : nat) (merged : list Migration),
    (i <= length applied)%nat ->
    (length applied - i + (length actual - i) <= fuel)%nat ->
    exists i',
      migrator.merge_both fuel applied actual max i i merged
      = Done (i', i', merged ++ firstn (i' - i) (skipn i applied)) /\
      (i <= i' <= length applied)%nat /\
      (i' = length applied \/
       exists aj, nth_error actual i' = Some aj /\
                  max <= migration.Version aj).
Proof.
  pose proof (prefix_length _ _ history_prefix) as Hlen.
  induction fuel as [|fuel IH]; intros i merged Hil Hfuel;
    rewrite merge_both_eq;
    destruct (Nat.ltb_spec i (length applied)) as [Hi|Hi];
    try (exists i; rewrite Nat.sub_diag, app_nil_r;
         split; [reflexivity|]; split; [lia|]; left; lia);
    (destruct (Nat.ltb_spec i (length actual)) as [Hj|Hj]; [|lia]);
    cbn [andb];
    destruct (index_lt applied i Hi) as (ai & Ei & Ni);
    destruct (prefix_nth _ _ _ _ history_prefix Ni) as (aj & Nj & Ev);
    rewrite (below_max_in_range _ _ _ _ Nj); simpl bind;
    (destruct (Z.ltb_spec (migration.Version aj) max) as [Hlt|Hge];
     [|exists i; rewrite Nat.sub_diag, app_nil_r;
       split; [reflexivity|]; split; [lia|]; right; now exists aj]).
  - lia.
  - rewrite Ei, (index_Done _ _ _ Nj). simpl bind. rewrite !Less_key.
    destruct (Z.ltb_spec (migration.Version ai) (migration.Version aj)); [lia|].
    destruct (Z.ltb_spec (migration.Version aj) (migration.Version ai)); [lia|].
    destruct (IH (S i) (merged ++ [ai])) as (i' & Hrun & Hi' & Hstop); [lia|lia|].
    exists i'. rewrite Hrun. split; [|split; [lia|exact Hstop]].
    rewrite (skipn_nth_error _ _ _ Ni).
    replace (i' - i)%nat with (S (i' - S i)) by lia.
    rewrite firstn_cons, <- app_assoc. reflexivity.
Qed.

(** On a history that holds the first known versions, the merge is the
    history followed by the known migrations after it that are below
    the bound. *)
Lemma merge_prefix (target : Z) :
  ascending (versions actual) ->
  migrator.merge_max actual target = Done max ->
  migrator.mergeMigrations applied actual target
  = Done (applied ++ below max (skipn (length applied) actual)).
Proof.
  intros Hs Hmax. unfold migrator.mergeMigrations. rewrite Hmax. simpl bind.
  destruct (merge_both_prefix (length applied + length actual) 0 [])
    as (i' & Hrun & Hi' & Hstop); [lia|lia|].
  rewrite Hrun. simpl bind. rewrite merge_applied_ok by lia. simpl bind.
  rewrite merge_actual_below by (exact Hs || lia).
  simpl. rewrite Nat.sub_0_r, firstn_skipn. f_equal. f_equal.
  destruct Hstop as [->|(aj & Nj & Hge)]; [reflexivity|].
  rewrite (below_none actual max i' i' aj) by (assumption || lia).
  rewrite (below_none actual max i' (length applied) aj) by (assumption || lia).
  reflexivity.
Qed.

End MergePrefix.

Lemma last_cons_default {A : Type} (l : list A) (a d : A) :
  last (a :: l) d = last l a.
Proof.
  revert a d. induction l as [|b l IH]; intros a d; [reflexivity|].
  change (last (a :: b :: l) d) with (last (b :: l) d).
  now rewrite (IH b d), (IH b a).
Qed.

Lemma call_Up_ok (k : Migration) (ev : Event) (w : World) :
  applies_cleanly k ->
  exists w',
    migrator.call (migration.Up k) ev w = (w', Done None) /\
    coll w' = coll w /\ faults w' = faults w /\ log w' = log w ++ [(ev, None)].
Proof.
  intros (body & E & Hbody). unfold migrator.call. rewrite E.
  destruct (Hbody (base w)) as [Hr Hc].
  destruct (body (base w)) as [db' r]. simpl in *. subst r.
  eexists. split; [reflexivity|]. unfold coll. simpl. auto.
Qed.

Lemma up_loop_skips (applied rest : list Migration) (nv : Z) (w : World) :
  Forall (fun a => Stored a = true) applied ->
  migrator.up_loop (applied ++ rest) nv w = migrator.up_loop rest nv w.
Proof.
  induction 1 as [|a applied Ha _ IH]; simpl; [reflexivity|].
  now rewrite Ha.
Qed.

(** The loop of [Up] over pending migrations whose bodies succeed. *)
Lemma up_loop_ok (new : list Migration) :
  Forall applies_cleanly new ->
  Forall (fun x => Stored x = false) new ->
  forall (nv : Z) (w : World),
    no_faults w ->
    exists w',
      migrator.up_loop new nv w = (w', Done (last (versions new) nv, None)) /\
      coll w' = coll w ++ map migrator.encoded new /\
      log w' = log w ++ flat_map up_events new /\
      no_faults w'.
Proof.
  induction new as [|x new IH]; intros Hclean Hpend nv w Hnf.
  - exists w. simpl. rewrite !app_nil_r. auto.
  - inversion Hclean as [|? ? Hx Hclean']; inversion Hpend as [|? ? Hs Hpend']; subst.
    cbn [migrator.up_loop]. rewrite Hs. cbn [negb].
    destruct (call_Up_ok x (EvUp (migration.Version x) (migration.Name x)) w Hx)
      as (w1 & Hcall & Hc1 & Hf1 & Hl1).
    unfold bindM at 1. rewrite Hcall.
    assert (Hnf1 : no_faults w1) by (unfold no_faults; now rewrite Hf1).
    unfold bindM at 1, InsertOne. rewrite (write_ok _ _ _ (no_faults_hd _ Hnf1)).
    set (w2 := {| base := _ |}).
    destruct (IH Hclean' Hpend' (migration.Version x) w2)
      as (w' & Hrun & Hc & Hl & Hnf'); [now apply no_faults_tl|].
    exists w'. rewrite Hrun. split; [|split; [|split]].
    + unfold versions. simpl map. now rewrite last_cons_default.
    + rewrite Hc. subst w2. unfold coll at 1. simpl. rewrite Hc1.
      now rewrite <- app_assoc.
    + rewrite Hl. subst w2. simpl. rewrite Hl1, <- !app_assoc. reflexivity.
    + exact Hnf'.
Qed.

(** The normal course of [Up]: on a history that holds the first known
    versions, and with bodies that succeed, [Up] applies and records, in
    ascending order and once each, exactly the known migrations after the
    history that are below the bound. *)
Lemma Up_prefix (m : migrator.Migrator) (target max : Z) (w : World) :
  no_faults w ->
  ascending (versions (migrator.migrations m)) ->
  prefix_of (map migrator.decoded (sort_by doc_less (coll w)))
            (migrator.migrations m) ->
  Forall applies_cleanly (migrator.migrations m) ->
  Forall (fun x => Stored x = false) (migrator.migrations m) ->
  migrator.merge_max (migrator.migrations m) target = Done max ->
  exists w' old,
    migrator.Up m target w
    = (w', Done (old,
                 last (versions (below max (skipn (length (coll w))
                                               (migrator.migrations m)))) old,
                 None)) /\
    migrator.last_version (map migrator.decoded (sort_by doc_less (coll w)))
    = Done old /\
    coll w' = coll w ++
              map migrator.encoded
                (below max (skipn (length (coll w)) (migrator.migrations m))) /\
    log w' = log w ++ (EvFind, None) ::
             flat_map up_events
               (below max (skipn (length (coll w)) (migrator.migrations m))) /\
    no_faults w'.
Proof.
  intros Hnf Hasc Hprefix Hclean Hpend Hmax.
  set (history := map migrator.decoded (sort_by doc_less (coll w))) in *.
  assert (Hlen : length history = length (coll w)).
  { subst history. rewrite length_map.
    apply Permutation_length, sort_by_perm. }
  destruct (last_version_total history) as (old & Hold).
  set (new := below max (skipn (length (coll w)) (migrator.migrations m))).
  set (w1 := {| base := base w; faults := tl (faults w);
                log := log w ++ [(EvFind, None)] |}).
  assert (Hnew : Forall applies_cleanly new /\ Forall (fun x => Stored x = false) new).
  { rewrite !Forall_forall in *. split; intros x Hx;
      apply filter_In in Hx as [Hx _];
      apply In_nth_error in Hx as (n & Nn); rewrite nth_error_skipn in Nn;
      [apply Hclean|apply Hpend]; eapply nth_error_In, Nn. }
  destruct Hnew as [Hclean' Hpend'].
  destruct (up_loop_ok new Hclean' Hpend' old w1) as (w' & Hrun & Hc & Hl & Hnf');
    [now apply no_faults_tl|].
  exists w', old. split; [|split; [exact Hold|split; [|split]]].
  - unfold migrator.Up, bindM at 1, Find.
    rewrite (query_ok _ _ _ (no_faults_hd _ Hnf)). fold history.
    unfold bindM at 1, lift at 1. rewrite Hold.
    unfold bindM at 1, lift at 1.
    rewrite (merge_prefix history _ max Hprefix target Hasc Hmax), Hlen.
    fold new. unfold bindM. fold w1.
    rewrite up_loop_skips by (subst history; apply decoded_stored).
    rewrite Hrun. reflexivity.
  - rewrite Hc. reflexivity.
  - rewrite Hl. subst w1. simpl. now rewrite <- app_assoc.
  - exact Hnf'.
Qed.

Lemma ascending_nondecreasing (vs : list Z) : ascending vs -> nondecreasing vs.
Proof.
  induction 1 as [|v vs _ IH Hv]; constructor; [exact IH|].
  eapply Forall_impl; [|exact Hv]. intros; simpl in *; lia.
Qed.

Lemma ascending_NoDup (vs : list Z) : ascending vs -> NoDup vs.
Proof.
  induction 1 as [|v vs _ IH Hv]; constructor; [|exact IH].
  intros Hin. rewrite Forall_forall in Hv. specialize (Hv _ Hin). lia.
Qed.

Lemma last_max (vs : list Z) (d : Z) :
  nondecreasing (d :: vs) -> Forall (fun x => x <= last vs d) (d :: vs).
Proof.
  revert d. induction vs as [|a vs IH]; intros d Hs.
  - repeat constructor. simpl. lia.
  - inversion Hs as [|? ? Hs' Hd]; subst.
    rewrite last_cons_default. specialize (IH a Hs').
    constructor; [|exact IH].
    inversion Hd; subst. inversion IH; subst. lia.
Qed.

Lemma last_In (vs : list Z) (d : Z) : In (last vs d) (d :: vs).
Proof.
  revert d. induction vs as [|a vs IH]; intros d; [now left|].
  rewrite last_cons_default. right. apply IH.
Qed.

Lemma current_version_unique (w : World) (a b : Z) :
  current_version w a -> current_version w b -> a = b.
Proof.
  intros [Ha Hamax] [Hb Hbmax]. rewrite Forall_forall in Hamax, Hbmax.
  specialize (Hamax _ Hb). specialize (Hbmax _ Ha). lia.
Qed.

Lemma last_nth (z : Migration) (rest : list Migration) :
  exists lst,
    nth_error (z :: rest) (length (z :: rest) - 1) = Some lst /\
    migration.Version lst = last (versions rest) (migration.Version z).
Proof.
  revert z. induction rest as [|a l IH]; intros z.
  - exists z. split; reflexivity.
  - destruct (IH a) as (lst & Nl & El). exists lst. split.
    + simpl length in Nl |- *.
      replace (S (length l) - 1)%nat with (length l) in Nl by lia.
      replace (S (S (length l)) - 1)%nat with (S (length l)) by lia.
      exact Nl.
    + unfold versions. simpl map. rewrite last_cons_default. exact El.
Qed.

Lemma zeroMigration_applies_cleanly : applies_cleanly migrator.zeroMigration.
Proof. eexists. split; [reflexivity|]. intros db. split; reflexivity. Qed.

Lemma encoded_versions (ms : list Migration) :
  doc_versions (map migrator.encoded ms) = versions ms.
Proof. unfold doc_versions, versions. rewrite map_map. reflexivity. Qed.

(** From the state that [Init] leaves, [Up] with no target applies the
    whole known set in ascending order, and [Reset] then takes the
    database back to the zero record alone.  The caller declares distinct,
    positive versions below the largest [int64]; the driver does not fail
    and the bodies succeed without touching the [migrations] collection. *)
Lemma Up_then_Reset (ms : list Migration) (w : World) (d0 : Doc) :
  let m := migrator.NewMigrator ms in
  no_faults w -> coll w = [d0] -> doc_version d0 = 0 ->
  NoDup (versions ms) ->
  Forall (fun x => 0 < migration.Version x < 2 ^ 63 - 1) ms ->
  Forall applies_cleanly ms -> Forall reverts_cleanly ms ->
  Forall (fun x => Stored x = false) ms ->
  exists w1 w2 top,
    migrator.Up m (-1) w = (w1, Done (0, top, None)) /\
    doc_versions (coll w1) = versions (migrator.migrations m) /\
    log w1 = log w ++ (EvFind, None) ::
             flat_map up_events (skipn 1 (migrator.migrations m)) /\
    migrator.Reset m w1 = (w2, Done (top, 0, None)) /\
    coll w2 = [d0].
Proof.
  intros m Hnf Hcoll Hzero Hnd Hrange Hup Hdown Hpend.
  assert (Hpos : Forall (fun x => 0 < migration.Version x) ms).
  { eapply Forall_impl; [|exact Hrange]. intros; simpl in *; lia. }
  pose proof (NewMigrator_ascending ms (NoDup_with_zero ms Hnd Hpos)) as Hasc.
  pose proof (NewMigrator_head ms Hasc Hpos) as Hhd.
  pose proof (NewMigrator_perm ms) as HP. fold m in Hasc, Hhd, HP.
  destruct (migrator.migrations m) as [|z rest] eqn:Eknown; [discriminate Hhd|].
  simpl in Hhd. inversion Hhd; subst z. clear Hhd.
  (* every known migration has well-behaved bodies and a small version *)
  assert (Hall : forall P : Migration -> Prop,
             P migrator.zeroMigration -> Forall P ms ->
             Forall P (migrator.zeroMigration :: rest)).
  { intros P Pz Pms. eapply Permutation_Forall; [symmetry; exact HP|].
    apply Forall_app. split; [exact Pms|now constructor]. }
  pose proof (Hall _ zeroMigration_applies_cleanly Hup) as Hup'.
  pose proof (Hall _ zeroMigration_reverts_cleanly Hdown) as Hdown'.
  pose proof (Hall _ eq_refl Hpend) as Hpend'.
  assert (Hrange' : Forall (fun x => 0 <= migration.Version x < 2 ^ 63 - 1)
                      (migrator.zeroMigration :: rest)).
  { apply Hall; [simpl; lia|].
    eapply Forall_impl; [|exact Hrange]. intros; simpl in *; lia. }
  (* the bound of the merge is above every known version *)
  set (top := last (versions rest) 0).
  assert (Htop : Forall (fun x => x <= top) (0 :: versions rest)).
  { apply last_max. now apply ascending_nondecreasing. }
  assert (Hmax : migrator.merge_max (migrator.zeroMigration :: rest) (-1)
                 = Done (top + 1)).
  { unfold migrator.merge_max. simpl Nat.ltb. cbv iota. simpl Z.eqb. cbv iota.
    destruct (last_nth migrator.zeroMigration rest) as (lst & Nl & El).
    change (last (versions rest) (migration.Version migrator.zeroMigration))
      with top in El.
    rewrite (index_Done _ _ _ Nl). simpl bind. rewrite El, wrap64_succ; [reflexivity|].
    rewrite Forall_forall in Hrange'.
    specialize (Hrange' lst (nth_error_In _ _ Nl)). lia. }
  assert (Hbelow : below (top + 1) rest = rest).
  { apply filter_all. intros x Hx. apply Z.ltb_lt.
    rewrite Forall_forall in Htop.
    specialize (Htop (migration.Version x)
                  (or_intror (in_map migration.Version _ _ Hx))). lia. }
  destruct (Up_prefix m (-1) (top + 1) w Hnf) as (w1 & old & Hrun & Hold & Hc1 & Hl1 & Hnf1);
    try (rewrite Eknown; assumption).
  { rewrite Eknown, Hcoll. simpl. exists (versions rest).
    unfold versions. simpl. now rewrite Hzero. }
  rewrite Eknown, Hcoll in Hrun, Hc1, Hl1. simpl skipn in Hrun, Hc1, Hl1.
  rewrite Hbelow in Hrun, Hc1, Hl1.
  rewrite Hcoll in Hold. unfold migrator.last_version, index in Hold.
  simpl in Hold. rewrite Hzero in Hold.
  inversion Hold; subst old. fold top in Hrun.
  assert (Hvs : doc_versions (coll w1) = versions (migrator.zeroMigration :: rest)).
  { rewrite Hc1. unfold doc_versions. rewrite map_app. simpl.
    fold (doc_versions (map migrator.encoded rest)).
    now rewrite Hzero, encoded_versions. }
  destruct (Reset_all_sorted m w1 d0)
    as (w2 & old' & cs & Hreset & Hold' & _ & _ & Hc2 & _);
    try (rewrite Eknown); try assumption.
  - now apply ascending_nondecreasing.
  - rewrite Hvs. now apply ascending_NoDup.
  - rewrite Hc1. now left.
  - apply Forall_forall. intros d Hd.
    assert (Hv : In (doc_version d) (versions (migrator.zeroMigration :: rest)))
      by (rewrite <- Hvs; now apply in_map).
    apply in_map_iff in Hv as (k & <- & Hk).
    rewrite Forall_forall in Hrange'. specialize (Hrange' k Hk). lia.
  - intros a Ha. apply in_map_iff in Ha as (d & <- & Hd).
    assert (Hv : In (doc_version d) (versions (migrator.zeroMigration :: rest)))
      by (rewrite <- Hvs; now apply in_map).
    apply in_map_iff in Hv as (k & Ek & Hk). now exists k.
  - assert (old' = top) as ->.
    { apply (current_version_unique w1); [exact Hold'|].
      unfold current_version. rewrite Hvs. split; [apply last_In|exact Htop]. }
    exists w1, w2, top. repeat split; assumption.
Qed.

(** * Further properties of the code *)

(** ** The comparison rules of migration.go *)


(** X2: [Eq] compares the version of the receiver with itself: it holds
    for every pair of migrations, whatever their versions. *)
Theorem Eq_holds_always (a b : Migration) : migration.Eq a b = true.
Proof. unfold migration.Eq. apply Z.eqb_refl. Qed.

(** ** [Migrations] as a [sort.Interface] *)

Lemma store_length (s : list Migration) (i : nat) (x : Migration) :
  length (store s i x) = length s.
Proof.
  revert i. induction s as [|y s IH]; intros [|i]; simpl; [reflexivity..|].
  now rewrite IH.
Qed.

Lemma store_same (s : list Migration) (i : nat) (x : Migration) :
  (i < length s)%nat -> nth_error (store s i x) i = Some x.
Proof.
  revert i. induction s as [|y s IH]; intros [|i] H; simpl in *; try lia;
    [reflexivity|]. apply IH. lia.
Qed.

Lemma store_other (s : list Migration) (i k : nat) (x : Migration) :
  k <> i -> nth_error (store s i x) k = nth_error s k.
Proof.
  revert i k. induction s as [|y s IH]; intros [|i] [|k] H; simpl;
    try reflexivity; try contradiction.
  apply IH. congruence.
Qed.

(** Putting [x] where [y] was exchanges the two. *)
Lemma store_perm (s : list Migration) (j : nat) (x y : Migration) :
  nth_error s j = Some y -> Permutation (y :: store s j x) (x :: s).
Proof.
  revert j. induction s as [|z s IH]; intros [|j] H; simpl in *;
    try discriminate.
  - inversion H; subst. apply perm_swap.
  - etransitivity; [apply perm_swap|].
    etransitivity; [apply perm_skip, IH, H|]. apply perm_swap.
Qed.

Lemma Swap_perm (ms : list Migration) :
  forall (i j : nat) (mi mj : Migration),
    nth_error ms i = Some mi -> nth_error ms j = Some mj ->
    Permutation (store (store ms i mj) j mi) ms.
Proof.
  induction ms as [|x ms IH]; intros [|i] [|j] mi mj Hi Hj; simpl in *;
    try discriminate.
  - inversion Hi; inversion Hj; subst. reflexivity.
  - inversion Hi; subst. now apply store_perm.
  - inversion Hj; subst. now apply store_perm.
  - apply perm_skip. now apply (IH i j mi mj).
Qed.

(** X3: [Swap] on two indices of the slice exchanges the two elements and
    leaves the others, the length and the contents as a multiset alone,
    and a second [Swap] of the same indices restores the slice; with an
    index out of range it panics. *)
Theorem Migrations_Swap_exchanges (ms : list Migration) (i j : nat) :
  ((i < length ms)%nat -> (j < length ms)%nat ->
   exists ms',
     Migrations.Swap ms i j = Done ms' /\
     nth_error ms' i = nth_error ms j /\
     nth_error ms' j = nth_error ms i /\
     (forall k, k <> i -> k <> j -> nth_error ms' k = nth_error ms k) /\
     length ms' = length ms /\
     Permutation ms' ms /\
     Migrations.Swap ms' i j = Done ms) /\
  ((length ms <= i)%nat \/ (length ms <= j)%nat ->
   Migrations.Swap ms i j = Panic).
Proof.
  split.
  - intros Hi Hj.
    destruct (index_lt ms i Hi) as (mi & Ei & Ni).
    destruct (index_lt ms j Hj) as (mj & Ej & Nj).
    exists (store (store ms i mj) j mi).
    assert (Hi' : nth_error (store (store ms i mj) j mi) i = Some mj).
    { destruct (Nat.eq_dec i j) as [->|Hne].
      - rewrite store_same by (rewrite store_length; lia). congruence.
      - rewrite store_other by exact Hne. now apply store_same. }
    assert (Hj' : nth_error (store (store ms i mj) j mi) j = Some mi).
    { apply store_same. now rewrite store_length. }
    unfold Migrations.Swap. rewrite Ei, Ej. simpl bind.
    split; [reflexivity|]. split; [congruence|]. split; [congruence|].
    split; [|split; [|split]].
    + intros k Hki Hkj. now rewrite !store_other by assumption.
    + now rewrite !store_length.
    + now apply (Swap_perm ms i j mi mj).
    + rewrite (index_Done _ _ _ Hi'), (index_Done _ _ _ Hj'). simpl bind.
      f_equal. apply nth_error_ext. intros k.
      destruct (Nat.eq_dec k j) as [->|Hkj].
      * rewrite store_same by (now rewrite !store_length). congruence.
      * rewrite store_other by exact Hkj.
        destruct (Nat.eq_dec k i) as [->|Hki].
        -- rewrite store_same by (now rewrite !store_length). congruence.
        -- now rewrite !store_other by assumption.
  - intros H. unfold Migrations.Swap, index.
    destruct (nth_error ms i) as [mi|] eqn:Ni; [|reflexivity].
    destruct (nth_error ms j) as [mj|] eqn:Nj; [|reflexivity].
    exfalso. destruct H as [H|H].
    + apply nth_error_None in H. congruence.
    + apply nth_error_None in H. congruence.
Qed.

(** ** The registry, whatever the caller declares *)

(** X4: for every caller-supplied list, duplicates and negative versions
    included, [NewMigrator] keeps each declared migration once, adds the
    zero migration, and orders the whole by non-decreasing version. *)
Theorem NewMigrator_contents (ms : list Migration) :
  Permutation (migrator.migrations (migrator.NewMigrator ms))
              (ms ++ [migrator.zeroMigration]) /\
  nondecreasing (versions (migrator.migrations (migrator.NewMigrator ms))) /\
  length (migrator.migrations (migrator.NewMigrator ms)) = S (length ms) /\
  In migrator.zeroMigration (migrator.migrations (migrator.NewMigrator ms)).
Proof.
  pose proof (NewMigrator_perm ms) as HP.
  split; [exact HP|]. split; [apply NewMigrator_nondecreasing|]. split.
  - rewrite (Permutation_length HP), length_app. simpl. lia.
  - eapply Permutation_in; [symmetry; exact HP|].
    apply in_or_app. right. now left.
Qed.

(** X5: the order in which the caller declares its migrations is
    irrelevant: two lists with the same migrations, whose versions
    together with 0 are distinct, give the same migrator. *)
Theorem NewMigrator_order_irrelevant (ms ms' : list Migration) :
  Permutation ms ms' ->
  NoDup (versions (ms ++ [migrator.zeroMigration])) ->
  migrator.NewMigrator ms = migrator.NewMigrator ms'.
Proof.
  intros HP Hnd. unfold migrator.NewMigrator. f_equal.
  apply sort_Sort_unique.
  - etransitivity; [apply (sort_by_perm Less)|].
    now apply Permutation_app_tail.
  - now apply (sort_by_strict Less migration.Version Less_key).
Qed.

Lemma NewMigrator_order_irrelevant_witness :
  migrator.NewMigrator [sample.known 2; sample.known 1]
  = migrator.NewMigrator [sample.known 1; sample.known 2].
Proof.
  apply (NewMigrator_order_irrelevant
           [sample.known 2; sample.known 1] [sample.known 1; sample.known 2]).
  - apply perm_swap.
  - repeat constructor; simpl; intuition discriminate.
Defined.

(** X6: the list that [NewMigrator] keeps is sorted in the terms of
    [sort.Interface]: for two indices [i <= j] below [Len], [Less(j, i)]
    returns false, for every caller-supplied list. *)
Theorem NewMigrator_sorted_for_interface (ms : list Migration) (i j : nat) :
  (i <= j)%nat ->
  Z.of_nat j < Migrations.Len (migrator.migrations (migrator.NewMigrator ms)) ->
  Migrations.Less (migrator.migrations (migrator.NewMigrator ms)) j i
  = Done false.
Proof.
  intros Hij Hj. unfold Migrations.Len in Hj.
  destruct (index_lt (migrator.migrations (migrator.NewMigrator ms)) j)
    as (mj & Ej & Nj); [lia|].
  destruct (index_lt (migrator.migrations (migrator.NewMigrator ms)) i)
    as (mi & Ei & Ni); [lia|].
  unfold Migrations.Less. rewrite Ej, Ei. simpl bind. f_equal.
  unfold CompareMigrations. apply Z.ltb_ge.
  exact (nondecreasing_nth _ _ _ _ _ (NewMigrator_nondecreasing ms) Hij Ni Nj).
Qed.

Lemma NewMigrator_sorted_for_interface_witness :
  Migrations.Less
    (migrator.migrations
       (migrator.NewMigrator [sample.known 2; sample.known (-1)])) 2 0
  = Done false.
Proof.
  apply (NewMigrator_sorted_for_interface
           [sample.known 2; sample.known (-1)] 0 2).
  - lia.
  - reflexivity.
Defined.

(** ** [Init] *)

(** X7: [Init] always returns the versions 0 and 0; it appends the zero
    record when it returns no error and leaves the collection alone when it
    returns one.  When the read succeeds, it returns
    [ErrorMigrationsCollectionAlreadyExists] if a record of version 0 is
    there; and with a driver that does not fail it succeeds if there is
    none, whatever else the collection holds. *)
Theorem Init_outcome (w : World) :
  exists w' err,
    migrator.Init w = (w', Done (0, 0, err)) /\
    (err = None -> coll w' = coll w ++ [zero_record]) /\
    (err <> None -> coll w' = coll w) /\
    (hd None (faults w) = None ->
     (exists d, In d (coll w) /\ doc_version d = 0) ->
     err = Some ErrorMigrationsCollectionAlreadyExists) /\
    (no_faults w ->
     (forall d, In d (coll w) -> doc_version d <> 0) -> err = None).
Proof.
  unfold migrator.Init, bindM, FindOne_version, query, InsertOne, write.
  destruct w as [b fs l]. unfold next_fault, coll. simpl.
  assert (Hfind : forall docs,
             (exists d, In d docs /\ doc_version d = 0) ->
             find (fun d => doc_version d =? 0) docs = None -> False).
  { intros docs (d & Hd & Hz) Hnone.
    pose proof (find_none _ _ Hnone d Hd) as H. simpl in H.
    apply Z.eqb_neq in H. contradiction. }
  assert (Hmiss : forall docs d0,
             (forall d, In d docs -> doc_version d <> 0) ->
             find (fun d => doc_version d =? 0) docs = Some d0 -> False).
  { intros docs d0 Hall Hsome. apply find_some in Hsome as [Hin Hz].
    apply Z.eqb_eq in Hz. now apply (Hall d0). }
  destruct fs as [|[e|] fs]; simpl.
  - (* no failure is scheduled *)
    destruct (find _ (migrations_coll b)) as [d0|] eqn:Efind; simpl.
    + eexists _, _. split; [reflexivity|]. simpl.
      repeat split; try discriminate; try reflexivity.
      intros _ Hall. exfalso. now apply (Hmiss _ _ Hall Efind).
    + eexists _, _. split; [reflexivity|]. simpl.
      repeat split; try reflexivity.
      * intros H. now contradiction H.
      * intros _ Hex. exfalso. now apply (Hfind _ Hex Efind).
  - (* the read fails *)
    destruct e as [s| |s]; simpl.
    + eexists _, _. split; [reflexivity|]. simpl.
      repeat split; try discriminate; try reflexivity.
      intros Hnf. inversion Hnf as [|? ? Hbad]. discriminate Hbad.
    + (* with [ErrNoDocuments]: the insert is attempted *)
      destruct fs as [|[e|] fs]; simpl;
        (eexists _, _; split; [reflexivity|]); simpl;
        repeat split; try discriminate; try reflexivity;
        try (intros H; now contradiction H);
        intros Hnf; inversion Hnf as [|? ? Hbad]; discriminate Hbad.
    + eexists _, _. split; [reflexivity|]. simpl.
      repeat split; try discriminate; try reflexivity.
      intros Hnf. inversion Hnf as [|? ? Hbad]. discriminate Hbad.
  - (* the read succeeds *)
    destruct (find _ (migrations_coll b)) as [d0|] eqn:Efind; simpl.
    + eexists _, _. split; [reflexivity|]. simpl.
      repeat split; try discriminate; try reflexivity.
      intros _ Hall. exfalso. now apply (Hmiss _ _ Hall Efind).
    + destruct fs as [|[e|] fs]; simpl;
        (eexists _, _; split; [reflexivity|]); simpl;
        repeat split; try discriminate; try reflexivity;
        try (intros H; now contradiction H);
        try (intros _ Hex; exfalso; now apply (Hfind _ Hex Efind));
        intros Hnf; inversion Hnf as [|? ? _ Hnf']; inversion Hnf' as [|? ? Hbad];
        discriminate Hbad.
Qed.

Lemma find_zero_none (docs : list Doc) :
  (forall d, In d docs -> doc_version d <> 0) ->
  find (fun d => doc_version d =? 0) docs = None.
Proof.
  intros Hall. destruct (find _ docs) as [d0|] eqn:E; [|reflexivity].
  apply find_some in E as [Hin Hz]. apply Z.eqb_eq in Hz.
  now contradiction (Hall d0 Hin).
Qed.

Lemma find_zero_some (docs : list Doc) (d : Doc) :
  In d docs -> doc_version d = 0 ->
  exists d0, find (fun d => doc_version d =? 0) docs = Some d0.
Proof.
  intros Hin Hz. destruct (find _ docs) as [d0|] eqn:E; [now exists d0|].
  pose proof (find_none _ _ E d Hin) as H. simpl in H.
  apply Z.eqb_neq in H. contradiction.
Qed.

(** [Init] on a collection without a record of version 0. *)
Lemma Init_fresh (w : World) :
  no_faults w ->
  (forall d, In d (coll w) -> doc_version d <> 0) ->
  migrator.Init w =
  ({| base := {| migrations_coll := coll w ++ [zero_record];
                 other_colls := other_colls (base w) |};
      faults := tl (tl (faults w));
      log := (log w ++ [(EvFindOne, Some ErrNoDocuments)])
             ++ [(EvInsertOne zero_record, None)] |},
   Done (0, 0, None)).
Proof.
  intros Hnf Hall.
  unfold migrator.Init, bindM, FindOne_version.
  rewrite (query_ok _ _ _ (no_faults_hd _ Hnf)), (find_zero_none _ Hall).
  unfold InsertOne. rewrite write_ok by (apply no_faults_hd; now apply no_faults_tl).
  reflexivity.
Qed.

(** X8: [Init] guards itself: on a collection without a record of version
    0 and with a driver that does not fail, a first [Init] appends the zero
    record, and a second one returns
    [ErrorMigrationsCollectionAlreadyExists] and writes nothing. *)
Theorem Init_twice (w : World) :
  no_faults w ->
  (forall d, In d (coll w) -> doc_version d <> 0) ->
  exists w1 w2,
    migrator.Init w = (w1, Done (0, 0, None)) /\
    coll w1 = coll w ++ [zero_record] /\
    migrator.Init w1
    = (w2, Done (0, 0, Some ErrorMigrationsCollectionAlreadyExists)) /\
    coll w2 = coll w1 /\
    log w2 = log w ++ [(EvFindOne, Some ErrNoDocuments);
                       (EvInsertOne zero_record, None);
                       (EvFindOne, None)].
Proof.
  intros Hnf Hall. rewrite (Init_fresh w Hnf Hall).
  set (w1 := {| base := {| migrations_coll := coll w ++ [zero_record];
                           other_colls := other_colls (base w) |};
                faults := tl (tl (faults w));
                log := (log w ++ [(EvFindOne, Some ErrNoDocuments)])
                       ++ [(EvInsertOne zero_record, None)] |}).
  assert (Hnf1 : no_faults w1).
  { apply (no_faults_tl _ _ {| base := base w; faults := tl (faults w);
                               log := log w |}).
    now apply no_faults_tl. }
  destruct (find_zero_some (coll w1) zero_record) as (d0 & Hsome);
    [apply in_or_app; right; now left|reflexivity|].
  eexists w1, _. split; [reflexivity|]. split; [reflexivity|].
  unfold migrator.Init, bindM, FindOne_version.
  rewrite (query_ok _ _ _ (no_faults_hd _ Hnf1)), Hsome.
  split; [reflexivity|]. split; [reflexivity|].
  simpl. now rewrite <- !app_assoc.
Qed.

Lemma Init_twice_witness :
  exists w1 w2,
    migrator.Init (sample.world []) = (w1, Done (0, 0, None)) /\
    migrator.Init w1
    = (w2, Done (0, 0, Some ErrorMigrationsCollectionAlreadyExists)) /\
    coll w2 = [sample.zero_doc].
Proof.
  destruct (Init_twice (sample.world [])) as (w1 & w2 & H1 & Hc1 & H2 & Hc2 & _).
  - constructor.
  - intros d [].
  - exists w1, w2. split; [exact H1|]. split; [exact H2|].
    rewrite Hc2, Hc1. reflexivity.
Defined.

(** ** [Version] *)

Lemma rev_sorted_cases (docs : list Doc) :
  match rev (sort_by doc_less docs) with
  | [] => docs = []
  | d :: _ => In d docs /\
              Forall (fun x => doc_version x <= doc_version d) docs
  end.
Proof.
  destruct docs as [|d0 ds].
  - reflexivity.
  - destruct (sorted_last (d0 :: ds)) as (s & lst & E & Hin & Hmax);
      [discriminate|].
    rewrite E, rev_app_distr. simpl. now split.
Qed.

(** X9: [Version] never writes: whatever the driver does, the database is
    left as it was.  It returns no error exactly when the read succeeds on
    a non-empty collection, and then both versions are the maximum of the
    stored versions; on an empty collection it returns
    [ErrorMigrationsAreNotInitialized]; a failure of the read is returned
    with the versions 0 and 0. *)
Theorem Version_reads_maximum (w : World) :
  exists w' old new err,
    migrator.Version w = (w', Done (old, new, err)) /\
    base w' = base w /\
    (err = None -> old = new /\ current_version w old /\
                   hd None (faults w) = None) /\
    (forall e, err = Some e ->
               old = 0 /\ new = 0 /\
               ((hd None (faults w) = None /\ coll w = [] /\
                 e = ErrorMigrationsAreNotInitialized) \/
                (exists e0, hd None (faults w) = Some e0 /\
                            e = migrator.not_initialized e0))) /\
    (hd None (faults w) = None -> coll w <> [] -> err = None).
Proof.
  unfold migrator.Version, bindM, FindOne_last, query.
  destruct w as [b fs l]. unfold next_fault, coll. simpl.
  pose proof (rev_sorted_cases (migrations_coll b)) as Hcases.
  destruct fs as [|[e0|] fs]; simpl.
  2: { eexists _, _, _, _. split; [reflexivity|]. simpl.
       split; [reflexivity|]. split; [discriminate|]. split.
       - intros x Ex. inversion Ex. split; [reflexivity|]. split; [reflexivity|].
         right. now exists e0.
       - discriminate. }
  all: destruct (rev (sort_by doc_less (migrations_coll b))) as [|d ds];
    simpl; eexists _, _, _, _; (split; [reflexivity|]); simpl;
    (split; [reflexivity|]).
  all: try (split; [discriminate|]; split;
            [intros x Ex; inversion Ex; split; [reflexivity|];
             split; [reflexivity|]; left; repeat split; assumption
            |intros _ Hne; contradiction]).
  all: destruct Hcases as [Hin Hmax];
    (split; [intros _; split; [reflexivity|]; split; [|reflexivity];
             split; [now apply (in_map doc_version) in Hin|];
             unfold doc_versions; rewrite Forall_map; exact Hmax
            |split; [discriminate|reflexivity]]).
Qed.

(** ** [Run] and [parseVersion] *)

(** X10: [Run] refuses, before it touches the database: an empty command
    line ([ErrorCommandRequired]), a command it does not know
    ([ErrorUnexpectedCommand]), [set_version] without a version
    ([ErrorVersionNumberRequired]), and [up] or [set_version] with a word
    that [ParseInt] rejects ([ErrorInvalidVersionArgumentFormat], whatever
    the error of the parser).  It returns the versions 0 and 0 and leaves
    the world, its log included, as it was. *)
Theorem Run_refuses (ParseInt : string -> Z * option error)
    (m : migrator.Migrator) (w : World) :
  migrator.Run ParseInt m [] w = (w, Done (0, 0, Some ErrorCommandRequired)) /\
  (forall command rest,
      ~ In command commands ->
      migrator.Run ParseInt m (command :: rest) w
      = (w, Done (0, 0, Some ErrorUnexpectedCommand))) /\
  migrator.Run ParseInt m ["set_version"%string] w
  = (w, Done (0, 0, Some ErrorVersionNumberRequired)) /\
  (forall word rest v e,
      ParseInt word = (v, Some e) ->
      migrator.Run ParseInt m ("up"%string :: word :: rest) w
      = (w, Done (0, 0, Some ErrorInvalidVersionArgumentFormat)) /\
      migrator.Run ParseInt m ("set_version"%string :: word :: rest) w
      = (w, Done (0, 0, Some ErrorInvalidVersionArgumentFormat))).
Proof.
  split; [reflexivity|]. split; [|split; [reflexivity|]].
  - intros command rest Hnot. unfold migrator.Run, commands in *.
    simpl in Hnot.
    repeat match goal with
           | |- context [String.eqb command ?s] =>
               destruct (String.eqb_spec command s) as [->|_];
               [exfalso; apply Hnot; tauto|]
           end.
    reflexivity.
  - intros word rest v e Hparse. unfold migrator.Run, migrator.parseVersion.
    simpl. rewrite Hparse. split; reflexivity.
Qed.

(** X11: the word that [ParseInt] reads as -1 is no target at all: [up]
    with it does what [up] without a version does, since [parseVersion]
    uses -1 for the missing version. *)
Theorem Run_up_minus_one (ParseInt : string -> Z * option error)
    (m : migrator.Migrator) (word : string) (rest : list string) (w : World) :
  ParseInt word = (-1, None) ->
  migrator.Run ParseInt m ("up"%string :: word :: rest) w
  = migrator.Run ParseInt m ["up"%string] w /\
  migrator.Run ParseInt m ["up"%string] w = migrator.Up m (-1) w.
Proof.
  intros Hparse. unfold migrator.Run, migrator.parseVersion. simpl.
  rewrite Hparse. split; reflexivity.
Qed.

Lemma Run_up_minus_one_witness :
  migrator.Run sample.ParseInt (migrator.NewMigrator [sample.known 1])
    ["up"; "-1"]%string (sample.world [sample.zero_doc])
  = migrator.Run sample.ParseInt (migrator.NewMigrator [sample.known 1])
      ["up"%string] (sample.world [sample.zero_doc]) /\
  migrator.Run sample.ParseInt (migrator.NewMigrator [sample.known 1])
    ["up"%string] (sample.world [sample.zero_doc])
  = migrator.Up (migrator.NewMigrator [sample.known 1]) (-1)
      (sample.world [sample.zero_doc]).
Proof.
  apply (Run_up_minus_one sample.ParseInt
           (migrator.NewMigrator [sample.known 1]) "-1" []
           (sample.world [sample.zero_doc])).
  reflexivity.
Defined.

(** ** [Down] *)

Lemma FindOne_last_ok (w : World) (old : Z) :
  hd None (faults w) = None -> current_version w old ->
  exists d,
    FindOne_last w =
    ({| base := base w; faults := tl (faults w);
        log := log w ++ [(EvFindOne, None)] |}, Done (inr d)) /\
    doc_version d = old.
Proof.
  intros Hf Hold. unfold FindOne_last. rewrite (query_ok _ _ _ Hf).
  pose proof (rev_sorted_cases (coll w)) as Hcases.
  destruct (rev (sort_by doc_less (coll w))) as [|d ds].
  - destruct Hold as [Hin _]. rewrite Hcases in Hin. destruct Hin.
  - exists d. split; [reflexivity|].
    destruct Hcases as [Hin Hmax].
    apply (current_version_unique w); [|exact Hold].
    split; [now apply in_map|]. unfold doc_versions. now rewrite Forall_map.
Qed.

Lemma down_loop_no_op (ms : list Migration) (old : Z) :
  forall (n : nat) (w : World),
    (n <= length ms)%nat ->
    (forall k mig, (0 < k < n)%nat -> nth_error ms k = Some mig ->
                   migration.Version mig <> old) ->
    migrator.down_loop ms old n w = (w, Done (old, old, None)).
Proof.
  induction n as [|i IH]; intros w Hn Hnone; [reflexivity|].
  destruct (index_lt ms i) as (mig & Ei & Ni); [lia|].
  cbn [migrator.down_loop]. unfold bindM at 1, lift at 1. rewrite Ei.
  destruct (Z.eqb_spec (migration.Version mig) old) as [E|_].
  - destruct i as [|i]; [reflexivity|].
    exfalso. apply (Hnone (S i) mig); [lia|exact Ni|exact E].
  - apply IH; [lia|]. intros k x Hk. apply Hnone. lia.
Qed.

(** X12: [Down] has nothing to revert, and says so with no error, when the
    current version is the version of no known migration after the first
    one: at the floor of the known set, and also when the current version
    is unknown to the code.  It returns the current version twice, invokes
    no body and writes nothing. *)
Theorem Down_nothing_to_revert (m : migrator.Migrator) (w : World) (old : Z) :
  hd None (faults w) = None ->
  current_version w old ->
  ~ In old (versions (tl (migrator.migrations m))) ->
  migrator.Down m w =
  ({| base := base w; faults := tl (faults w);
      log := log w ++ [(EvFindOne, None)] |}, Done (old, old, None)).
Proof.
  intros Hf Hold Hnot.
  destruct (FindOne_last_ok w old Hf Hold) as (d & Hread & Ed).
  unfold migrator.Down, bindM. rewrite Hread, Ed.
  apply down_loop_no_op; [lia|].
  intros k mig Hk Nk E. apply Hnot. rewrite <- E.
  destruct (migrator.migrations m) as [|x ms]; [destruct k; discriminate Nk|].
  destruct k as [|k]; [lia|]. simpl in *.
  apply in_map. eapply nth_error_In, Nk.
Qed.

Lemma Down_nothing_to_revert_witness :
  migrator.Down (migrator.NewMigrator [sample.known 1; sample.known 2])
    (sample.world [sample.zero_doc])
  = ({| base := base (sample.world [sample.zero_doc]); faults := [];
        log := [(EvFindOne, None)] |}, Done (0, 0, None)) /\
  migrator.Down (migrator.NewMigrator [sample.known 1; sample.known 2])
    (sample.world [sample.zero_doc; sample.doc 7])
  = ({| base := base (sample.world [sample.zero_doc; sample.doc 7]);
        faults := []; log := [(EvFindOne, None)] |}, Done (7, 7, None)).
Proof.
  split.
  - apply (Down_nothing_to_revert
             (migrator.NewMigrator [sample.known 1; sample.known 2])
             (sample.world [sample.zero_doc]) 0).
    + reflexivity.
    + split; [now left|]. repeat constructor. simpl. lia.
    + simpl. intuition discriminate.
  - apply (Down_nothing_to_revert
             (migrator.NewMigrator [sample.known 1; sample.known 2])
             (sample.world [sample.zero_doc; sample.doc 7]) 7).
    + reflexivity.
    + split; [right; now left|]. repeat constructor; simpl; lia.
    + simpl. intuition discriminate.
Defined.

Lemma down_loop_skip (ms : list Migration) (old : Z) (i : nat) (w : World) :
  forall n : nat,
    (S (S i) <= n <= length ms)%nat ->
    (forall k x, (S i < k < n)%nat -> nth_error ms k = Some x ->
                 migration.Version x <> old) ->
    migrator.down_loop ms old n w = migrator.down_loop ms old (S (S i)) w.
Proof.
  induction n as [|n IH]; intros Hn Habove; [lia|].
  destruct (Nat.eq_dec n (S i)) as [->|Hne]; [reflexivity|].
  destruct (index_lt ms n) as (x & Ex & Nx); [lia|].
  cbn [migrator.down_loop]. unfold bindM at 1, lift at 1. rewrite Ex.
  destruct (Z.eqb_spec (migration.Version x) old) as [E|_].
  - exfalso. apply (Habove n x); [lia|exact Nx|exact E].
  - apply IH; [lia|]. intros k y Hk. apply Habove. lia.
Qed.

(** One step down, for any ascending known list. *)
Lemma Down_step (m : migrator.Migrator) (w : World) (i : nat)
    (mig prev : Migration) :
  no_faults w ->
  ascending (versions (migrator.migrations m)) ->
  nth_error (migrator.migrations m) (S i) = Some mig ->
  nth_error (migrator.migrations m) i = Some prev ->
  current_version w (migration.Version mig) ->
  reverts_cleanly mig ->
  exists w',
    migrator.Down m w
    = (w', Done (migration.Version mig, migration.Version prev, None)) /\
    coll w' = remove_first (migration.Version mig) (coll w) /\
    log w' = log w ++ [(EvFindOne, None);
                       (EvDown (migration.Version mig) (migration.Name mig), None);
                       (EvDeleteOne (migration.Version mig), None)] /\
    no_faults w'.
Proof.
  intros Hnf Hasc Nm Np Hold Hclean.
  destruct (FindOne_last_ok w _ (no_faults_hd _ Hnf) Hold) as (d & Hread & Ed).
  set (w1 := {| base := base w; faults := tl (faults w);
                log := log w ++ [(EvFindOne, None)] |}) in Hread.
  assert (Hnf1 : no_faults w1) by now apply no_faults_tl.
  assert (Hlen : (S (S i) <= length (migrator.migrations m))%nat).
  { assert (Hlt : (S i < length (migrator.migrations m))%nat)
      by (apply nth_error_Some; congruence).
    lia. }
  unfold migrator.Down, bindM at 1. rewrite Hread, Ed.
  assert (Habove : forall k x,
             (S i < k < length (migrator.migrations m))%nat ->
             nth_error (migrator.migrations m) k = Some x ->
             migration.Version x <> migration.Version mig).
  { intros k x Hk Nk E.
    assert (Hin : In x (skipn (S (S i)) (migrator.migrations m))).
    { apply (nth_error_In _ (k - S (S i))). rewrite nth_error_skipn.
      now replace (S (S i) + (k - S (S i)))%nat with k by lia. }
    pose proof (ascending_above _ _ _ Hasc Nm x Hin). lia. }
  rewrite (down_loop_skip _ _ i _ _ (conj Hlen (le_n _)) Habove).
  cbn [migrator.down_loop]. unfold bindM at 1, lift at 1.
  rewrite (index_Done _ _ _ Nm), Z.eqb_refl.
  change (0 <? S i)%nat with true. cbv iota.
  replace (S i - 1)%nat with i by lia.
  unfold bindM at 1, lift at 1. rewrite (index_Done _ _ _ Np).
  destruct (call_Down_ok mig (EvDown (migration.Version mig) (migration.Name mig))
              w1 Hclean) as (w2 & Hcall & Hc2 & Hf2 & Hl2).
  unfold bindM at 1. rewrite Hcall.
  assert (Hnf2 : no_faults w2) by (unfold no_faults; now rewrite Hf2).
  unfold bindM, DeleteOne. rewrite (write_ok _ _ _ (no_faults_hd _ Hnf2)).
  eexists. split; [reflexivity|]. split; [|split].
  - unfold coll at 1. simpl. now rewrite Hc2.
  - simpl. rewrite Hl2. subst w1. simpl. now rewrite <- !app_assoc.
  - now apply no_faults_tl.
Qed.



(** ** What the commands invoke *)

Section Footprint.
Context {A B : Type} (P : Event -> Prop).

Lemma only_ret (a : A) : only P (ret a).
Proof.
  intros w. exists []. split; [|constructor]. simpl. now rewrite app_nil_r.
Qed.

Lemma only_lift (e : Exec A) : only P (lift e).
Proof.
  intros w. exists []. split; [|constructor]. simpl. now rewrite app_nil_r.
Qed.

Lemma only_bind (c : M A) (k : A -> M B) :
  only P c -> (forall a, only P (k a)) -> only P (bindM c k).
Proof.
  intros Hc Hk w. unfold bindM.
  destruct (Hc w) as (l1 & Hl1 & HP1).
  destruct (c w) as [w1 [a| |]]; simpl in Hl1.
  - destruct (Hk a w1) as (l2 & Hl2 & HP2).
    exists (l1 ++ l2). split.
    + now rewrite Hl2, Hl1, app_assoc.
    + apply Forall_app. now split.
  - now exists l1.
  - now exists l1.
Qed.

Lemma only_query (ev : Event) (answer : list Doc -> error + A) :
  P ev -> only P (query ev answer).
Proof.
  intros HP w. unfold query, next_fault.
  destruct (faults w) as [|f fs]; simpl;
    (eexists; split; [reflexivity|]); now repeat constructor.
Qed.

Lemma only_write (ev : Event) (change : list Doc -> list Doc) :
  P ev -> only P (write ev change).
Proof.
  intros HP w. unfold write, next_fault.
  destruct (faults w) as [|[e|] fs]; simpl;
    (eexists; split; [reflexivity|]); now repeat constructor.
Qed.

Lemma only_call (f : ApplyFunc) (ev : Event) :
  P ev -> only P (migrator.call f ev).
Proof.
  intros HP w. unfold migrator.call.
  destruct f as [body|].
  - destruct (body (base w)) as [db' e]. simpl.
    eexists; split; [reflexivity|]. now repeat constructor.
  - exists []. split; [|constructor]. simpl. now rewrite app_nil_r.
Qed.

End Footprint.

Lemma only_Version (P : Event -> Prop) : P EvFindOne -> only P migrator.Version.
Proof.
  intros HP. unfold migrator.Version. apply only_bind.
  - now apply only_query.
  - intros [e|d]; apply only_ret.
Qed.

(** X14: [SetVersion] invokes no body of a migration, whatever the state of
    the database and whichever driver call fails: it reads the last record,
    and at most drops the collection and inserts records. *)
Theorem SetVersion_runs_no_body (m : migrator.Migrator) (target : Z) :
  only rewrites (migrator.SetVersion m target).
Proof.
  unfold migrator.SetVersion. apply only_bind.
  - apply only_Version. now left.
  - intros [[old new] [e|]]; [apply only_ret|].
    destruct (migrator.set_version_scan _ _ _ _) as [ix migs].
    destruct (ix =? -1); [apply only_ret|].
    apply only_bind; [apply only_lift|]. intros found.
    destruct (old =? migration.Version found); [apply only_ret|].
    apply only_bind; [apply only_write; right; now left|].
    intros [e|]; [apply only_ret|].
    apply only_bind; [apply only_write; right; right; now eexists|].
    intros [e|]; [apply only_ret|].
    apply only_bind; [apply only_lift|]. intros lst. apply only_ret.
Qed.

Lemma only_reset_loop (correlated : list Migration) :
  forall (n : nat) (v : Z), only reverts (migrator.reset_loop correlated v n).
Proof.
  induction n as [|i IH]; intros v; [apply only_ret|].
  cbn [migrator.reset_loop].
  apply only_bind; [apply only_lift|]. intros migr.
  apply only_bind; [apply only_lift|]. intros v'.
  apply only_bind; [apply only_call; right; left; now eexists _, _|].
  intros [e|]; [apply only_ret|].
  destruct (Z.gtb_spec (migration.Version migr) 0) as [Hpos|_]; [|apply IH].
  apply only_bind.
  - apply only_write. right. right. eexists. split; [reflexivity|lia].
  - intros [e|]; [apply only_ret|apply IH].
Qed.

(** X15: [Reset] never deletes a record of version 0 or below, and never
    inserts a record or drops the collection, whatever the state of the
    database, the known migrations and the failures of the driver. *)
Theorem Reset_spares_zero (m : migrator.Migrator) :
  only reverts (migrator.Reset m).
Proof.
  unfold migrator.Reset. apply only_bind; [apply only_query; now left|].
  intros [e|docs]; [apply only_ret|].
  destruct (0 <? length (map migrator.decoded docs))%nat; [|apply only_ret].
  apply only_bind; [apply only_lift|]. intros version.
  apply only_bind; [apply only_lift|]. intros c.
  destruct (snd c) as [e|]; [apply only_ret|].
  apply only_bind; [apply only_reset_loop|]. intros r. apply only_ret.
Qed.

(** ** Histories that are an initial part of the known migrations *)

Lemma history_length (w : World) : length (history w) = length (coll w).
Proof.
  unfold history. rewrite length_map.
  apply Permutation_length, (sort_by_perm doc_less).
Qed.

Lemma history_versions (w : World) :
  versions (history w) = doc_versions (sort_by doc_less (coll w)).
Proof. apply decoded_versions. Qed.

Lemma prefix_firstn (applied actual : list Migration) :
  prefix_of applied actual <->
  versions applied = firstn (length applied) (versions actual).
Proof.
  split.
  - intros [rest E]. rewrite E.
    replace (length applied) with (length (versions applied) + 0)%nat
      by (unfold versions; rewrite length_map; lia).
    rewrite firstn_app_2. simpl. now rewrite app_nil_r.
  - intros E. exists (skipn (length applied) (versions actual)).
    rewrite E at 1. symmetry. apply firstn_skipn.
Qed.

Lemma firstn_plus {A : Type} (k n : nat) (l : list A) :
  firstn (k + n) l = firstn k l ++ firstn n (skipn k l).
Proof.
  revert l. induction k as [|k IH]; intros l; [reflexivity|].
  destruct l as [|x l]; simpl; [now rewrite firstn_nil|].
  now rewrite IH.
Qed.

Lemma ascending_firstn (n : nat) (vs : list Z) :
  ascending vs -> ascending (firstn n vs).
Proof.
  revert vs. induction n as [|n IH]; intros vs H; [constructor|].
  destruct vs as [|v vs]; [constructor|]. simpl.
  inversion H as [|? ? Hs Hv]; subst. constructor; [now apply IH|].
  rewrite Forall_forall in *. intros x Hx. apply Hv.
  rewrite <- (firstn_skipn n vs). apply in_or_app. now left.
Qed.

Lemma in_snoc {A : Type} (s : list A) (v : A) : In v (s ++ [v]).
Proof. apply in_or_app. right. now left. Qed.

Lemma ascending_snoc_max (s : list Z) (v : Z) :
  ascending (s ++ [v]) -> Forall (fun x => x <= v) (s ++ [v]).
Proof.
  induction s as [|a s IH]; simpl; intros H.
  - repeat constructor. lia.
  - inversion H as [|? ? Hs Ha]; subst. constructor; [|now apply IH].
    rewrite Forall_forall in Ha.
    specialize (Ha v (in_snoc s v)). lia.
Qed.

Lemma filter_last (s : list Z) (v : Z) :
  ascending (s ++ [v]) -> filter (fun x => negb (x =? v)) (s ++ [v]) = s.
Proof.
  intros H. rewrite filter_app. simpl. rewrite Z.eqb_refl. simpl.
  rewrite app_nil_r. apply filter_all. intros x Hx.
  apply negb_true_iff, Z.eqb_neq.
  induction s as [|a s IH]; [destruct Hx|].
  simpl in H. inversion H as [|? ? Hs Ha]; subst.
  destruct Hx as [->|Hx]; [|now apply IH].
  rewrite Forall_forall in Ha. specialize (Ha v (in_snoc s v)). lia.
Qed.

(** In an ascending list, the items below a bound are an initial part,
    and nothing after them is below the bound. *)
Lemma below_firstn (max : Z) (l : list Migration) :
  ascending (versions l) ->
  exists n, (n <= length l)%nat /\ below max l = firstn n l /\
            below max (skipn n l) = [].
Proof.
  induction l as [|x l IH]; intros H.
  - exists 0%nat. now repeat split.
  - inversion H as [|? ? Hs Hx]; subst. unfold below. simpl filter.
    destruct (Z.ltb_spec (migration.Version x) max) as [Hlt|Hge].
    + destruct (IH Hs) as (n & Hn & E & Enone).
      exists (S n). simpl. split; [lia|]. split; [|exact Enone].
      f_equal. exact E.
    + exists 0%nat. split; [lia|].
      assert (Hnone : filter (fun y => migration.Version y <? max) l = []).
      { apply filter_none. intros y Hy. apply Z.ltb_ge.
        rewrite Forall_forall in Hx.
        specialize (Hx _ (in_map migration.Version _ _ Hy)). lia. }
      split; [exact Hnone|]. simpl. unfold below. simpl.
      destruct (Z.ltb_spec (migration.Version x) max); [lia|exact Hnone].
Qed.

(** Records of higher versions, appended in ascending order, stay at the
    end when the collection is read in sorted order. *)
Lemma sort_append (docs new : list Doc) :
  ascending (doc_versions (sort_by doc_less docs) ++ doc_versions new) ->
  sort_by doc_less (docs ++ new) = sort_by doc_less docs ++ new.
Proof.
  intros H. symmetry.
  apply (sort_by_unique doc_less doc_version doc_less_key).
  - apply Permutation_app_tail, (sort_by_perm doc_less).
  - apply (sorted_keys doc_version Z.lt). now rewrite map_app.
Qed.

Lemma Permutation_filter_compat {A : Type} (f : A -> bool) (l l' : list A) :
  Permutation l l' -> Permutation (filter f l) (filter f l').
Proof.
  induction 1 as [|x l l' _ IH|x y l|l l' l'' _ IH1 _ IH2]; simpl.
  - constructor.
  - destruct (f x); [now constructor|assumption].
  - destruct (f x), (f y); try reflexivity. apply perm_swap.
  - now transitivity (filter f l').
Qed.

Lemma StronglySorted_filter {A : Type} (R : A -> A -> Prop) (f : A -> bool)
    (l : list A) :
  StronglySorted R l -> StronglySorted R (filter f l).
Proof.
  induction 1 as [|x l Hs IH Hx]; simpl; [constructor|].
  destruct (f x); [|assumption]. constructor; [assumption|].
  rewrite Forall_forall in *. intros y Hy. apply Hx.
  now apply filter_In in Hy.
Qed.

(** Deleting records and reading in sorted order commute. *)
Lemma sort_filter (f : Doc -> bool) (docs : list Doc) :
  NoDup (doc_versions docs) ->
  sort_by doc_less (filter f docs) = filter f (sort_by doc_less docs).
Proof.
  intros Hnd. symmetry.
  apply (sort_by_unique doc_less doc_version doc_less_key).
  - apply Permutation_filter_compat, (sort_by_perm doc_less).
  - apply StronglySorted_filter.
    apply (sorted_keys doc_version Z.lt).
    now apply (sort_by_strict doc_less doc_version doc_less_key).
Qed.

Lemma doc_versions_filter (v : Z) (docs : list Doc) :
  doc_versions (filter (fun d => negb (doc_version d =? v)) docs)
  = filter (fun x => negb (x =? v)) (doc_versions docs).
Proof.
  induction docs as [|d docs IH]; simpl; [reflexivity|].
  destruct (doc_version d =? v); simpl; now rewrite IH.
Qed.

Lemma nth_error_versions (l : list Migration) (k : nat) (x : Migration) :
  nth_error l k = Some x ->
  nth_error (versions l) k = Some (migration.Version x).
Proof. intros H. unfold versions. now apply map_nth_error. Qed.

(** The current version of a world whose sorted versions are the first
    [S k] known ones. *)
Lemma prefix_current (w : World) (known : list Migration) (k : nat)
    (x : Migration) :
  ascending (versions known) ->
  doc_versions (sort_by doc_less (coll w)) = firstn (S k) (versions known) ->
  nth_error known k = Some x ->
  current_version w (migration.Version x).
Proof.
  intros Hasc Hvs Nx.
  pose proof (firstn_S_snoc _ _ _ (nth_error_versions _ _ _ Nx)) as Hsnoc.
  assert (HP : Permutation (doc_versions (sort_by doc_less (coll w)))
                 (doc_versions (coll w)))
    by apply Permutation_map, (sort_by_perm doc_less).
  split.
  - eapply Permutation_in; [exact HP|].
    rewrite Hvs, Hsnoc. apply in_or_app. right. now left.
  - eapply Permutation_Forall; [exact HP|].
    rewrite Hvs, Hsnoc. apply ascending_snoc_max.
    rewrite <- Hsnoc. now apply ascending_firstn.
Qed.

Lemma prefix_NoDup (w : World) (known : list Migration) :
  ascending (versions known) -> prefix_of (history w) known ->
  NoDup (doc_versions (coll w)).
Proof.
  intros Hasc Hpre. apply prefix_firstn in Hpre.
  rewrite history_versions in Hpre.
  eapply Permutation_NoDup;
    [apply Permutation_map, (sort_by_perm doc_less)|].
  fold (doc_versions (sort_by doc_less (coll w))). rewrite Hpre.
  now apply ascending_NoDup, ascending_firstn.
Qed.

(** X16: on a history that holds the first known versions, at least two
    of them, [Down] reverts the last one: it returns the current version and
    the one below it, and leaves a history that again holds the first known
    versions, one fewer, with the returned version as the current one. *)
Theorem Down_keeps_prefix (m : migrator.Migrator) (w : World) :
  no_faults w ->
  ascending (versions (migrator.migrations m)) ->
  Forall reverts_cleanly (migrator.migrations m) ->
  prefix_of (history w) (migrator.migrations m) ->
  (2 <= length (coll w))%nat ->
  exists w' old new,
    migrator.Down m w = (w', Done (old, new, None)) /\
    current_version w old /\ current_version w' new /\ new < old /\
    prefix_of (history w') (migrator.migrations m) /\
    length (coll w) = S (length (coll w')).
Proof.
  intros Hnf Hasc Hclean Hpre Hlen.
  pose proof (prefix_NoDup _ _ Hasc Hpre) as Hnd.
  pose proof (prefix_length _ _ Hpre) as Hle. rewrite history_length in Hle.
  pose proof Hpre as Hvs. apply prefix_firstn in Hvs.
  rewrite history_versions, history_length in Hvs.
  destruct (length (coll w)) as [|[|i]] eqn:Ek; try lia. clear Hlen.
  destruct (nth_error (migrator.migrations m) (S i)) as [mig|] eqn:Nm;
    [|apply nth_error_None in Nm; lia].
  destruct (nth_error (migrator.migrations m) i) as [prev|] eqn:Np;
    [|apply nth_error_None in Np; lia].
  pose proof (prefix_current w _ _ _ Hasc Hvs Nm) as Hold.
  rewrite Forall_forall in Hclean.
  destruct (Down_step m w i mig prev Hnf Hasc Nm Np Hold
              (Hclean _ (nth_error_In _ _ Nm)))
    as (w' & Hrun & Hc' & _ & _).
  assert (Hvs' : doc_versions (sort_by doc_less (coll w'))
                 = firstn (S i) (versions (migrator.migrations m))).
  { rewrite Hc', (remove_first_filter _ _ Hnd), (sort_filter _ _ Hnd).
    rewrite doc_versions_filter, Hvs.
    rewrite (firstn_S_snoc _ _ _ (nth_error_versions _ _ _ Nm)).
    apply filter_last.
    rewrite <- (firstn_S_snoc _ _ _ (nth_error_versions _ _ _ Nm)).
    now apply ascending_firstn. }
  assert (Hlen' : length (coll w') = S i).
  { rewrite <- (Permutation_length (sort_by_perm doc_less (coll w'))).
    transitivity (length (doc_versions (sort_by doc_less (coll w')))).
    - unfold doc_versions. now rewrite length_map.
    - rewrite Hvs', length_firstn. unfold versions. rewrite length_map. lia. }
  exists w', (migration.Version mig), (migration.Version prev).
  split; [exact Hrun|]. split; [exact Hold|].
  split; [exact (prefix_current w' _ _ _ Hasc Hvs' Np)|].
  split.
  - assert (Hin : In mig (skipn (S i) (migrator.migrations m))).
    { apply (nth_error_In _ 0). rewrite nth_error_skipn.
      now replace (S i + 0)%nat with (S i) by lia. }
    exact (ascending_above _ _ _ Hasc Np mig Hin).
  - split; [|now rewrite Hlen'].
    apply prefix_firstn. now rewrite history_versions, history_length, Hlen'.
Qed.

Lemma Down_keeps_prefix_witness :
  exists w' old new,
    migrator.Down (migrator.NewMigrator [sample.known 1; sample.known 2])
      (sample.world [sample.zero_doc; sample.doc 1; sample.doc 2])
    = (w', Done (old, new, None)) /\
    current_version
      (sample.world [sample.zero_doc; sample.doc 1; sample.doc 2]) old /\
    current_version w' new /\ new < old /\
    prefix_of (history w')
      (migrator.migrations
         (migrator.NewMigrator [sample.known 1; sample.known 2])) /\
    length (coll (sample.world [sample.zero_doc; sample.doc 1; sample.doc 2]))
    = S (length (coll w')).
Proof.
  apply (Down_keeps_prefix
           (migrator.NewMigrator [sample.known 1; sample.known 2])
           (sample.world [sample.zero_doc; sample.doc 1; sample.doc 2])).
  - constructor.
  - repeat constructor.
  - repeat constructor;
      (eexists; split; [reflexivity|]; intros db; split; reflexivity).
  - exists []. reflexivity.
  - simpl. lia.
Defined.

(** ** [Up] on such histories *)

Lemma last_version_last (h : list Migration) :
  migrator.last_version h = Done (last (versions h) 0).
Proof.
  destruct h as [|z rest]; [reflexivity|].
  destruct (last_nth z rest) as (lst & Nl & El).
  unfold migrator.last_version. change (0 <? length (z :: rest))%nat with true.
  cbv iota. rewrite (index_Done _ _ _ Nl). simpl bind. rewrite El.
  unfold versions at 2. simpl map. now rewrite last_cons_default.
Qed.

Lemma last_app_default {A : Type} (a b : list A) (d : A) :
  last (a ++ b) d = last b (last a d).
Proof.
  revert d. induction a as [|x a IH]; intros d; [reflexivity|].
  rewrite <- app_comm_cons, !last_cons_default. apply IH.
Qed.

Lemma versions_skipn (k : nat) (l : list Migration) :
  versions (skipn k l) = skipn k (versions l).
Proof. unfold versions. symmetry. apply skipn_map. Qed.

Lemma versions_firstn (k : nat) (l : list Migration) :
  versions (firstn k l) = firstn k (versions l).
Proof. unfold versions. symmetry. apply firstn_map. Qed.

(** [Up], on a history that holds the first known versions: what it
    applies is the next stretch of the known list, and the history it
    leaves holds the first known versions again. *)
Lemma Up_on_prefix (m : migrator.Migrator) (target max : Z) (w : World) :
  no_faults w ->
  ascending (versions (migrator.migrations m)) ->
  prefix_of (history w) (migrator.migrations m) ->
  Forall applies_cleanly (migrator.migrations m) ->
  Forall (fun x => Stored x = false) (migrator.migrations m) ->
  migrator.merge_max (migrator.migrations m) target = Done max ->
  exists w' n,
    let new := below max (skipn (length (coll w)) (migrator.migrations m)) in
    migrator.Up m target w
    = (w', Done (last (versions (history w)) 0,
                 last (versions (history w')) 0, None)) /\
    new = firstn n (skipn (length (coll w)) (migrator.migrations m)) /\
    below max (skipn (length (coll w')) (migrator.migrations m)) = [] /\
    coll w' = coll w ++ map migrator.encoded new /\
    log w' = log w ++ (EvFind, None) :: flat_map up_events new /\
    no_faults w' /\
    history w' = history w ++ map migrator.decoded (map migrator.encoded new) /\
    prefix_of (history w') (migrator.migrations m).
Proof.
  intros Hnf Hasc Hpre Hclean Hpend Hmax.
  destruct (Up_prefix m target max w Hnf Hasc Hpre Hclean Hpend Hmax)
    as (w' & old & Hrun & Hold & Hc & Hl & Hnf').
  set (k := length (coll w)) in *.
  set (known := migrator.migrations m) in *.
  assert (Hska : ascending (versions (skipn k known))).
  { rewrite versions_skipn. now apply StronglySorted_skipn. }
  destruct (below_firstn max (skipn k known) Hska) as (n & Hn & En & Enone).
  rewrite length_skipn in Hn.
  pose proof Hpre as Hvs. apply prefix_firstn in Hvs.
  rewrite history_versions, history_length in Hvs. fold k in Hvs.
  assert (Hsort : sort_by doc_less (coll w')
                  = sort_by doc_less (coll w)
                    ++ map migrator.encoded (below max (skipn k known))).
  { rewrite Hc. apply sort_append.
    rewrite encoded_versions, Hvs, En, versions_firstn, versions_skipn.
    rewrite <- firstn_plus. now apply ascending_firstn. }
  assert (Hhist : history w'
                  = history w ++ map migrator.decoded
                                   (map migrator.encoded (below max (skipn k known)))).
  { unfold history. now rewrite Hsort, map_app. }
  assert (Hlen' : length (coll w') = (k + n)%nat).
  { rewrite Hc, length_app, length_map, En, length_firstn, length_skipn.
    fold k. lia. }
  rewrite last_version_last in Hold. inversion Hold as [Eold].
  fold (history w) in Eold.
  assert (Enew : last (versions (history w')) 0
                 = last (versions (below max (skipn k known)))
                     (last (versions (history w)) 0)).
  { rewrite Hhist. unfold versions at 1. rewrite map_app.
    fold (versions (history w)).
    fold (versions (map migrator.decoded
                      (map migrator.encoded (below max (skipn k known))))).
    now rewrite last_app_default, decoded_versions, encoded_versions. }
  exists w', n. cbv zeta.
  split; [now rewrite Hrun, Enew, Eold|].
  split; [exact En|]. split.
  { rewrite Hlen'. rewrite Nat.add_comm, <- skipn_skipn. exact Enone. }
  split; [exact Hc|]. split; [exact Hl|]. split; [exact Hnf'|].
  split; [exact Hhist|].
  apply prefix_firstn. rewrite history_versions, history_length, Hlen'.
  unfold doc_versions. rewrite Hsort, map_app.
  fold (doc_versions (sort_by doc_less (coll w))).
  fold (doc_versions (map migrator.encoded (below max (skipn k known)))).
  rewrite encoded_versions, Hvs, En, versions_firstn, versions_skipn.
  now rewrite <- firstn_plus.
Qed.

(** X17: on a history that holds the first known versions, a second [Up]
    with the same target applies nothing: it only reads, and returns the
    version that the first run reached, twice.  The first run leaves a
    history that holds the first known versions again. *)
Theorem Up_twice (m : migrator.Migrator) (target : Z) (w : World) :
  no_faults w ->
  ascending (versions (migrator.migrations m)) ->
  prefix_of (history w) (migrator.migrations m) ->
  Forall applies_cleanly (migrator.migrations m) ->
  Forall (fun x => Stored x = false) (migrator.migrations m) ->
  exists w1 w2 old new,
    migrator.Up m target w = (w1, Done (old, new, None)) /\
    prefix_of (history w1) (migrator.migrations m) /\
    migrator.Up m target w1 = (w2, Done (new, new, None)) /\
    coll w2 = coll w1 /\ log w2 = log w1 ++ [(EvFind, None)].
Proof.
  intros Hnf Hasc Hpre Hclean Hpend.
  destruct (merge_max_total (migrator.migrations m) target) as (max & Hmax).
  destruct (Up_on_prefix m target max w Hnf Hasc Hpre Hclean Hpend Hmax)
    as (w1 & n & Hrun & _ & Enone & _ & _ & Hnf1 & _ & Hpre1).
  destruct (Up_on_prefix m target max w1 Hnf1 Hasc Hpre1 Hclean Hpend Hmax)
    as (w2 & n2 & Hrun2 & _ & _ & Hc2 & Hl2 & _ & Hh2 & _).
  cbv zeta in *. rewrite Enone in Hc2, Hl2, Hh2. simpl in Hc2, Hl2, Hh2.
  rewrite app_nil_r in Hc2, Hh2. rewrite Hh2 in Hrun2.
  now exists w1, w2, (last (versions (history w)) 0),
             (last (versions (history w1)) 0).
Qed.

Lemma Up_twice_witness :
  exists w1 w2 old new,
    migrator.Up (migrator.NewMigrator [sample.known 1; sample.known 2]) 1
      (sample.world [sample.zero_doc])
    = (w1, Done (old, new, None)) /\
    prefix_of (history w1)
      (migrator.migrations
         (migrator.NewMigrator [sample.known 1; sample.known 2])) /\
    migrator.Up (migrator.NewMigrator [sample.known 1; sample.known 2]) 1 w1
    = (w2, Done (new, new, None)) /\
    coll w2 = coll w1 /\ log w2 = log w1 ++ [(EvFind, None)].
Proof.
  apply (Up_twice (migrator.NewMigrator [sample.known 1; sample.known 2]) 1
           (sample.world [sample.zero_doc])).
  - constructor.
  - repeat constructor.
  - exists [1; 2]. reflexivity.
  - repeat constructor;
      (eexists; split; [reflexivity|]; intros db; split; reflexivity).
  - repeat constructor.
Defined.







(** ** [Up] and [Down] together *)





(** ** The bound of the merge at the edge of [int64] *)

Lemma merge_both_stops (fuel : nat) (applied actual : list Migration)
    (max : Z) :
  Forall (fun x => max <= migration.Version x) actual ->
  migrator.merge_both fuel applied actual max 0 0 []
  = Done (0%nat, 0%nat, []).
Proof.
  intros Hall. rewrite merge_both_eq.
  destruct (0 <? length applied)%nat; [|reflexivity].
  destruct actual as [|a rest]; [reflexivity|].
  inversion Hall; subst. unfold migrator.below_max. simpl.
  destruct (Z.ltb_spec (migration.Version a) max); [lia|reflexivity].
Qed.

Lemma merge_actual_stops_at_once (fuel : nat) (actual merged : list Migration)
    (max : Z) :
  Forall (fun x => max <= migration.Version x) actual ->
  migrator.merge_actual fuel actual max 0 merged = Done merged.
Proof.
  intros Hall. rewrite merge_actual_eq.
  destruct actual as [|a rest]; [reflexivity|].
  inversion Hall; subst. unfold migrator.below_max. simpl.
  destruct (Z.ltb_spec (migration.Version a) max); [lia|reflexivity].
Qed.

(** X21: the target [2^63 - 1] makes [Up] apply nothing.  The bound of the
    merge is [target + 1] in [int64], which wraps to the least [int64], and
    no known version is below it: [Up] only reads, and returns the last
    version of the history twice, whatever the history and the known
    migrations are. *)
Theorem Up_greatest_target (m : migrator.Migrator) (w : World) :
  hd None (faults w) = None ->
  Forall (fun x => - 2 ^ 63 <= migration.Version x) (migrator.migrations m) ->
  exists v,
    migrator.last_version (history w) = Done v /\
    migrator.Up m (2 ^ 63 - 1) w =
    ({| base := base w; faults := tl (faults w);
        log := log w ++ [(EvFind, None)] |}, Done (v, v, None)).
Proof.
  intros Hf Hrange.
  assert (Hmax : exists max,
             migrator.merge_max (migrator.migrations m) (2 ^ 63 - 1) = Done max /\
             Forall (fun x => max <= migration.Version x) (migrator.migrations m)).
  { unfold migrator.merge_max.
    destruct (migrator.migrations m) as [|z rest].
    - exists 0. split; [reflexivity|constructor].
    - exists (- 2 ^ 63). split; [reflexivity|exact Hrange]. }
  destruct Hmax as (max & Hmax & Hall).
  exists (last (versions (history w)) 0).
  split; [apply last_version_last|].
  unfold migrator.Up, bindM at 1, Find. rewrite (query_ok _ _ _ Hf).
  fold (history w).
  unfold bindM at 1, lift at 1. rewrite last_version_last.
  unfold bindM at 1, lift at 1. unfold migrator.mergeMigrations.
  rewrite Hmax. simpl bind. rewrite (merge_both_stops _ _ _ _ Hall).
  simpl bind. rewrite merge_applied_ok by lia. simpl bind.
  rewrite (merge_actual_stops_at_once _ _ _ _ Hall).
  unfold bindM. rewrite up_loop_stored; [reflexivity|].
  apply pending_stored. unfold history. apply decoded_stored.
Qed.

Lemma Up_greatest_target_witness :
  exists v,
    migrator.last_version (history (sample.world [sample.zero_doc])) = Done v /\
    migrator.Up (migrator.NewMigrator [sample.known 1; sample.known 2])
      (2 ^ 63 - 1) (sample.world [sample.zero_doc]) =
    ({| base := base (sample.world [sample.zero_doc]);
        faults := tl (faults (sample.world [sample.zero_doc]));
        log := log (sample.world [sample.zero_doc]) ++ [(EvFind, None)] |},
     Done (v, v, None)).
Proof.
  apply (Up_greatest_target
           (migrator.NewMigrator [sample.known 1; sample.known 2])
           (sample.world [sample.zero_doc])).
  - reflexivity.
  - repeat constructor; simpl; lia.
Defined.

(** ** [SetVersion] *)

(** [SetVersion] after the read and the scan, when the target is known. *)
Lemma SetVersion_head (m : migrator.Migrator) (target : Z) (w : World) :
  hd None (faults w) = None -> coll w <> [] ->
  ascending (versions (migrator.migrations m)) ->
  In target (versions (migrator.migrations m)) ->
  exists old found,
    current_version w old /\
    index (up_to target (migrator.migrations m))
      (length (up_to target (migrator.migrations m)) - 1) = Done found /\
    migration.Version found = target /\
    migrator.SetVersion m target w =
    (if old =? target
     then ret (old, old, None)
     else
       err <~ Drop ;;
       match err with
       | Some e => ret (old, 0, Some e)
       | None =>
           err <~ InsertMany
                    (map migrator.encoded
                       (up_to target (migrator.migrations m))) ;;
           match err with
           | Some e => ret (old, 0, Some e)
           | None =>
               lst <~ lift (index (up_to target (migrator.migrations m))
                              (length (up_to target (migrator.migrations m)) - 1)) ;;
               ret (old, migration.Version lst, None)
           end
       end)
      {| base := base w; faults := tl (faults w);
         log := log w ++ [(EvFindOne, None)] |}.
Proof.
  intros Hf Hne Hasc Hin.
  destruct (Version_ok w Hf Hne) as (old & Hold & Hver).
  destruct (set_version_scan_found _ target Hasc Hin 0 [])
    as (pre & found & post & Ems & Ev & Hscan & Hupto).
  assert (Hidx : index (migrator.migrations m)
                   (Z.to_nat (0 + Z.of_nat (length pre))) = Done found).
  { apply index_Done. rewrite Ems. simpl. rewrite Nat2Z.id.
    rewrite nth_error_app2 by lia. now rewrite Nat.sub_diag. }
  exists old, found. split; [exact Hold|]. rewrite Hupto.
  split; [unfold index; now rewrite last_error_snoc|]. split; [exact Ev|].
  unfold migrator.SetVersion, bindM at 1. rewrite Hver, Hscan. simpl app.
  destruct (Z.eqb_spec (0 + Z.of_nat (length pre)) (-1)) as [Hbad|_]; [lia|].
  unfold bindM at 1, lift at 1. rewrite Hidx, Ev. reflexivity.
Qed.

Lemma up_to_current (target : Z) (known : list Migration) (w : World) :
  In target (versions known) ->
  coll w = map migrator.encoded (up_to target known) ->
  current_version w target.
Proof.
  intros Hin Hc. unfold current_version.
  rewrite Hc, encoded_versions. split.
  - apply in_map_iff in Hin as (x & Ex & Hx). apply in_map_iff.
    exists x. split; [exact Ex|]. apply filter_In. split; [exact Hx|].
    apply Z.leb_le. lia.
  - apply Forall_forall. intros v Hv.
    apply in_map_iff in Hv as (x & <- & Hx).
    apply filter_In in Hx as [_ Hx]. now apply Z.leb_le.
Qed.

Lemma up_to_prefix (target : Z) (known : list Migration) :
  ascending (versions known) -> prefix_of (up_to target known) known.
Proof.
  intros Hasc.
  destruct (below_firstn (target + 1) known Hasc) as (n & _ & E & _).
  assert (Eup : up_to target known = firstn n known).
  { rewrite <- E. apply filter_ext. intros x.
    destruct (Z.ltb_spec (migration.Version x) (target + 1)),
             (Z.leb_spec (migration.Version x) target); lia || reflexivity. }
  rewrite Eup. exists (versions (skipn n known)).
  unfold versions. rewrite <- map_app. now rewrite firstn_skipn.
Qed.

(** X22: after [SetVersion] has succeeded for a known target, [Version]
    reports the target.  When the target is not the current version
    already, the history that [SetVersion] leaves holds the first known
    versions, up to the target. *)
Theorem SetVersion_then_Version (m : migrator.Migrator) (target : Z)
    (w : World) :
  no_faults w -> coll w <> [] ->
  ascending (versions (migrator.migrations m)) ->
  In target (versions (migrator.migrations m)) ->
  exists w1 w2 old,
    migrator.SetVersion m target w = (w1, Done (old, target, None)) /\
    migrator.Version w1 = (w2, Done (target, target, None)) /\
    coll w2 = coll w1 /\
    (old <> target ->
     versions (history w1) = versions (up_to target (migrator.migrations m)) /\
     prefix_of (history w1) (migrator.migrations m)).
Proof.
  intros Hnf Hne Hasc Hin.
  destruct (SetVersion_head m target w (no_faults_hd _ Hnf) Hne Hasc Hin)
    as (old & found & Hold & Hidx & Ev & Hrun).
  set (w0 := {| base := base w; faults := tl (faults w);
                log := log w ++ [(EvFindOne, None)] |}) in *.
  assert (Hnf0 : no_faults w0) by now apply no_faults_tl.
  destruct (Z.eqb_spec old target) as [Eq|Neq].
  - (* nothing to do *)
    subst old.
    destruct (Version_ok w0 (no_faults_hd _ Hnf0) Hne) as (v & Hv & Hver).
    assert (v = target) as ->
      by (apply (current_version_unique w0); assumption).
    eexists w0, _, target. split; [exact Hrun|]. split; [exact Hver|].
    split; [reflexivity|]. intros Hbad. now contradiction Hbad.
  - cbv iota in Hrun. unfold bindM at 1, Drop in Hrun.
    rewrite (write_ok _ _ _ (no_faults_hd _ Hnf0)) in Hrun.
    unfold bindM at 1, InsertMany in Hrun. rewrite write_ok in Hrun.
    2: { apply no_faults_hd. now apply no_faults_tl. }
    unfold bindM, lift in Hrun. rewrite Hidx, Ev in Hrun. unfold ret in Hrun.
    match type of Hrun with _ = (?x, _) => set (w1 := x) in * end.
    assert (Hc1 : coll w1
                  = map migrator.encoded (up_to target (migrator.migrations m)))
      by reflexivity.
    assert (Hnf1 : no_faults w1).
    { subst w1. apply no_faults_tl. apply no_faults_tl. exact Hnf0. }
    pose proof (up_to_current _ _ w1 Hin Hc1) as Hcur.
    assert (Hne1 : coll w1 <> []).
    { destruct Hcur as [Hi _]. intros E. rewrite E in Hi. destruct Hi. }
    destruct (Version_ok w1 (no_faults_hd _ Hnf1) Hne1) as (v & Hv & Hver).
    assert (v = target) as ->
      by (apply (current_version_unique w1); assumption).
    eexists w1, _, old. split; [exact Hrun|]. split; [exact Hver|].
    split; [reflexivity|]. intros _.
    assert (Hvs : versions (history w1)
                  = versions (up_to target (migrator.migrations m))).
    { rewrite history_versions, Hc1.
      pose proof (up_to_prefix target _ Hasc) as Hp.
      apply prefix_firstn in Hp.
      rewrite (sort_by_sorted_id doc_less doc_version doc_less_key).
      - apply encoded_versions.
      - apply (sorted_keys doc_version Z.le).
        fold (doc_versions
                (map migrator.encoded (up_to target (migrator.migrations m)))).
        rewrite encoded_versions, Hp.
        now apply ascending_nondecreasing, ascending_firstn. }
    split; [exact Hvs|].
    destruct (up_to_prefix target _ Hasc) as [rest Hrest].
    exists rest. now rewrite Hvs.
Qed.

Lemma SetVersion_then_Version_witness :
  exists w1 w2 old,
    migrator.SetVersion
      (migrator.NewMigrator [sample.known 1; sample.known 2; sample.known 3]) 2
      (sample.world [sample.zero_doc])
    = (w1, Done (old, 2, None)) /\
    migrator.Version w1 = (w2, Done (2, 2, None)) /\
    coll w2 = coll w1 /\
    (old <> 2 ->
     versions (history w1) = [0; 1; 2] /\
     prefix_of (history w1)
       (migrator.migrations
          (migrator.NewMigrator
             [sample.known 1; sample.known 2; sample.known 3]))).
Proof.
  apply (SetVersion_then_Version
           (migrator.NewMigrator
              [sample.known 1; sample.known 2; sample.known 3]) 2
           (sample.world [sample.zero_doc])).
  - constructor.
  - discriminate.
  - repeat constructor.
  - simpl. tauto.
Defined.

(** X23: a failure between the two writes of [SetVersion] empties the
    history.  When the read and the [Drop] succeed and [InsertMany] fails,
    [SetVersion] returns the old version, 0 and the error of the driver, and
    leaves the [migrations] collection empty. *)
Theorem SetVersion_interrupted (m : migrator.Migrator) (target : Z)
    (w : World) (e : error) (fs : list (option error)) :
  coll w <> [] ->
  ascending (versions (migrator.migrations m)) ->
  In target (versions (migrator.migrations m)) ->
  ~ current_version w target ->
  faults w = None :: None :: Some e :: fs ->
  exists w' old,
    current_version w old /\
    migrator.SetVersion m target w = (w', Done (old, 0, Some e)) /\
    coll w' = [] /\
    log w' = log w ++
             [(EvFindOne, None); (EvDrop, None);
              (EvInsertMany
                 (map migrator.encoded (up_to target (migrator.migrations m))),
               Some e)].
Proof.
  intros Hne Hasc Hin Hnot Efs.
  assert (Hf : hd None (faults w) = None) by now rewrite Efs.
  destruct (SetVersion_head m target w Hf Hne Hasc Hin)
    as (old & found & Hold & _ & _ & Hrun).
  destruct (Z.eqb_spec old target) as [Eq|Neq]; [subst old; contradiction|].
  rewrite Efs in Hrun.
  eexists _, old. split; [exact Hold|]. split; [exact Hrun|].
  split; [reflexivity|]. simpl. now rewrite <- !app_assoc.
Qed.

Lemma SetVersion_interrupted_witness :
  exists w' old,
    current_version
      {| base := base (sample.world [sample.zero_doc; sample.doc 1]);
         faults := [None; None; Some (DriverError "down")];
         log := [] |} old /\
    migrator.SetVersion
      (migrator.NewMigrator [sample.known 1; sample.known 2]) 2
      {| base := base (sample.world [sample.zero_doc; sample.doc 1]);
         faults := [None; None; Some (DriverError "down")];
         log := [] |}
    = (w', Done (old, 0, Some (DriverError "down"))) /\
    coll w' = [] /\
    log w' = [(EvFindOne, None); (EvDrop, None);
              (EvInsertMany
                 [sample.zero_doc; sample.doc 1; sample.doc 2],
               Some (DriverError "down"))].
Proof.
  apply (SetVersion_interrupted
           (migrator.NewMigrator [sample.known 1; sample.known 2]) 2
           {| base := base (sample.world [sample.zero_doc; sample.doc 1]);
              faults := [None; None; Some (DriverError "down")];
              log := [] |}
           (DriverError "down") []).
  - discriminate.
  - repeat constructor.
  - simpl. tauto.
  - intros [Hin _]. simpl in Hin. destruct Hin as [H|[H|[]]]; discriminate H.
  - reflexivity.
Defined.

(** ** The two walks on arbitrary lists *)

Lemma correlate_loop_sound (applied actual : list Migration) :
  forall (fuel i j : nat) (c : list Migration),
    (length applied - i + (length actual - j) <= fuel)%nat ->
    (i <= length applied)%nat ->
    Forall2 (pairs actual) (firstn i applied) c ->
    exists i' c' err,
      migrator.correlate_loop fuel applied actual i j c = Done (i', c', err) /\
      (i' <= length applied)%nat /\
      ((err = None /\ Forall2 (pairs actual) (firstn i' applied) c') \/
       (err = Some ErrorSomeMigrationsAreAbsent /\
        exists o a, nth_error applied i' = Some a /\
                    Forall2 (pairs actual) (firstn i' applied) o /\
                    c' = o ++ [a])).
Proof.
  induction fuel as [|fuel IH]; intros i j c Hfuel Hi Hc;
    rewrite correlate_loop_eq.
  - destruct (Nat.ltb_spec i (length applied)) as [Hil|Hil];
      destruct (Nat.ltb_spec j (length actual)) as [Hjl|Hjl]; simpl; try lia;
      exists i, c, None; (split; [reflexivity|]); (split; [lia|]); now left.
  - destruct (Nat.ltb_spec i (length applied)) as [Hil|Hil];
      destruct (Nat.ltb_spec j (length actual)) as [Hjl|Hjl]; simpl;
      try (exists i, c, None; (split; [reflexivity|]); (split; [lia|]);
           now left).
    destruct (index_lt applied i Hil) as (ai & Ei & Ni).
    destruct (index_lt actual j Hjl) as (aj & Ej & Nj).
    rewrite Ei, Ej. simpl bind. rewrite !Less_key.
    destruct (Z.ltb_spec (migration.Version ai) (migration.Version aj)) as [Hlt|Hge].
    + exists i, (c ++ [ai]), (Some ErrorSomeMigrationsAreAbsent).
      split; [reflexivity|]. split; [lia|]. right. split; [reflexivity|].
      now exists c, ai.
    + destruct (Z.ltb_spec (migration.Version aj) (migration.Version ai)) as [Hlt'|Hge'].
      * apply IH; [lia|lia|exact Hc].
      * apply IH; [lia|lia|].
        rewrite (firstn_S_snoc _ _ _ Ni). apply Forall2_app; [exact Hc|].
        constructor; [|constructor]. split; [eapply nth_error_In, Nj|lia].
Qed.

(** X24: [correlateMigrations] returns for any two lists, sorted or not,
    and never reads a slice out of range.  Without an error the result
    pairs every element of [applied], in order, with a migration of [actual]
    of the same version; with an error, which is
    [ErrorSomeMigrationsAreAbsent], the result pairs the elements of
    [applied] before some element and ends with that element itself. *)
Theorem correlateMigrations_returns (applied actual : list Migration) :
  exists correlated err,
    migrator.correlateMigrations applied actual = Done (correlated, err) /\
    (err = None -> Forall2 (pairs actual) applied correlated) /\
    (err <> None ->
     err = Some ErrorSomeMigrationsAreAbsent /\
     exists pre a post o,
       applied = pre ++ a :: post /\ Forall2 (pairs actual) pre o /\
       correlated = o ++ [a]).
Proof.
  destruct (correlate_loop_sound applied actual
              (length applied + length actual) 0 0 [])
    as (i & c & err & Hloop & Hi & Hres); [lia|lia|constructor|].
  unfold migrator.correlateMigrations. rewrite Hloop. simpl bind.
  unfold migrator.correlate_finish.
  assert (Hsplit : forall a, nth_error applied i = Some a ->
                             applied = firstn i applied ++ a :: skipn (S i) applied).
  { intros a Na. rewrite <- (skipn_nth_error _ _ _ Na).
    symmetry. apply firstn_skipn. }
  destruct Hres as [[-> Hc]|[-> (o & a & Na & Ho & ->)]].
  - destruct (Nat.ltb_spec i (length applied)) as [Hil|Hil].
    + destruct (index_lt applied i Hil) as (a & Ea & Na). rewrite Ea. simpl bind.
      eexists _, _. split; [reflexivity|]. split; [discriminate|].
      intros _. split; [reflexivity|].
      exists (firstn i applied), a, (skipn (S i) applied), c.
      split; [now apply Hsplit|]. now split.
    + eexists _, _. split; [reflexivity|]. split.
      * intros _. now rewrite firstn_all2 in Hc by lia.
      * intros H. now contradiction H.
  - eexists _, _. split; [reflexivity|]. split; [discriminate|].
    intros _. split; [reflexivity|].
    exists (firstn i applied), a, (skipn (S i) applied), o.
    split; [now apply Hsplit|]. now split.
Qed.

Lemma filter_snoc {A : Type} (f : A -> bool) (l : list A) (x : A) :
  filter f (l ++ [x]) = if f x then filter f l ++ [x] else filter f l.
Proof.
  rewrite filter_app. simpl. destruct (f x); [reflexivity|apply app_nil_r].
Qed.

Lemma merge_both_history (applied actual : list Migration) (max : Z) :
  Forall (fun a => Stored a = true) applied ->
  Forall (fun x => Stored x = false) actual ->
  forall (fuel i j : nat) (merged : list Migration)
         (i' j' : nat) (merged' : list Migration),
    migrator.merge_both fuel applied actual max i j merged
    = Done (i', j', merged') ->
    filter Stored merged = firstn i applied ->
    filter Stored merged' = firstn i' applied.
Proof.
  intros Happ Hact. rewrite Forall_forall in Happ, Hact.
  induction fuel as [|fuel IH]; intros i j merged i' j' merged' Hrun Hinv;
    rewrite merge_both_eq in Hrun;
    destruct ((i <? length applied)%nat && (j <? length actual)%nat);
    try (inversion Hrun; subst; exact Hinv);
    destruct (migrator.below_max actual max j) as [[|]| |];
    try discriminate Hrun; try (inversion Hrun; subst; exact Hinv).
  simpl bind in Hrun. unfold index at 1 in Hrun.
  destruct (nth_error applied i) as [ai|] eqn:Ni; [|discriminate Hrun].
  simpl bind in Hrun. unfold index at 1 in Hrun.
  destruct (nth_error actual j) as [aj|] eqn:Nj; [|discriminate Hrun].
  simpl bind in Hrun.
  assert (Hai : filter Stored (merged ++ [ai]) = firstn (S i) applied).
  { rewrite filter_snoc, (Happ ai (nth_error_In _ _ Ni)), Hinv.
    symmetry. now apply firstn_S_snoc. }
  assert (Haj : filter Stored (merged ++ [aj]) = firstn i applied).
  { now rewrite filter_snoc, (Hact aj (nth_error_In _ _ Nj)). }
  destruct (Less ai aj).
  - exact (IH _ _ _ _ _ _ Hrun Hai).
  - unfold index at 1 in Hrun.
    destruct (nth_error applied j) as [apj|]; [|discriminate Hrun].
    simpl bind in Hrun. destruct (Less aj apj).
    + exact (IH _ _ _ _ _ _ Hrun Haj).
    + exact (IH _ _ _ _ _ _ Hrun Hai).
Qed.

Lemma merge_actual_history (actual : list Migration) (max : Z) :
  Forall (fun x => Stored x = false) actual ->
  forall (fuel j : nat) (merged merged' : list Migration),
    migrator.merge_actual fuel actual max j merged = Done merged' ->
    filter Stored merged' = filter Stored merged.
Proof.
  intros Hact. rewrite Forall_forall in Hact.
  induction fuel as [|fuel IH]; intros j merged merged' Hrun;
    rewrite merge_actual_eq in Hrun;
    destruct (j <? length actual)%nat;
    try (inversion Hrun; subst; reflexivity);
    destruct (migrator.below_max actual max j) as [[|]| |];
    try discriminate Hrun; try (inversion Hrun; subst; reflexivity).
  simpl bind in Hrun. unfold index at 1 in Hrun.
  destruct (nth_error actual j) as [aj|] eqn:Nj; [|discriminate Hrun].
  simpl bind in Hrun. rewrite (IH _ _ _ Hrun).
  now rewrite filter_snoc, (Hact aj (nth_error_In _ _ Nj)).
Qed.

(** X25: whenever [mergeMigrations] returns, the stored items of its
    result are the history, item for item and in the order of the history:
    no record of the history is lost or repeated, whatever the order of
    the two lists and whatever the target.  The history is marked as
    stored and the known migrations are not, as [Up] passes them. *)
Theorem mergeMigrations_keeps_history (applied actual : list Migration)
    (target : Z) (merged : list Migration) :
  Forall (fun a => Stored a = true) applied ->
  Forall (fun x => Stored x = false) actual ->
  migrator.mergeMigrations applied actual target = Done merged ->
  filter Stored merged = applied.
Proof.
  intros Happ Hact Hrun. unfold migrator.mergeMigrations in Hrun.
  destruct (migrator.merge_max actual target) as [max| |];
    try discriminate Hrun. simpl bind in Hrun.
  destruct (migrator.merge_both _ applied actual max 0 0 [])
    as [[[i j] merged1]| |] eqn:Eboth; try discriminate Hrun.
  simpl bind in Hrun.
  pose proof (merge_both_history _ _ _ Happ Hact _ _ _ _ _ _ _ Eboth eq_refl)
    as H1.
  rewrite merge_applied_ok in Hrun by lia. simpl bind in Hrun.
  rewrite (merge_actual_history _ _ Hact _ _ _ _ Hrun).
  rewrite filter_app, H1.
  rewrite (filter_all Stored (skipn i applied)).
  - apply firstn_skipn.
  - intros x Hx. rewrite Forall_forall in Happ. apply Happ.
    rewrite <- (firstn_skipn i applied). apply in_or_app. now right.
Qed.

Lemma mergeMigrations_keeps_history_witness :
  filter Stored [sample.stored 0; sample.known 1; sample.stored 2;
                 sample.known 3]
  = [sample.stored 0; sample.stored 2].
Proof.
  apply (mergeMigrations_keeps_history
           [sample.stored 0; sample.stored 2]
           [migrator.zeroMigration; sample.known 1; sample.known 3] (-1)).
  - repeat constructor.
  - repeat constructor.
  - reflexivity.
Defined.

(** ** The order of bodies and writes *)

Lemma next_fault_log (w : World) : log (snd (next_fault w)) = log w.
Proof. unfold next_fault. now destruct (faults w). Qed.

Lemma up_loop_trace (merged : list Migration) :
  forall (v : Z) (w : World),
    exists l, log (fst (migrator.up_loop merged v w)) = log w ++ l /\
              up_trace l.
Proof.
  induction merged as [|migr rest IH]; intros v w.
  - exists []. split; [now rewrite app_nil_r|constructor].
  - cbn [migrator.up_loop]. destruct (Stored migr); cbn [negb]; [apply IH|].
    unfold bindM at 1, migrator.call. cbv beta.
    destruct (migration.Up migr) as [body|].
    2:{ exists []. split; [now rewrite app_nil_r|constructor]. }
    destruct (body (base w)) as [db' [e|]].
    { eexists. split; [reflexivity|]. constructor. }
    unfold bindM at 1, InsertOne, write, next_fault. cbn [faults base log].
    destruct (faults w) as [|[e|] fs].
    + match goal with
      | |- context [migrator.up_loop rest ?nv ?w1] =>
          destruct (IH nv w1) as (l & Hl & Ht)
      end.
      eexists. split; [rewrite Hl; simpl; rewrite <- !app_assoc; reflexivity|].
      simpl. now constructor.
    + eexists. split; [simpl; rewrite <- app_assoc; reflexivity|].
      simpl. constructor.
    + match goal with
      | |- context [migrator.up_loop rest ?nv ?w1] =>
          destruct (IH nv w1) as (l & Hl & Ht)
      end.
      eexists. split; [rewrite Hl; simpl; rewrite <- !app_assoc; reflexivity|].
      simpl. now constructor.
Qed.

(** The log of [Up] is the read alone, or the read followed by what the
    loop over a merge result invokes. *)
Lemma Up_reduces (m : migrator.Migrator) (target : Z) (w : World) :
  exists res,
    log (fst (migrator.Up m target w)) = log w ++ [(EvFind, res)] \/
    exists merged version w1,
      log w1 = log w ++ [(EvFind, res)] /\
      log (fst (migrator.Up m target w))
      = log (fst (migrator.up_loop merged version w1)).
Proof.
  remember (migrator.Up m target w) as U eqn:EU.
  unfold migrator.Up, bindM at 1, Find, query in EU.
  pose proof (next_fault_log w) as Hlog.
  destruct (next_fault w) as [[e|] w0]; simpl in Hlog.
  - subst U. eexists. left. simpl. now rewrite Hlog.
  - exists None. unfold bindM at 1, lift at 1 in EU.
    destruct (migrator.last_version _) as [version| |];
      try (subst U; left; simpl; now rewrite Hlog).
    unfold bindM at 1, lift at 1 in EU.
    destruct (migrator.mergeMigrations _ _ _) as [merged| |];
      try (subst U; left; simpl; now rewrite Hlog).
    right. exists merged, version, (record EvFind None w0). split.
    + simpl. now rewrite Hlog.
    + unfold bindM in EU.
      destruct (migrator.up_loop merged version _) as [w2 [r| |]];
        now subst U.
Qed.

(** X26: [Up] inserts a record only right after the body of that very
    migration has returned without error, and nothing follows a step that
    failed.  This holds for every state of the database, every set of known
    migrations and every failure of the driver or of a body, and also when
    the merge panics. *)
Theorem Up_inserts_after_body (m : migrator.Migrator) (target : Z)
    (w : World) :
  exists res l,
    log (fst (migrator.Up m target w)) = log w ++ (EvFind, res) :: l /\
    up_trace l.
Proof.
  destruct (Up_reduces m target w)
    as (res & [Hl|(merged & version & w1 & Hw1 & Hl)]).
  - exists res, []. split; [exact Hl|constructor].
  - destruct (up_loop_trace merged version w1) as (l & Hloop & Ht).
    exists res, l. split; [|exact Ht].
    now rewrite Hl, Hloop, Hw1, <- app_assoc.
Qed.

Lemma up_trace_inserted (l : list (Event * option error)) (d : Doc)
    (res : option error) :
  up_trace l -> In (EvInsertOne d, res) l ->
  exists r, In (EvUp (doc_version d) (doc_name d), r) l.
Proof.
  induction 1 as [|v n rest Hrest IH|v n e|v n e]; intros Hin.
  - destruct Hin.
  - destruct Hin as [Hin|[Hin|Hin]]; [discriminate Hin| |].
    + inversion Hin; subst. exists None. now left.
    + destruct (IH Hin) as (r & Hr). exists r. right. now right.
  - destruct Hin as [Hin|[]]. discriminate Hin.
  - destruct Hin as [Hin|[Hin|[]]]; [discriminate Hin|].
    inversion Hin; subst. exists None. now left.
Qed.

(** X27: [Up] with a target other than -1 and below the greatest [int64]
    invokes no body and inserts no record of a version above the target,
    whatever the history, the known migrations and the failures. *)
Theorem Up_stays_below_target (m : migrator.Migrator) (target : Z)
    (w : World) :
  target <> -1 -> - 2 ^ 63 <= target < 2 ^ 63 - 1 ->
  exists res l,
    log (fst (migrator.Up m target w)) = log w ++ (EvFind, res) :: l /\
    (forall v n r, In (EvUp v n, r) l -> v <= target) /\
    (forall d r, In (EvInsertOne d, r) l -> doc_version d <= target).
Proof.
  intros Hne Hrange.
  assert (Hshape : exists res l,
             log (fst (migrator.Up m target w)) = log w ++ (EvFind, res) :: l /\
             up_trace l).
  { destruct (Up_reduces m target w)
      as (res & [Hl|(merged & version & w1 & Hw1 & Hl)]).
    - exists res, []. split; [exact Hl|constructor].
    - destruct (up_loop_trace merged version w1) as (l & Hloop & Ht).
      exists res, l. split; [|exact Ht].
      now rewrite Hl, Hloop, Hw1, <- app_assoc. }
  destruct Hshape as (res & l & Hl & Ht).
  destruct (migrator.Up m target w) as [w' r] eqn:Erun.
  destruct (Up_bound m target w w' r Erun Hne Hrange) as (l0 & Hl0 & Hbound).
  simpl in Hl. rewrite Hl in Hl0. apply app_inv_head in Hl0. subst l0.
  exists res, l. split; [exact Hl|]. split.
  - intros v n r0 Hin. apply (Hbound v n r0). now right.
  - intros d r0 Hin. destruct (up_trace_inserted l d r0 Ht Hin) as (r1 & Hr1).
    apply (Hbound _ (doc_name d) r1). now right.
Qed.

Lemma Up_stays_below_target_witness :
  exists res l,
    log (fst (migrator.Up
                (migrator.NewMigrator
                   [sample.known 1; sample.known 2; sample.known 3]) 2
                (sample.world [sample.zero_doc])))
    = log (sample.world [sample.zero_doc]) ++ (EvFind, res) :: l /\
    (forall v n r, In (EvUp v n, r) l -> v <= 2) /\
    (forall d r, In (EvInsertOne d, r) l -> doc_version d <= 2).
Proof.
  apply (Up_stays_below_target
           (migrator.NewMigrator
              [sample.known 1; sample.known 2; sample.known 3]) 2
           (sample.world [sample.zero_doc])).
  - discriminate.
  - lia.
Defined.

Lemma down_loop_trace (ms : list Migration) (old : Z) :
  forall (n : nat) (w : World),
    exists l, log (fst (migrator.down_loop ms old n w)) = log w ++ l /\
              down_trace l.
Proof.
  induction n as [|i IH]; intros w.
  - exists []. split; [now rewrite app_nil_r|constructor].
  - cbn [migrator.down_loop]. unfold bindM at 1, lift at 1.
    destruct (index ms i) as [mig| |];
      try (exists []; split; [now rewrite app_nil_r|constructor]).
    destruct (migration.Version mig =? old); [|apply IH].
    destruct (0 <? i)%nat;
      [|exists []; split; [now rewrite app_nil_r|constructor]].
    unfold bindM at 1, lift at 1.
    destruct (index ms (i - 1)) as [prev| |];
      try (exists []; split; [now rewrite app_nil_r|constructor]).
    unfold bindM at 1, migrator.call. cbv beta.
    destruct (migration.Down mig) as [body|].
    2:{ exists []. split; [now rewrite app_nil_r|constructor]. }
    destruct (body (base w)) as [db' [e|]].
    { eexists. split; [reflexivity|]. constructor. }
    unfold bindM, DeleteOne, write, next_fault. cbn [faults base log].
    destruct (faults w) as [|[e|] fs];
      (eexists; split; [simpl; rewrite <- app_assoc; reflexivity|]);
      simpl; constructor.
Qed.

(** X28: one call of [Down] reverts at most one migration, and deletes a
    record only after the body of that version has returned without error:
    after the read it invokes nothing, or one body that fails, or one body
    and the deletion of the record of its version.  This holds for every
    state of the database and every failure. *)
Theorem Down_reverts_at_most_one (m : migrator.Migrator) (w : World) :
  exists res l,
    log (fst (migrator.Down m w)) = log w ++ (EvFindOne, res) :: l /\
    down_trace l.
Proof.
  unfold migrator.Down, bindM, FindOne_last, query.
  pose proof (next_fault_log w) as Hlog.
  destruct (next_fault w) as [[e|] w0]; simpl in Hlog.
  - eexists _, []. split; [simpl; now rewrite Hlog|constructor].
  - destruct (rev (sort_by doc_less (coll w0))) as [|d ds].
    + eexists _, []. split; [simpl; now rewrite Hlog|constructor].
    + match goal with
      | |- context [migrator.down_loop ?ms ?old ?n ?w1] =>
          destruct (down_loop_trace ms old n w1) as (l & Hl & Ht)
      end.
      simpl in Hl. rewrite Hl, Hlog, <- app_assoc. now eexists _, l.
Qed.

(** ** The life cycle on a fresh database *)

(** The known set {0, 1, 2, 3}: [Init] records the zero migration, [Up]
    with no target applies 1, 2 and 3 in order, [Reset] takes the database
    back to the zero record. *)
Example scenario_init_up_reset :
  let m := migrator.NewMigrator [sample.known 3; sample.known 1; sample.known 2] in
  let r1 := migrator.Init (sample.world []) in
  let r2 := migrator.Up m (-1) (fst r1) in
  let r3 := migrator.Reset m (fst r2) in
  snd r1 = Done (0, 0, None) /\ coll (fst r1) = [sample.zero_doc] /\
  snd r2 = Done (0, 3, None) /\
  coll (fst r2) = [sample.zero_doc; sample.doc 1; sample.doc 2; sample.doc 3] /\
  snd r3 = Done (3, 0, None) /\ coll (fst r3) = [sample.zero_doc].
Proof. repeat split. Qed.
